(** * Conditional distributions of [janelia_core.ml.torch_distributions]

    A shallow embedding of the conditional distribution classes
    ([CondBernoulliDistribution], [CondGaussianDistribution],
    [CondSpikeSlabDistribution], [CondMatrixProductDistribution]) and of the
    part of the tensor library they call.

    Conventions of the embedding.
    - Tensor entries are real numbers: rounding of floating point numbers is
      not modelled, [torch.log] is [ln] and [torch.exp] is [exp].
    - A tensor has rank 0, 1 or 2 and is either a float tensor or a mask
      (the byte/bool tensors the comparisons and [.byte()] produce).
    - A call returns a value, raises a Python exception, or is [Unmodelled]:
      the last outcome marks the few index forms and dtype mixtures whose
      behaviour depends on the version of the tensor library.
    - The random draws of [sample] are read from an explicit noise stream:
      the uniform variates of the Bernoulli trials (in [0, 1)) and the
      standard normal variates of the Gaussian reparameterization. *)

From Stdlib Require Import String.
From Stdlib Require Import Reals Lra Lia List Bool Arith.
Import ListNotations.
Open Scope R_scope.

Set Implicit Arguments.
Set Warnings "-register-all".

(** ** Outcomes *)

Inductive exn : Type :=
| ValueError (msg : string)
| AttributeError
| TypeError
| IndexError
| RuntimeError.

Inductive result (A : Type) : Type :=
| Ok (a : A)
| Raise (e : exn)
| Unmodelled.

Arguments Ok {A} a.
Arguments Raise {A} e.
Arguments Unmodelled {A}.

Definition bind {A B : Type} (r : result A) (k : A -> result B) : result B :=
  match r with
  | Ok a => k a
  | Raise e => Raise e
  | Unmodelled => Unmodelled
  end.

Notation "x <- r ;; k" := (bind r (fun x => k))
  (at level 61, r at next level, right associativity).
Notation "' p <- r ;; k" := (bind r (fun x => let 'p := x in k))
  (at level 61, p pattern, r at next level, right associativity).

(** ** Tensors and Python values *)

Record mat (A : Type) : Type := Mat { ncols : nat; mrows : list (list A) }.

Definition nrows {A} (m : mat A) : nat := length (mrows m).

Inductive shaped (A : Type) : Type :=
| T0 (a : A)
| T1 (v : list A)
| T2 (m : mat A).

Arguments T0 {A} a.
Arguments T1 {A} v.
Arguments T2 {A} m.

Inductive tensor : Type :=
| FT (t : shaped R)
| BT (t : shaped bool).

Inductive pyval : Type :=
| PNone
| PInt (n : nat)
| PTensor (t : tensor)
| PList (l : list pyval).

Definition rank {A} (t : shaped A) : nat :=
  match t with T0 _ => 0 | T1 _ => 1 | T2 _ => 2 end.

Definition trank (t : tensor) : nat :=
  match t with FT s => rank s | BT s => rank s end.

Definition has_shape {A} (m : mat A) (n d : nat) : Prop :=
  ncols m = d /\ length (mrows m) = n /\ Forall (fun r => length r = d) (mrows m).

(** ** List helpers of the tensor operations *)

Fixpoint zip_with {A B C} (f : A -> B -> C) (la : list A) (lb : list B) : list C :=
  match la, lb with
  | a :: la', b :: lb' => f a b :: zip_with f la' lb'
  | _, _ => []
  end.

Definition tsum (l : list R) : R := fold_right Rplus 0 l.

Definition nzR (r : R) : bool := if Req_dec_T r 0 then false else true.
Definition nzB (b : bool) : bool := b.

Fixpoint mask_select {A} (m : list bool) (l : list A) : list A :=
  match m, l with
  | b :: m', a :: l' => if b then a :: mask_select m' l' else mask_select m' l'
  | _, _ => []
  end.

Fixpoint mask_assign {A} (m : list bool) (l : list A) (vals : list A) : list A :=
  match m, l with
  | b :: m', a :: l' =>
      if b then
        match vals with
        | v :: vals' => v :: mask_assign m' l' vals'
        | [] => a :: mask_assign m' l' []
        end
      else a :: mask_assign m' l' vals
  | _, _ => l
  end.

Definition count_true (m : list bool) : nat := length (filter (fun b => b) m).

(** [t[mask]] on a rank 1 tensor: the mask must have the tensor's length. *)
Definition getitem_mask {A} (l : list A) (m : list bool) : result (list A) :=
  if (length m =? length l)%nat then Ok (mask_select m l) else Raise IndexError.

(** Broadcasting of one dimension. *)
Definition bdim (a b : nat) : option nat :=
  if (a =? b)%nat then Some a
  else if (a =? 1)%nat then Some b
  else if (b =? 1)%nat then Some a
  else None.

Definition expand {A} (n : nat) (l : list A) : list A :=
  if (length l =? n)%nat then l
  else match l with
       | [a] => repeat a n
       | _ => l
       end.

(** Element-wise binary operation on two rank 2 tensors, with broadcasting. *)
Definition bcast2 (f : R -> R -> R) (a b : mat R) : result (mat R) :=
  match bdim (nrows a) (nrows b), bdim (ncols a) (ncols b) with
  | Some r, Some c =>
      Ok (Mat c (zip_with (fun ra rb => zip_with f (expand c ra) (expand c rb))
                          (expand r (mrows a)) (expand r (mrows b))))
  | _, _ => Raise RuntimeError
  end.

(** Element-wise binary operation on two rank 1 tensors, with broadcasting. *)
Definition bcast1 (f : R -> R -> R) (a b : list R) : result (list R) :=
  match bdim (length a) (length b) with
  | Some r => Ok (zip_with f (expand r a) (expand r b))
  | None => Raise RuntimeError
  end.

(** In-place [a op= b] on a rank 1 tensor: [b] is broadcast to the shape of
    [a], which cannot change. *)
Definition inplace1 (f : R -> R -> R) (a b : list R) : result (list R) :=
  if (length b =? length a)%nat then Ok (zip_with f a b)
  else match b with
       | [v] => Ok (map (fun u => f u v) a)
       | _ => Raise RuntimeError
       end.

(** [t.squeeze()] on a rank 1 tensor. *)
Definition squeeze1 (l : list R) : tensor :=
  match l with
  | [a] => FT (T0 a)
  | _ => FT (T1 l)
  end.

(** ** Modules supplied by the caller

    [log_prob_fcn] returns a rank 1 tensor, [mn_f] and [std_f] a rank 2
    tensor; each owns a list of trainable parameters. *)

Definition param := nat.

Record VecModule : Type := { vparams : list param; vcall : mat R -> list R }.
Record MatModule : Type := { mparams : list param; mcall : mat R -> mat R }.

(** ** The distributions *)

Inductive Dist : Type :=
| CondBernoulliDistribution (log_prob_fcn : VecModule)
| CondGaussianDistribution (mn_f std_f : MatModule)
| CondSpikeSlabDistribution (d : nat) (spike_d slab_d : Dist)
| CondMatrixProductDistribution (dists : list Dist).

Definition msg_kl : string :=
  "KL divergence must be computed between distributions of the same type.".
Definition msg_1d : string := "y must be a 1 dimensional tensor.".
Definition msg_few : string := "not enough values to unpack".
Definition msg_many : string := "too many values to unpack".

(** ** Iteration protocol *)

(** [iter(v)]: a list yields its items, a tensor its slices along dimension 0. *)
Definition py_iter (v : pyval) : result (list pyval) :=
  match v with
  | PNone | PInt _ => Raise TypeError
  | PList l => Ok l
  | PTensor (FT (T0 _)) | PTensor (BT (T0 _)) => Raise TypeError
  | PTensor (FT (T1 l)) => Ok (map (fun a => PTensor (FT (T0 a))) l)
  | PTensor (BT (T1 l)) => Ok (map (fun a => PTensor (BT (T0 a))) l)
  | PTensor (FT (T2 m)) => Ok (map (fun r => PTensor (FT (T1 r))) (mrows m))
  | PTensor (BT (T2 m)) => Ok (map (fun r => PTensor (BT (T1 r))) (mrows m))
  end.

(** [a, b, c = v] *)
Definition unpack3 (v : pyval) : result (pyval * pyval * pyval) :=
  l <- py_iter v ;;
  match l with
  | [a; b; c] => Ok (a, b, c)
  | _ :: _ :: _ :: _ :: _ => Raise (ValueError msg_many)
  | _ => Raise (ValueError msg_few)
  end.

Definition numel_truth {A} (nz : A -> bool) (l : list A) : result bool :=
  match l with
  | [a] => Ok (nz a)
  | _ => Raise RuntimeError
  end.

(** [bool(v)] *)
Definition truthy (v : pyval) : result bool :=
  match v with
  | PNone => Ok false
  | PInt n => Ok (negb (n =? 0)%nat)
  | PList l => Ok (match l with [] => false | _ => true end)
  | PTensor (FT (T0 a)) => Ok (nzR a)
  | PTensor (BT (T0 a)) => Ok (nzB a)
  | PTensor (FT (T1 l)) => numel_truth nzR l
  | PTensor (BT (T1 l)) => numel_truth nzB l
  | PTensor (FT (T2 m)) => numel_truth nzR (concat (mrows m))
  | PTensor (BT (T2 m)) => numel_truth nzB (concat (mrows m))
  end.

Fixpoint any_truthy (l : list pyval) : result bool :=
  match l with
  | [] => Ok false
  | v :: l' => b <- truthy v ;; if b then Ok true else any_truthy l'
  end.

(** The builtin [any(v)]. *)
Definition py_any (v : pyval) : result bool :=
  l <- py_iter v ;; any_truthy l.

(** A value used as the index of dimension 0: only rank 1 masks select
    rows; float tensors and masks of another rank are refused by the tensor
    library; other index forms are outside the model. *)
Definition as_index (v : pyval) : result (list bool) :=
  match v with
  | PTensor (BT (T1 m)) => Ok m
  | PTensor (BT (T0 _)) => Unmodelled
  | PTensor (BT (T2 _)) => Raise IndexError
  | PTensor (FT _) => Raise IndexError
  | PNone | PInt _ | PList _ => Unmodelled
  end.

(** [x[support, :]] on the conditioning data. *)
Definition index_rows (x : mat R) (support : pyval) : result (mat R) :=
  m <- as_index support ;;
  if (length m =? nrows x)%nat then Ok (Mat (ncols x) (mask_select m (mrows x)))
  else Raise IndexError.

(** [t[mask] = vals] on a rank 1 tensor: [vals] is broadcast to the number
    of selected entries. *)
Definition setitem_mask {A} (l : list A) (m : list bool) (vals : list A)
  : result (list A) :=
  if (length m =? length l)%nat then
    let k := count_true m in
    if (length vals =? k)%nat then Ok (mask_assign m l vals)
    else match vals with
         | [v] => Ok (mask_assign m l (repeat v k))
         | _ => Raise RuntimeError
         end
  else Raise IndexError.

(** [torch.cat(ms, dim=1)] on rank 2 tensors of one dtype. *)
Fixpoint cat_rows {A} (n : nat) (ms : list (mat A)) : list (list A) :=
  match ms with
  | [] => repeat [] n
  | m :: ms' => zip_with (@app A) (mrows m) (cat_rows n ms')
  end.

Definition cat_mats {A} (ms : list (mat A)) : result (mat A) :=
  match ms with
  | [] => Raise RuntimeError
  | m :: _ =>
      if forallb (fun m' => (nrows m' =? nrows m)%nat) ms
      then Ok (Mat (list_sum (map (@ncols A) ms)) (cat_rows (nrows m) ms))
      else Raise RuntimeError
  end.

(** [t.view([n, 1])] on a rank 1 tensor. *)
Definition view_col (n : nat) (l : list R) : result (mat R) :=
  if (length l =? n)%nat then Ok (Mat 1 (map (fun a => [a]) l))
  else Raise RuntimeError.

Section ZipM.
Variables (A B C : Type) (f : A -> B -> result C).

(** The list comprehension [[f(a, b) for b, a in zip(lb, la)]]: it stops
    at the shorter list and at the first call that raises. *)
Fixpoint zipM (la : list A) (lb : list B) : result (list C) :=
  match la, lb with
  | a :: la', b :: lb' => c <- f a b ;; cs <- zipM la' lb' ;; Ok (c :: cs)
  | _, _ => Ok []
  end.
End ZipM.

(** ** [log_prob] *)

(** [y == 0] on a rank 1 tensor, [None] for another rank. *)
Definition zero_mask (t : tensor) : option (list bool) :=
  match t with
  | FT (T1 v) => Some (map (fun a => negb (nzR a)) v)
  | BT (T1 v) => Some (map negb v)
  | _ => None
  end.

Definition bernoulli_log_prob (log_prob_fcn : VecModule) (x : mat R) (y : pyval)
  : result (list R) :=
  match y with
  | PTensor t =>
      match zero_mask t with
      | None => Raise (ValueError msg_1d)
      | Some zero_inds =>
          let n_smps := nrows x in
          let log_nz_prob := vcall log_prob_fcn x in
          let log_prob := repeat 0 n_smps in
          v1 <- getitem_mask log_nz_prob (map negb zero_inds) ;;
          log_prob <- setitem_mask log_prob (map negb zero_inds) v1 ;;
          v0 <- getitem_mask log_nz_prob zero_inds ;;
          setitem_mask log_prob zero_inds (map (fun a => ln (1 - exp a)) v0)
      end
  | _ => Raise AttributeError
  end.

(** The first lines of the Gaussian [log_prob]: a rank 1 [y] is unsqueezed,
    then [d_y = y.shape[1]] is read. *)
Definition promote (y : pyval) : result (mat R) :=
  match y with
  | PTensor (FT (T1 v)) => Ok (Mat 1 (map (fun a => [a]) v))
  | PTensor (FT (T2 m)) => Ok m
  | PTensor (FT (T0 _)) | PTensor (BT (T0 _)) => Raise IndexError
  | PTensor (BT _) => Unmodelled
  | _ => Raise AttributeError
  end.

Definition log_2_pi : R := ln (2 * PI).

Definition gaussian_log_prob (mn_f std_f : MatModule) (x : mat R) (y : pyval)
  : result (list R) :=
  let d_x := ncols x in
  y <- promote y ;;
  let d_y := ncols y in
  let mn := mcall mn_f x in
  let std := mcall std_f x in
  t <- bcast2 Rminus y mn ;;
  t <- bcast2 Rdiv t std ;;
  let ll := map (fun r => - (1/2) * tsum (map (fun a => a ^ 2) r)) (mrows t) in
  ll <- inplace1 Rminus ll (map (fun r => tsum (map ln r)) (mrows std)) ;;
  Ok (map (fun a => a - 1/2 * INR d_y * log_2_pi) ll).

Fixpoint log_prob (self : Dist) (x : mat R) (y : pyval) : result (list R) :=
  match self with
  | CondBernoulliDistribution log_prob_fcn => bernoulli_log_prob log_prob_fcn x y
  | CondGaussianDistribution mn_f std_f => gaussian_log_prob mn_f std_f x y
  | CondSpikeSlabDistribution d spike_d slab_d =>
      '(n_smps, support, nz_vls) <- unpack3 y ;;
      ll <- log_prob spike_d x support ;;
      a <- py_any support ;;
      if a then
        m <- as_index support ;;
        cur <- getitem_mask ll m ;;
        xs <- index_rows x support ;;
        sl <- log_prob slab_d xs nz_vls ;;
        new <- inplace1 Rplus cur sl ;;
        setitem_mask ll m new
      else Ok ll
  | CondMatrixProductDistribution dists =>
      let n_rows := nrows x in
      y <- py_iter y ;;
      cols <- zipM (fun d c_s => ll <- log_prob d x c_s ;; view_col n_rows ll)
                   dists y ;;
      entry_ll <- cat_mats cols ;;
      Ok (map tsum (mrows entry_ll))
  end.

(** ** [kl] and the Gaussian [other_kl] *)

(** [type(a) == type(b)] *)
Definition same_type (a b : Dist) : bool :=
  match a, b with
  | CondBernoulliDistribution _, CondBernoulliDistribution _ => true
  | CondGaussianDistribution _ _, CondGaussianDistribution _ _ => true
  | CondSpikeSlabDistribution _ _ _, CondSpikeSlabDistribution _ _ _ => true
  | CondMatrixProductDistribution _, CondMatrixProductDistribution _ => true
  | _, _ => false
  end.

(** The method every variant inherits from the base class. *)
Definition kl (self d_2 : Dist) (x : mat R) (smp : pyval) : result tensor :=
  if negb (same_type d_2 self) then Raise (ValueError msg_kl)
  else
    a <- log_prob self x smp ;;
    b <- log_prob d_2 x smp ;;
    kl <- bcast1 Rminus a b ;;
    Ok (squeeze1 kl).

Definition msq (m : mat R) : mat R :=
  Mat (ncols m) (map (map (fun a => a ^ 2)) (mrows m)).

(** [other_kl] is defined by [CondGaussianDistribution] only. *)
Definition other_kl (self d_2 : Dist) (x : mat R) (smp : pyval) : result tensor :=
  match self with
  | CondGaussianDistribution mn_f1 std_f1 =>
      match d_2 with
      | CondGaussianDistribution mn_f2 std_f2 =>
          let mn_1 := mcall mn_f1 x in
          let std_1 := mcall std_f1 x in
          let mn_2 := mcall mn_f2 x in
          let std_2 := mcall std_f2 x in
          let d := ncols mn_1 in
          let log_det_1 := map (fun r => 2 * tsum (map ln r)) (mrows std_1) in
          let log_det_2 := map (fun r => 2 * tsum (map ln r)) (mrows std_2) in
          log_det_diff <- bcast1 Rminus log_det_2 log_det_1 ;;
          ratio <- bcast2 Rdiv (msq std_1) (msq std_2) ;;
          let sigma_ratio_sum := map tsum (mrows ratio) in
          t <- bcast2 Rminus mn_2 mn_1 ;;
          t <- bcast2 Rdiv t std_2 ;;
          let mn_diff := map tsum (mrows (msq t)) in
          s <- bcast1 Rplus (map (fun v => v - INR d) log_det_diff)
                     sigma_ratio_sum ;;
          s <- bcast1 Rplus s mn_diff ;;
          Ok (squeeze1 (map (fun v => 1/2 * v) s))
      | _ => Raise (ValueError msg_kl)
      end
  | _ => Raise AttributeError
  end.

(** ** [sample]

    The draws of the random number generator are the entries of a fixed
    stream, read in order: uniform variates for the Bernoulli trials,
    standard normal variates for [torch.randn_like]. *)

Record rng : Type := Rng { noise : nat -> R; pos : nat }.

Definition draw (g : rng) (k : nat) : list R * rng :=
  (map (noise g) (seq (pos g) k), Rng (noise g) (pos g + k)).

Fixpoint randn_rows (rows : list (list R)) (g : rng) : list (list R) * rng :=
  match rows with
  | [] => ([], g)
  | r :: rows' =>
      let (z, g) := draw g (length r) in
      let (zs, g) := randn_rows rows' g in
      (z :: zs, g)
  end.

Definition Rleb (a b : R) : bool := if Rle_dec a b then true else false.
Definition Rltb (a b : R) : bool := if Rlt_dec a b then true else false.

(** Probabilities above one are refused by the tensor library, with an
    exception that depends on its version. *)
Definition bernoulli_sample (log_prob_fcn : VecModule) (x : mat R) (g : rng)
  : result (pyval * rng) :=
  let probs := map exp (vcall log_prob_fcn x) in
  if forallb (fun p => Rleb p 1) probs then
    let (u, g) := draw g (length probs) in
    Ok (PTensor (BT (T1 (zip_with Rltb u probs))), g)
  else Unmodelled.

Definition gaussian_sample (mn_f std_f : MatModule) (x : mat R) (g : rng)
  : result (pyval * rng) :=
  let mn := mcall mn_f x in
  let std := mcall std_f x in
  let (z, g) := randn_rows (mrows std) g in
  y <- bcast2 Rplus mn (Mat (ncols std) (zip_with (zip_with Rmult) z (mrows std))) ;;
  Ok (PTensor (FT (T2 y)), g).

Section MapSt.
Variables (A S C : Type) (f : A -> S -> result (C * S)).

(** [[f(a) for a in la]] with the state threaded through the calls. *)
Fixpoint mapM_st (la : list A) (s : S) : result (list C * S) :=
  match la with
  | [] => Ok ([], s)
  | a :: la' =>
      '(c, s) <- f a s ;;
      '(cs, s) <- mapM_st la' s ;;
      Ok (c :: cs, s)
  end.
End MapSt.

(** ** [form_standard_sample] *)

Definition zeros2 (n d : nat) : mat R := Mat d (repeat (repeat 0 d) n).

(** A value used as a size of [torch.zeros]. *)
Definition as_count (v : pyval) : result nat :=
  match v with
  | PInt n => Ok n
  | PTensor _ => Unmodelled
  | PNone | PList _ => Raise TypeError
  end.

(** The value of [t[mask, :] = vals] is broadcast to [k] rows of [d] entries. *)
Definition broadcast_to (k d : nat) (m : mat R) : result (list (list R)) :=
  if (((nrows m =? k) || (nrows m =? 1)) && ((ncols m =? d) || (ncols m =? 1)))%nat
  then Ok (map (expand d) (expand k (mrows m)))
  else Raise RuntimeError.

Definition spike_slab_form_standard_sample (d : nat) (smp : pyval) : result pyval :=
  '(n_smps, support, nz_vls) <- unpack3 smp ;;
  match nz_vls with
  | PNone =>
      n <- as_count n_smps ;;
      Ok (PTensor (FT (T2 (zeros2 n d))))
  | PTensor t =>
      if (1 <? trank t)%nat then
        n <- as_count n_smps ;;
        let formed_smp := zeros2 n d in
        m <- as_index support ;;
        if (length m =? n)%nat then
          match t with
          | FT (T2 v) =>
              vals <- broadcast_to (count_true m) d v ;;
              Ok (PTensor (FT (T2 (Mat d (mask_assign m (mrows formed_smp) vals)))))
          | _ => Unmodelled
          end
        else Raise IndexError
      else
        n <- as_count n_smps ;;
        let formed_smp := repeat 0 n in
        m <- as_index support ;;
        match t with
        | FT (T1 v) =>
            r <- setitem_mask formed_smp m v ;; Ok (PTensor (FT (T1 r)))
        | FT (T0 a) =>
            r <- setitem_mask formed_smp m [a] ;; Ok (PTensor (FT (T1 r)))
        | _ => Unmodelled
        end
  | PInt _ | PList _ => Raise AttributeError
  end.

Fixpoint all_tensors (l : list pyval) : result (list tensor) :=
  match l with
  | [] => Ok []
  | PTensor t :: l' => ts <- all_tensors l' ;; Ok (t :: ts)
  | _ :: _ => Raise TypeError
  end.

Fixpoint floats2 (ts : list tensor) : option (list (mat R)) :=
  match ts with
  | [] => Some []
  | FT (T2 m) :: ts' => option_map (cons m) (floats2 ts')
  | _ :: _ => None
  end.

Fixpoint masks2 (ts : list tensor) : option (list (mat bool)) :=
  match ts with
  | [] => Some []
  | BT (T2 m) :: ts' => option_map (cons m) (masks2 ts')
  | _ :: _ => None
  end.

Definition is_empty_vec (t : tensor) : bool :=
  match t with
  | FT (T1 []) | BT (T1 []) => true
  | _ => false
  end.

(** [torch.cat(l, dim=1)] on a Python list. Tensors of shape [[0]] are
    skipped by some versions of the library, and tensors of different
    dtypes are promoted by some: both are left out of the model. *)
Definition cat1 (l : list pyval) : result pyval :=
  ts <- all_tensors l ;;
  if existsb is_empty_vec ts then Unmodelled
  else if existsb (fun t => (trank t =? 0)%nat) ts then Raise RuntimeError
  else
    match ts with
    | [] => Raise RuntimeError
    | t :: _ =>
        if (trank t =? 1)%nat then Raise IndexError
        else if forallb (fun t' => (trank t' =? 2)%nat) ts then
          match floats2 ts, masks2 ts with
          | Some ms, _ => m <- cat_mats ms ;; Ok (PTensor (FT (T2 m)))
          | None, Some ms => m <- cat_mats ms ;; Ok (PTensor (BT (T2 m)))
          | None, None => Unmodelled
          end
        else Raise RuntimeError
    end.

Fixpoint form_standard_sample (self : Dist) (smp : pyval) : result pyval :=
  match self with
  | CondBernoulliDistribution _ => Ok smp
  | CondGaussianDistribution _ _ => Ok smp
  | CondSpikeSlabDistribution d _ _ => spike_slab_form_standard_sample d smp
  | CondMatrixProductDistribution dists =>
      smp <- py_iter smp ;;
      l <- zipM (fun d s => form_standard_sample d s) dists smp ;;
      cat1 l
  end.

Fixpoint sample (self : Dist) (x : mat R) (g : rng) : result (pyval * rng) :=
  match self with
  | CondBernoulliDistribution log_prob_fcn => bernoulli_sample log_prob_fcn x g
  | CondGaussianDistribution mn_f std_f => gaussian_sample mn_f std_f x g
  | CondSpikeSlabDistribution d spike_d slab_d =>
      let n_smps := nrows x in
      '(s, g) <- sample spike_d x g ;;
      support <- form_standard_sample spike_d s ;;
      a <- py_any support ;;
      if a then
        xs <- index_rows x support ;;
        '(nz_vls, g) <- sample slab_d xs g ;;
        Ok (PList [PInt n_smps; support; nz_vls], g)
      else Ok (PList [PInt n_smps; support; PNone], g)
  | CondMatrixProductDistribution dists =>
      '(l, g) <- mapM_st (fun d g => sample d x g) dists g ;;
      Ok (PList l, g)
  end.

(** ** [form_compact_sample] *)

Definition nz_shaped {A} (nz : A -> bool) (t : shaped A) : shaped bool :=
  match t with
  | T0 a => T0 (nz a)
  | T1 v => T1 (map nz v)
  | T2 m => T2 (Mat (ncols m) (map (map nz) (mrows m)))
  end.

(** [smp != 0] *)
Definition nz_mask (t : tensor) : shaped bool :=
  match t with
  | FT s => nz_shaped nzR s
  | BT s => nz_shaped nzB s
  end.

(** [smp.shape[0]] *)
Definition shape0 (t : tensor) : result nat :=
  match t with
  | FT (T0 _) | BT (T0 _) => Raise IndexError
  | FT (T1 v) => Ok (length v)
  | BT (T1 v) => Ok (length v)
  | FT (T2 m) => Ok (nrows m)
  | BT (T2 m) => Ok (nrows m)
  end.

Definition select_rows {A} (m : list bool) (x : mat A) : result (mat A) :=
  if (length m =? nrows x)%nat then Ok (Mat (ncols x) (mask_select m (mrows x)))
  else Raise IndexError.

(** [smp[support, :]] where [support] is a mask. *)
Definition getitem_rows (t : tensor) (support : shaped bool) : result tensor :=
  match support, t with
  | T1 m, FT (T2 x) => r <- select_rows m x ;; Ok (FT (T2 r))
  | T1 m, BT (T2 x) => r <- select_rows m x ;; Ok (BT (T2 r))
  | _, _ => Raise IndexError
  end.

Definition spike_slab_form_compact_sample (d : nat) (smp : pyval) : result pyval :=
  match smp with
  | PTensor t =>
      n_smps <- shape0 t ;;
      support <- (if (1 <? d)%nat then
                    match nz_mask t with
                    | T2 m => Ok (T1 (map (fun r => (count_true r =? d)%nat) (mrows m)))
                    | _ => Raise IndexError
                    end
                  else Ok (nz_mask t)) ;;
      a <- py_any (PTensor (BT support)) ;;
      if a then
        nz_vls <- getitem_rows t support ;;
        Ok (PList [PInt n_smps; PTensor (BT support); PTensor nz_vls])
      else Ok (PList [PInt n_smps; PTensor (BT support); PNone])
  | _ => Raise AttributeError
  end.

(** [[smp[:, c_i].view([n_rows, 1]) for c_i in range(n_cols)]] *)
Definition col_smps {A} (dflt : A) (m : mat A) : list (mat A) :=
  map (fun c_i => Mat 1 (map (fun r => [nth c_i r dflt]) (mrows m)))
      (seq 0 (ncols m)).

Definition form_compact_sample (self : Dist) (smp : pyval) : result pyval :=
  match self with
  | CondBernoulliDistribution _ => Ok smp
  | CondGaussianDistribution _ _ => Ok smp
  | CondSpikeSlabDistribution d _ _ => spike_slab_form_compact_sample d smp
  | CondMatrixProductDistribution dists =>
      match smp with
      | PTensor (FT (T2 m)) =>
          l <- zipM (fun d c_s => form_standard_sample d c_s) dists
                    (map (fun c => PTensor (FT (T2 c))) (col_smps 0 m)) ;;
          Ok (PList l)
      | PTensor (BT (T2 m)) =>
          l <- zipM (fun d c_s => form_standard_sample d c_s) dists
                    (map (fun c => PTensor (BT (T2 c))) (col_smps false m)) ;;
          Ok (PList l)
      | PTensor _ => Raise (ValueError msg_few)
      | _ => Raise AttributeError
      end
  end.

(** ** Trainable parameters *)

(** [list(module.parameters())] lists each parameter once, at its first
    occurrence. *)
Fixpoint dedup (l : list param) : list param :=
  match l with
  | [] => []
  | p :: l' => p :: filter (fun q => negb (q =? p)%nat) (dedup l')
  end.

Fixpoint parameters (self : Dist) : list param :=
  match self with
  | CondBernoulliDistribution log_prob_fcn => dedup (vparams log_prob_fcn)
  | CondGaussianDistribution mn_f std_f => dedup (mparams mn_f ++ mparams std_f)
  | CondSpikeSlabDistribution _ spike_d slab_d =>
      dedup (parameters spike_d ++ parameters slab_d)
  | CondMatrixProductDistribution dists => dedup (concat (map parameters dists))
  end.

Fixpoint r_params (self : Dist) : list param :=
  match self with
  | CondBernoulliDistribution _ => []
  | CondGaussianDistribution _ _ => parameters self
  | CondSpikeSlabDistribution _ _ slab_d => r_params slab_d
  | CondMatrixProductDistribution _ => parameters self
  end.

Fixpoint s_params (self : Dist) : list param :=
  match self with
  | CondBernoulliDistribution _ => parameters self
  | CondGaussianDistribution _ _ => []
  | CondSpikeSlabDistribution _ spike_d _ => s_params spike_d
  | CondMatrixProductDistribution _ => []
  end.

(** * Definitions used by the statements *)

Unset Implicit Arguments.

(** ** Entries, sums and shapes *)

(** Entry [j] of row [i] of a rank 2 tensor. *)
Definition entry (m : mat R) (i j : nat) : R := nth j (nth i (mrows m) []) 0.

(** The sum of [f j] over the indices [j < d]. *)
Definition Sigma (d : nat) (f : nat -> R) : R := tsum (map f (seq 0 d)).

(** A scale tensor, as the modules are required to return it. *)
Definition positive (m : mat R) : Prop :=
  forall i j, (i < nrows m)%nat -> (j < ncols m)%nat -> 0 < entry m i j.

(** A 0/1 tensor of length n, given by its bits, as a float tensor or as a
    mask. *)
Definition bits_float (y : list bool) : tensor :=
  FT (T1 (map (fun b : bool => if b then 1 else 0) y)).
Definition bits_mask (y : list bool) : tensor := BT (T1 y).

(** The position of row [i] among the selected rows of a mask. *)
Definition rank_in (m : list bool) (i : nat) : nat := count_true (firstn i m).

(** ** The formulas of the specification *)

(** The diagonal Gaussian log density of row [i], as the specification
    writes it. *)
Definition gaussian_density (y mn std : mat R) (d_y i : nat) : R :=
  - (1/2) * Sigma d_y (fun j => ((entry y i j - entry mn i j) / entry std i j) ^ 2)
  - Sigma d_y (fun j => ln (entry std i j))
  - INR d_y / 2 * ln (2 * PI).

(** The closed form between two diagonal Gaussians at row [i], as the
    specification writes it. *)
Definition analytic_kl (mn1 std1 mn2 std2 : mat R) (d i : nat) : R :=
  1/2 * (Sigma d (fun j => ln (entry std2 i j ^ 2 / entry std1 i j ^ 2))
         - INR d
         + Sigma d (fun j => entry std1 i j ^ 2 / entry std2 i j ^ 2)
         + Sigma d (fun j => ((entry mn2 i j - entry mn1 i j) / entry std2 i j) ^ 2)).

(** ** Round trips *)

(** The Bernoulli and the Gaussian distributions. *)
Definition is_leaf (D : Dist) : bool :=
  match D with
  | CondBernoulliDistribution _ | CondGaussianDistribution _ _ => true
  | _ => false
  end.

(** [form_standard_sample(form_compact_sample(s))] *)
Definition round_trip (D : Dist) (s : pyval) : result pyval :=
  c <- form_compact_sample D s ;; form_standard_sample D c.

(** A row of a standard sample that is entirely zero or has no zero. *)
Definition uniform_row (r : list R) : Prop :=
  Forall (fun a => a = 0) r \/ Forall (fun a => a <> 0) r.

(** The support [form_compact_sample] infers for a row when [d > 1]. *)
Definition active (d : nat) (r : list R) : bool :=
  (count_true (map nzR r) =? d)%nat.

(** ** Errors *)

(** A call that does not raise the family mismatch error. *)
Definition no_mismatch {A} (r : result A) : Prop := r <> Raise (ValueError msg_kl).

Section DistInduction.
Variable P : Dist -> Prop.
Hypothesis HB : forall f, P (CondBernoulliDistribution f).
Hypothesis HG : forall m s, P (CondGaussianDistribution m s).
Hypothesis HS : forall d a b, P a -> P b -> P (CondSpikeSlabDistribution d a b).
Hypothesis HM : forall ds, Forall P ds -> P (CondMatrixProductDistribution ds).

(** Induction on a distribution and on the columns of a matrix product. *)
Fixpoint Dist_nested_ind (d : Dist) : P d :=
  match d with
  | CondBernoulliDistribution f => HB f
  | CondGaussianDistribution m s => HG m s
  | CondSpikeSlabDistribution k a b =>
      HS k a b (Dist_nested_ind a) (Dist_nested_ind b)
  | CondMatrixProductDistribution ds =>
      HM ds ((fix go (l : list Dist) : Forall P l :=
                match l with
                | [] => Forall_nil P
                | a :: l' => Forall_cons a (Dist_nested_ind a) (go l')
                end) ds)
  end.
End DistInduction.

(** ** Concrete modules, distributions and inputs *)

(** A module returning the same row for every row of its input. *)
Definition const_mat (ps : list param) (row : list R) : MatModule :=
  {| mparams := ps;
     mcall := fun x => Mat (length row) (map (fun _ => row) (mrows x)) |}.

(** A module returning the same log probability for every row. *)
Definition const_vec (ps : list param) (v : R) : VecModule :=
  {| vparams := ps; vcall := fun x => map (fun _ => v) (mrows x) |}.

(** N(0, 1) and N(1, 1) over one variable. *)
Definition std_normal : Dist :=
  CondGaussianDistribution (const_mat [] [0]) (const_mat [] [1]).

(** Bernoulli distributions with P(y = 1) = 1/2 and P(y = 1) = 1, and a
    gate function with one trainable parameter. *)
Definition coin : Dist := CondBernoulliDistribution (const_vec [] (ln (1/2))).
Definition sure : VecModule := const_vec [] 0.
Definition gate_fcn : VecModule := const_vec [7%nat] (ln (1/2)).

(** A spike and slab distribution over two variables, with slab N((1, 0), 1). *)
Definition slab2 : Dist :=
  CondGaussianDistribution (const_mat [] [1; 0]) (const_mat [] [1; 1]).
Definition spike_slab2 : Dist :=
  CondSpikeSlabDistribution 2 (CondBernoulliDistribution sure) slab2.

(** Conditioning data with one and with two rows, and samples. *)
Definition x1 : mat R := Mat 1 [[0]].
Definition x2 : mat R := Mat 1 [[0]; [0]].
Definition at_zero : pyval := PTensor (FT (T2 (Mat 1 [[0]]))).
Definition at_one : pyval := PTensor (FT (T2 (Mat 1 [[1]]))).
Definition one_zero : pyval := PTensor (FT (T2 (Mat 2 [[1; 0]]))).

(** Generators whose draws are all 0 and all 3/4. *)
Definition quiet : rng := Rng (fun _ => 0) 0.
Definition high : rng := Rng (fun _ => 3/4) 0.

(** * The remaining methods of the distributions *)

Section MapM.
Variables (A C : Type) (f : A -> result C).

(** The list comprehension [[f(a) for a in la]]: it stops at the first call
    that raises. *)
Fixpoint mapM (la : list A) : result (list C) :=
  match la with
  | [] => Ok []
  | a :: la' => c <- f a ;; cs <- mapM la' ;; Ok (c :: cs)
  end.
End MapM.

Arguments mapM {A C} f la.

(** [spike_p * slab_mn] where [spike_p] has the shape [n, 1]. *)
Definition mul_column (spike_p : mat R) (slab_mn : tensor) : result tensor :=
  match slab_mn with
  | FT (T2 m) => r <- bcast2 Rmult spike_p m ;; Ok (FT (T2 r))
  | FT (T1 v) => r <- bcast2 Rmult spike_p (Mat (length v) [v]) ;; Ok (FT (T2 r))
  | FT (T0 a) => Ok (FT (T2 (Mat 1 (map (map (fun p => p * a)) (mrows spike_p)))))
  | BT _ => Unmodelled
  end.

(** [torch.cat(l, dim=1)] on a list of tensors. *)
Definition cat1_tensors (l : list tensor) : result tensor :=
  r <- cat1 (map PTensor l) ;;
  match r with
  | PTensor t => Ok t
  | _ => Unmodelled
  end.

(** ** [forward] *)

Fixpoint forward (self : Dist) (x : mat R) : result tensor :=
  match self with
  | CondBernoulliDistribution log_prob_fcn =>
      let nz_prob := map exp (vcall log_prob_fcn x) in
      Ok (FT (T1 nz_prob))
  | CondGaussianDistribution mn_f _ => Ok (FT (T2 (mcall mn_f x)))
  | CondSpikeSlabDistribution _ spike_d slab_d =>
      let n_smps := nrows x in
      ll <- log_prob spike_d x (PTensor (FT (T1 (repeat 1 n_smps)))) ;;
      let spike_p := Mat 1 (map (fun a => [exp a]) ll) in
      slab_mn <- forward slab_d x ;;
      mul_column spike_p slab_mn
  | CondMatrixProductDistribution dists =>
      l <- mapM (fun d => forward d x) dists ;;
      cat1_tensors l
  end.

(** ** Contracts of the modules and the draws of a sample *)

(** Draw [j] of row [i] of [torch.randn_like] on a tensor with [d] columns. *)
Definition normal_draw (g : rng) (d i j : nat) : R := noise g (pos g + i * d + j).

(** The compact sample [sample] builds from a support mask and the rows of
    the active samples: [nz_vls] is [None] when no sample is active. *)
Definition compact_of (m : list bool) (d : nat) (vals : list (list R)) : pyval :=
  PList [PInt (length m); PTensor (BT (T1 m));
         if (count_true m =? 0)%nat then PNone
         else PTensor (FT (T2 (Mat d vals)))].

(** A row of [d] entries, none of them zero. *)
Definition nonzero_row (d : nat) (r : list R) : Prop :=
  length r = d /\ Forall (fun a => a <> 0) r.

(** The Gaussian columns of a matrix product, given by their mean and scale
    modules. *)
Definition gaussian_columns (cols : list (MatModule * MatModule)) : list Dist :=
  map (fun c => CondGaussianDistribution (fst c) (snd c)) cols.

(** The spike and slab distributions the source is written for: a
    Bernoulli spike and a Gaussian slab. *)
Definition is_standard (D : Dist) : bool :=
  match D with
  | CondBernoulliDistribution _ | CondGaussianDistribution _ _ => true
  | CondSpikeSlabDistribution _ (CondBernoulliDistribution _)
                              (CondGaussianDistribution _ _) => true
  | _ => false
  end.

(** A Gaussian column whose mean and scale tensors have the rows of [x] and
    one number of columns. *)
Definition well_shaped (x : mat R) (c : MatModule * MatModule) : Prop :=
  has_shape (mcall (fst c) x) (nrows x) (ncols (mcall (fst c) x)) /\
  has_shape (mcall (snd c) x) (nrows x) (ncols (mcall (fst c) x)).

Definition normal_columns : list (MatModule * MatModule) :=
  [(const_mat [] [1; 0], const_mat [] [1; 1]); (const_mat [] [0], const_mat [] [1])].

(** * The modules of [extra_torch_modules.py]

    These are the functions the conditional distributions are built from.
    A NumPy array or a tensor with one dimension is a list of reals; an
    array with no dimension is the list of its one entry, with which it
    broadcasts alike in the operations below. *)

(** [np.arctanh]: outside (-1, 1) NumPy returns an infinity or nan. *)
Definition arctanh (u : R) : result R :=
  if Rltb (-1) u && Rltb u 1 then Ok (/ 2 * ln ((1 + u) / (1 - u))) else Unmodelled.

(** Element-wise operation on two NumPy arrays with one dimension; shapes
    that do not broadcast are not modelled. *)
Definition np_bcast1 (f : R -> R -> R) (a b : list R) : result (list R) :=
  match bdim (length a) (length b) with
  | Some r => Ok (zip_with f (expand r a) (expand r b))
  | None => Unmodelled
  end.

(** Element-wise [a / b] of NumPy: a zero divisor gives an infinity or nan. *)
Definition np_div (a b : list R) : result (list R) :=
  if forallb nzR b then np_bcast1 Rdiv a b else Unmodelled.

(** [t.unsqueeze(0).expand(n_smps, n_dims)] on a tensor with one dimension. *)
Definition unsqueeze_expand (n_smps n_dims : nat) (vl : list R) : result (mat R) :=
  rows <- broadcast_to n_smps n_dims (Mat (length vl) [vl]) ;;
  Ok (Mat n_dims rows).

(** [m.t()] *)
Definition transpose (m : mat R) : mat R :=
  Mat (nrows m) (map (fun j => map (fun r => nth j r 0) (mrows m)) (seq 0 (ncols m))).

(** [torch.zeros(1)] *)
Definition place_holder_input : tensor := FT (T1 [0]).

(** An argument or its default. *)
Definition or_default (a : option R) (d : R) : R :=
  match a with Some a => a | None => d end.

Module ConstantBoundedFcn.

Record t : Type :=
  { n_dims : nat; lower_bound : list R; upper_bound : list R; v : list R }.

Definition init (lower_bound upper_bound : list R) (init_value : option (list R))
  : result t :=
  let n_dims := length lower_bound in
  init_value <- match init_value with
                | None =>
                    s <- np_bcast1 Rplus lower_bound upper_bound ;;
                    Ok (map (fun a => 0.5 * a) s)
                | Some i => Ok i
                end ;;
  num <- np_bcast1 Rminus init_value lower_bound ;;
  den <- np_bcast1 Rminus upper_bound lower_bound ;;
  q <- np_div (map (fun a => 2 * a) num) den ;;
  init_v <- mapM arctanh (map (fun a => a - 1) q) ;;
  Ok {| n_dims := n_dims; lower_bound := lower_bound; upper_bound := upper_bound;
        v := init_v |}.

Definition forward (self : t) (x : tensor) : result (mat R) :=
  n_smps <- shape0 x ;;
  d <- bcast1 Rminus (upper_bound self) (lower_bound self) ;;
  s <- bcast1 Rmult (map (fun a => 0.5 * tanh a + 0.5) (v self)) d ;;
  vl <- bcast1 Rplus s (lower_bound self) ;;
  unsqueeze_expand n_smps (n_dims self) vl.

End ConstantBoundedFcn.

Module ConstantRealFcn.

Record t : Type := { n_dims : nat; vl : list R }.

Definition init (init_vl : list R) : t :=
  {| n_dims := length init_vl; vl := init_vl |}.

Definition forward (self : t) (x : tensor) : result (mat R) :=
  n_smps <- shape0 x ;;
  unsqueeze_expand n_smps (n_dims self) (vl self).

End ConstantRealFcn.

Module IndSmpConstantBoundedFcn.

Record t : Type := { n : nat; f : ConstantBoundedFcn.t }.

Definition msg : string :=
  " Number of input samples does not match number of output values.".

(** The arguments left out take the defaults -1.0, 1.0 and .05. *)
Definition init (n : nat) (lower_bound upper_bound init_value : option R) : result t :=
  let lower_bound := or_default lower_bound (-1) in
  let upper_bound := or_default upper_bound 1 in
  let init_value := or_default init_value 0.05 in
  let l_bounds := map (fun o => lower_bound * o) (repeat 1 n) in
  let u_bounds := map (fun o => upper_bound * o) (repeat 1 n) in
  let init_vls := map (fun o => init_value * o) (repeat 1 n) in
  f <- ConstantBoundedFcn.init l_bounds u_bounds (Some init_vls) ;;
  Ok {| n := n; f := f |}.

Definition forward (self : t) (x : tensor) : result (mat R) :=
  n_x <- shape0 x ;;
  if negb (n self =? n_x)%nat then Raise (ValueError msg)
  else
    y <- ConstantBoundedFcn.forward (f self) place_holder_input ;;
    Ok (transpose y).

End IndSmpConstantBoundedFcn.

Module IndSmpConstantRealFcn.

Record t : Type := { n : nat; f : ConstantRealFcn.t }.

Definition msg : string :=
  "Number of input samples does not match number of output samples.".

(** The argument [init_value], .01 when left out, is not used. *)
Definition init (n : nat) (init_value : option R) : t :=
  {| n := n; f := ConstantRealFcn.init (map (fun o => 0.01 * o) (repeat 1 n)) |}.

Definition forward (self : t) (x : tensor) : result (mat R) :=
  n_x <- shape0 x ;;
  if negb (n self =? n_x)%nat then Raise (ValueError msg)
  else
    y <- ConstantRealFcn.forward (f self) place_holder_input ;;
    Ok (transpose y).

End IndSmpConstantRealFcn.

Module Relu.

Record t : Type := { o : list R; s : list R }.

(** [torch.nn.functional.relu] on one entry. *)
Definition relu (a : R) : R := Rmax a 0.

Definition forward (self : t) (x : mat R) : result (mat R) :=
  z <- bcast2 Rplus x (Mat (length (s self)) [s self]) ;;
  bcast2 Rplus (Mat (ncols z) (map (map relu) (mrows z)))
               (Mat (length (o self)) [o self]).

End Relu.

Module LogGaussianBumpFcn.

Record t : Type :=
  { ctr : list R;
    ctr_stds : ConstantBoundedFcn.t;
    log_gain_vl : ConstantBoundedFcn.t }.

(** [torch.nn.init.uniform_(self.ctr, ctr_range[0], ctr_range[1])] reads
    [d_x] uniform variates of the generator. Every argument is given; the
    upper bound of the standard deviations is an array with no dimension. *)
Definition init (d_x : nat) (ctr_std_lb ctr_std_ub ctr_std_init : R)
    (log_gain_lb log_gain_ub log_gain_init : R) (ctr_range : R * R) (g : rng)
  : result (t * rng) :=
  let (u, g) := draw g d_x in
  let ctr := map (fun a => fst ctr_range + (snd ctr_range - fst ctr_range) * a) u in
  ctr_stds <- ConstantBoundedFcn.init [ctr_std_lb] [ctr_std_ub] (Some [ctr_std_init]) ;;
  log_gain_vl <- ConstantBoundedFcn.init [log_gain_lb] [log_gain_ub]
                   (Some [log_gain_init]) ;;
  Ok ({| ctr := ctr; ctr_stds := ctr_stds; log_gain_vl := log_gain_vl |}, g).

(** [f(place_holder_input).squeeze()]: the one row of the output. *)
Definition squeezed (f : ConstantBoundedFcn.t) : result (list R) :=
  y <- ConstantBoundedFcn.forward f place_holder_input ;;
  match mrows y with
  | [r] => Ok r
  | _ => Unmodelled
  end.

(** [a / b] of two tensors: a zero divisor gives an infinity or nan. *)
Definition div2 (a : mat R) (b : list R) : result (mat R) :=
  if forallb nzR b then bcast2 Rdiv a (Mat (length b) [b]) else Unmodelled.

Definition div1 (a b : list R) : result (list R) :=
  if forallb nzR b then bcast1 Rdiv a b else Unmodelled.

Definition forward (self : t) (x : shaped R) : result (list R) :=
  ctr_stds <- squeezed (ctr_stds self) ;;
  log_gain <- squeezed (log_gain_vl self) ;;
  match x with
  | T2 x =>
      x_ctr <- bcast2 Rminus x (Mat (length (ctr self)) [ctr self]) ;;
      x_ctr_scaled <- div2 x_ctr ctr_stds ;;
      let x_dist := map (fun r => tsum (map (fun a => a ^ 2) r)) (mrows x_ctr_scaled) in
      bcast1 Rplus log_gain (map (fun a => -1 * a) x_dist)
  | T1 x =>
      x_ctr <- bcast1 Rminus x (ctr self) ;;
      x_ctr_scaled <- div1 x_ctr ctr_stds ;;
      let x_dist := map (fun a => a ^ 2) x_ctr_scaled in
      bcast1 Rplus log_gain (map (fun a => -1 * a) x_dist)
  | T0 _ => Unmodelled
  end.

End LogGaussianBumpFcn.

(** [torch.nn.Linear]: the weight has the shape [out_features, in_features]. *)
Module Linear.

Record t : Type :=
  { in_features : nat; out_features : nat;
    weight : nat -> nat -> R; bias : option (nat -> R) }.

Definition forward (self : t) (x : mat R) : result (mat R) :=
  if (ncols x =? in_features self)%nat then
    Ok (Mat (out_features self)
          (map (fun r =>
                  map (fun o =>
                         Sigma (in_features self) (fun k => nth k r 0 * weight self o k)
                         + match bias self with Some b => b o | None => 0 end)
                      (seq 0 (out_features self)))
               (mrows x)))
  else Raise RuntimeError.

End Linear.

Module DenseLayer.

Record t : Type := { m : mat R -> result (mat R) }.

Definition forward (self : t) (x : mat R) : result (mat R) :=
  y <- m self x ;;
  cat_mats [x; y].

End DenseLayer.

Module DenseLNLNet.

Record t : Type := { modules : list DenseLayer.t }.

(** [nl_class i] is the activation function made for layer [i]; [w] and [b]
    are the weights and biases the linear layers are initialized with. *)
Definition init (nl_class : nat -> mat R -> result (mat R))
    (d_in n_layers growth_rate : nat) (bias : bool)
    (w : nat -> nat -> nat -> R) (b : nat -> nat -> R) : t :=
  {| modules :=
       map (fun i =>
              let linear_layer :=
                {| Linear.in_features := d_in + i * growth_rate;
                   Linear.out_features := growth_rate;
                   Linear.weight := w i;
                   Linear.bias := if bias then Some (b i) else None |} in
              {| DenseLayer.m := fun x =>
                                   y <- Linear.forward linear_layer x ;;
                                   nl_class i y |})
           (seq 0 n_layers) |}.

Definition forward (self : t) (x : mat R) : result (mat R) :=
  fold_left (fun x module => x <- x ;; DenseLayer.forward module x)
            (modules self) (Ok x).

End DenseLNLNet.

(** The value a bounded constant function is initialized to: [init_value],
    or the point halfway between the bounds. *)
Definition initial_value (lower_bound upper_bound : list R)
    (init_value : option (list R)) : list R :=
  match init_value with
  | Some i => i
  | None => zip_with (fun l u => 0.5 * (l + u)) lower_bound upper_bound
  end.

(** A module that keeps the shape of its input, as the activation functions
    of the tensor library do. *)
Definition keeps_shape (f : mat R -> result (mat R)) : Prop :=
  forall y n d, has_shape y n d -> exists z, f y = Ok z /\ has_shape z n d.

(** A module of this file used as the mean or the scale of a Gaussian
    distribution, which calls it on the conditioning input; the
    distributions are modelled for modules that return a tensor. *)
Definition module_of (ps : list param) (f : tensor -> result (mat R)) : MatModule :=
  {| mparams := ps;
     mcall := fun x => match f (FT (T2 x)) with
                       | Ok y => y
                       | _ => Mat 0 []
                       end |}.


(** * Properties *)

(** ** Lists *)

Lemma length_zip_with {A B C} (f : A -> B -> C) la lb :
  length lb = length la -> length (zip_with f la lb) = length la.
Proof.
  revert lb; induction la as [|a la IH]; intros [|b lb]; simpl; intros H;
    try discriminate; auto.
Qed.

Lemma nth_zip_with {A B C} (f : A -> B -> C) la lb i da db dc :
  (i < length la)%nat -> (i < length lb)%nat ->
  nth i (zip_with f la lb) dc = f (nth i la da) (nth i lb db).
Proof.
  revert lb i; induction la as [|a la IH]; intros [|b lb] [|i]; simpl; intros;
    try lia; auto.
  apply IH; lia.
Qed.

Lemma nth_map_in {A B} (f : A -> B) l i da db :
  (i < length l)%nat -> nth i (map f l) db = f (nth i l da).
Proof.
  revert i; induction l as [|a l IH]; intros [|i]; simpl; intros; try lia; auto.
  apply IH; lia.
Qed.

Lemma expand_same {A} n (l : list A) : length l = n -> expand n l = l.
Proof. intros H; unfold expand; rewrite H, Nat.eqb_refl; reflexivity. Qed.

Lemma bdim_same n : bdim n n = Some n.
Proof. unfold bdim; rewrite Nat.eqb_refl; reflexivity. Qed.

Lemma zip_rows_expand (f : R -> R -> R) d (ra rb : list (list R)) :
  Forall (fun r => length r = d) ra -> Forall (fun r => length r = d) rb ->
  zip_with (fun a b => zip_with f (expand d a) (expand d b)) ra rb
  = zip_with (zip_with f) ra rb.
Proof.
  intros Ha; revert rb; induction Ha as [|a ra Ha _ IH]; intros rb Hb; simpl; auto.
  destruct Hb as [|b rb Hb Hbs]; auto.
  rewrite (expand_same _ _ Ha), (expand_same _ _ Hb), IH; auto.
Qed.

Lemma bcast2_same (f : R -> R -> R) (a b : mat R) n d :
  has_shape a n d -> has_shape b n d ->
  bcast2 f a b = Ok (Mat d (zip_with (zip_with f) (mrows a) (mrows b))).
Proof.
  intros (Ha1 & Ha2 & Ha3) (Hb1 & Hb2 & Hb3); unfold bcast2, nrows.
  rewrite Ha1, Hb1, Ha2, Hb2, !bdim_same.
  rewrite !expand_same by assumption.
  rewrite zip_rows_expand; auto.
Qed.

Lemma has_shape_zip (f : R -> R -> R) (a b : mat R) n d :
  has_shape a n d -> has_shape b n d ->
  has_shape (Mat d (zip_with (zip_with f) (mrows a) (mrows b))) n d.
Proof.
  intros (_ & Ha2 & Ha3) (_ & Hb2 & Hb3); repeat split; simpl.
  - rewrite length_zip_with; congruence.
  - clear Ha2 Hb2. revert Hb3. generalize (mrows b).
    induction Ha3 as [|ra la Hra _ IH]; intros lb Hb; simpl; auto.
    destruct Hb as [|rb lb Hrb Hlb]; constructor; auto.
    rewrite length_zip_with; congruence.
Qed.

(** ** Sums *)

Lemma list_as_nth {A} (l : list A) (dflt : A) :
  l = map (fun j => nth j l dflt) (seq 0 (length l)).
Proof.
  induction l as [|a l IH]; simpl; auto.
  f_equal. rewrite <- seq_shift, map_map. exact IH.
Qed.

Lemma Sigma_ext d f g :
  (forall j, (j < d)%nat -> f j = g j) -> Sigma d f = Sigma d g.
Proof.
  intros H; unfold Sigma; f_equal. apply map_ext_in.
  intros j Hj; apply in_seq in Hj; apply H; lia.
Qed.

Lemma tsum_Sigma (l : list R) : tsum l = Sigma (length l) (fun j => nth j l 0).
Proof. unfold Sigma. rewrite <- list_as_nth. reflexivity. Qed.

(** ** The Gaussian log density *)

Lemma row_length (m : mat R) n d i :
  has_shape m n d -> (i < n)%nat -> length (nth i (mrows m) []) = d.
Proof.
  intros (_ & Hn & Hf) Hi. rewrite Forall_forall in Hf.
  apply Hf, nth_In. lia.
Qed.

Lemma tsum_map_Sigma (g : R -> R) (l : list R) d :
  length l = d -> tsum (map g l) = Sigma d (fun j => g (nth j l 0)).
Proof.
  intros <-. rewrite tsum_Sigma, length_map. apply Sigma_ext.
  intros j Hj. apply nth_map_in; assumption.
Qed.

Lemma gaussian_log_prob_rows mn_f std_f x y n d_y :
  has_shape y n d_y ->
  has_shape (mcall mn_f x) n d_y ->
  has_shape (mcall std_f x) n d_y ->
  exists ll,
    gaussian_log_prob mn_f std_f x (PTensor (FT (T2 y))) = Ok ll /\
    length ll = n /\
    forall i, (i < n)%nat ->
      nth i ll 0 = gaussian_density y (mcall mn_f x) (mcall std_f x) d_y i.
Proof.
  intros Hy Hmn Hstd.
  pose proof (has_shape_zip Rminus _ _ _ _ Hy Hmn) as Ht.
  unfold gaussian_log_prob; cbn [promote bind].
  rewrite (bcast2_same _ _ _ _ _ Hy Hmn); cbn [bind].
  rewrite (bcast2_same _ _ _ _ _ Ht Hstd); cbn [bind mrows].
  pose proof (has_shape_zip Rdiv _ _ _ _ Ht Hstd) as Hq.
  assert (Hyn : length (mrows y) = n) by apply Hy.
  assert (Hmnn : length (mrows (mcall mn_f x)) = n) by apply Hmn.
  assert (Hsn : length (mrows (mcall std_f x)) = n) by apply Hstd.
  assert (Hqn : length (zip_with (zip_with Rdiv)
                   (zip_with (zip_with Rminus) (mrows y) (mrows (mcall mn_f x)))
                   (mrows (mcall std_f x))) = n) by apply Hq.
  unfold inplace1. rewrite !length_map, Hqn, Hsn, Nat.eqb_refl; cbn [bind].
  eexists; split; [reflexivity|]. split.
  - rewrite length_map, length_zip_with; rewrite !length_map; congruence.
  - intros i Hi.
    rewrite (nth_map_in _ _ _ 0) by
      (rewrite length_zip_with; rewrite !length_map; congruence).
    rewrite (nth_zip_with _ _ _ _ 0 0) by (rewrite length_map; congruence).
    rewrite (nth_map_in _ _ _ []) by congruence.
    rewrite (nth_map_in _ _ _ []) by congruence.
    rewrite (nth_zip_with _ _ _ _ [] []) by
      (try rewrite length_zip_with; congruence).
    rewrite (nth_zip_with _ _ _ _ [] []) by congruence.
    pose proof (row_length _ _ _ i Hy Hi) as Ly.
    pose proof (row_length _ _ _ i Hmn Hi) as Lm.
    pose proof (row_length _ _ _ i Hstd Hi) as Ls.
    rewrite (tsum_map_Sigma _ _ d_y) by
      (rewrite !length_zip_with; try rewrite length_zip_with; congruence).
    rewrite (tsum_map_Sigma ln _ d_y) by assumption.
    unfold gaussian_density, log_2_pi.
    replace (ncols y) with d_y by (symmetry; apply Hy).
    rewrite (Sigma_ext d_y _
      (fun j => ((entry y i j - entry (mcall mn_f x) i j)
                 / entry (mcall std_f x) i j) ^ 2)).
    + unfold entry. lra.
    + intros j Hj. unfold entry.
      rewrite (nth_zip_with _ _ _ _ 0 0) by
        (try rewrite length_zip_with; congruence).
      rewrite (nth_zip_with _ _ _ _ 0 0) by congruence.
      reflexivity.
Qed.

Lemma has_shape_column (v : list R) :
  has_shape (Mat 1 (map (fun a => [a]) v)) (length v) 1.
Proof.
  repeat split; simpl.
  - apply length_map.
  - apply Forall_forall. intros r Hr. apply in_map_iff in Hr.
    destruct Hr as (a & <- & _). reflexivity.
Qed.

(** C8. For a Gaussian distribution whose mean and scale modules return
    tensors of the shape [n, d_y] of y, log_prob returns, for each of the n
    rows, the diagonal Gaussian log density
    -1/2 sum_j ((y_ij - mn_ij)/std_ij)^2 - sum_j log(std_ij) - d_y/2 log(2 pi);
    a rank 1 y is treated as the matrix of its single column; with mean 0,
    scale 1, d_y = 1 and y = 0 every entry is -1/2 log(2 pi). *)
Theorem gaussian_log_prob_density :
  forall (mn_f std_f : MatModule) (x : mat R) (n : nat),
    (forall y d_y,
        has_shape y n d_y ->
        has_shape (mcall mn_f x) n d_y ->
        has_shape (mcall std_f x) n d_y ->
        exists ll,
          log_prob (CondGaussianDistribution mn_f std_f) x (PTensor (FT (T2 y)))
          = Ok ll /\
          length ll = n /\
          forall i, (i < n)%nat ->
            nth i ll 0 = gaussian_density y (mcall mn_f x) (mcall std_f x) d_y i)
    /\
    (forall v,
        log_prob (CondGaussianDistribution mn_f std_f) x (PTensor (FT (T1 v)))
        = log_prob (CondGaussianDistribution mn_f std_f) x
            (PTensor (FT (T2 (Mat 1 (map (fun a => [a]) v))))))
    /\
    (forall v,
        length v = n ->
        has_shape (mcall mn_f x) n 1 ->
        has_shape (mcall std_f x) n 1 ->
        (forall i, (i < n)%nat ->
           nth i v 0 = 0 /\ entry (mcall mn_f x) i 0 = 0
           /\ entry (mcall std_f x) i 0 = 1) ->
        exists ll,
          log_prob (CondGaussianDistribution mn_f std_f) x (PTensor (FT (T1 v)))
          = Ok ll /\
          length ll = n /\
          forall i, (i < n)%nat -> nth i ll 0 = - (1/2) * ln (2 * PI)).
Proof.
  intros mn_f std_f x n. split; [|split].
  - intros y d_y Hy Hmn Hstd. apply gaussian_log_prob_rows; assumption.
  - intros v. reflexivity.
  - intros v Hv Hmn Hstd Hz.
    pose proof (has_shape_column v) as Hy. rewrite Hv in Hy.
    destruct (gaussian_log_prob_rows mn_f std_f x _ n 1 Hy Hmn Hstd)
      as (ll & Hll & Hlen & Hnth).
    exists ll. split; [exact Hll|]. split; [exact Hlen|].
    intros i Hi. rewrite (Hnth i Hi).
    destruct (Hz i Hi) as (Hv0 & Hm0 & Hs0).
    unfold gaussian_density, Sigma; cbn [seq map tsum fold_right].
    rewrite Hm0, Hs0. unfold entry; cbn [mrows].
    rewrite (nth_map_in _ _ _ 0) by lia. cbn [nth]. rewrite Hv0, ln_1.
    cbn [INR]. lra.
Qed.

(** ** The Bernoulli log probability *)

Lemma length_mask_select {A} (m : list bool) (l : list A) :
  length m = length l -> length (mask_select m l) = count_true m.
Proof.
  unfold count_true. revert l; induction m as [|b m IH]; intros [|a l]; simpl;
    intros H; try discriminate; auto.
  destruct b; simpl; rewrite IH; auto.
Qed.

Lemma length_mask_assign {A} (m : list bool) (l vals : list A) :
  length (mask_assign m l vals) = length l.
Proof.
  revert l vals; induction m as [|b m IH]; intros [|a l] vals; simpl; auto.
  destruct b; [destruct vals|]; simpl; rewrite IH; reflexivity.
Qed.

(** Writing the selected entries through a mask and then the transformed
    remaining entries through the opposite mask. *)
Lemma mask_assign_split (g : R -> R) (z : list bool) (base lp : list R) :
  length z = length base -> length z = length lp ->
  mask_assign z
    (mask_assign (map negb z) base (mask_select (map negb z) lp))
    (map g (mask_select z lp))
  = zip_with (fun (b : bool) a => if b then g a else a) z lp.
Proof.
  revert base lp; induction z as [|b z IH]; intros [|a base] [|v lp]; simpl;
    intros H1 H2; try discriminate; auto.
  destruct b; simpl; rewrite IH; auto.
Qed.

Lemma getitem_mask_ok {A} (l : list A) (m : list bool) :
  length m = length l -> getitem_mask l m = Ok (mask_select m l).
Proof. intros H; unfold getitem_mask; rewrite H, Nat.eqb_refl; reflexivity. Qed.

Lemma setitem_mask_ok {A} (l : list A) (m : list bool) (vals : list A) :
  length m = length l -> length vals = count_true m ->
  setitem_mask l m vals = Ok (mask_assign m l vals).
Proof.
  intros H1 H2; unfold setitem_mask; rewrite H1, H2, !Nat.eqb_refl; reflexivity.
Qed.

Lemma bernoulli_log_prob_mask log_prob_fcn x t z :
  zero_mask t = Some z ->
  length z = nrows x ->
  length (vcall log_prob_fcn x) = nrows x ->
  bernoulli_log_prob log_prob_fcn x (PTensor t)
  = Ok (zip_with (fun (b : bool) a => if b then ln (1 - exp a) else a)
                 z (vcall log_prob_fcn x)).
Proof.
  intros Hz Hlen Hlp. unfold bernoulli_log_prob. rewrite Hz.
  rewrite getitem_mask_ok by (rewrite length_map; congruence). cbn [bind].
  rewrite setitem_mask_ok; cbn [bind].
  - rewrite getitem_mask_ok by congruence. cbn [bind].
    rewrite setitem_mask_ok.
    + rewrite mask_assign_split;
        [reflexivity | rewrite repeat_length; assumption | congruence].
    + rewrite length_mask_assign, repeat_length; assumption.
    + rewrite length_map. apply length_mask_select; congruence.
  - rewrite length_map, repeat_length; assumption.
  - apply length_mask_select. rewrite length_map; congruence.
Qed.

Lemma nzR_0 : nzR 0 = false.
Proof. unfold nzR. destruct (Req_dec_T 0 0); [reflexivity | lra]. Qed.

Lemma nzR_1 : nzR 1 = true.
Proof. unfold nzR. destruct (Req_dec_T 1 0); [lra | reflexivity]. Qed.

Lemma zero_mask_bits (y : list bool) (t : tensor) :
  t = bits_mask y \/ t = bits_float y -> zero_mask t = Some (map negb y).
Proof.
  intros [-> | ->]; cbn [zero_mask bits_mask bits_float]; [reflexivity|].
  rewrite map_map. f_equal. apply map_ext. intros [|].
  - rewrite nzR_1; reflexivity.
  - rewrite nzR_0; reflexivity.
Qed.

(** C9. The Bernoulli log_prob raises ValueError for a tensor y that is not
    of rank 1; for a rank 1 0/1 tensor y of the length n of x (and a gate
    function returning n log probabilities) it returns n entries,
    log_prob_fcn(x)[i] where y[i] = 1 and log(1 - exp(log_prob_fcn(x)[i]))
    where y[i] = 0; when the gate function returns log(0.5) everywhere and y
    is all zeros, every entry is log(0.5). *)
Theorem bernoulli_log_prob_cases :
  forall (log_prob_fcn : VecModule) (x : mat R),
    (forall t,
        trank t <> 1%nat ->
        log_prob (CondBernoulliDistribution log_prob_fcn) x (PTensor t)
        = Raise (ValueError msg_1d))
    /\
    (forall (y : list bool) (t : tensor),
        t = bits_mask y \/ t = bits_float y ->
        length y = nrows x ->
        length (vcall log_prob_fcn x) = nrows x ->
        exists ll,
          log_prob (CondBernoulliDistribution log_prob_fcn) x (PTensor t) = Ok ll /\
          length ll = nrows x /\
          forall i, (i < nrows x)%nat ->
            nth i ll 0 =
              if nth i y false then nth i (vcall log_prob_fcn x) 0
              else ln (1 - exp (nth i (vcall log_prob_fcn x) 0)))
    /\
    (forall (y : list bool) (t : tensor),
        t = bits_mask y \/ t = bits_float y ->
        length y = nrows x ->
        length (vcall log_prob_fcn x) = nrows x ->
        (forall i, (i < nrows x)%nat ->
           nth i y false = false /\ nth i (vcall log_prob_fcn x) 0 = ln (1/2)) ->
        exists ll,
          log_prob (CondBernoulliDistribution log_prob_fcn) x (PTensor t) = Ok ll /\
          length ll = nrows x /\
          forall i, (i < nrows x)%nat -> nth i ll 0 = ln (1/2)).
Proof.
  intros f x.
  assert (Hgen : forall (y : list bool) (t : tensor),
        t = bits_mask y \/ t = bits_float y ->
        length y = nrows x ->
        length (vcall f x) = nrows x ->
        exists ll,
          log_prob (CondBernoulliDistribution f) x (PTensor t) = Ok ll /\
          length ll = nrows x /\
          forall i, (i < nrows x)%nat ->
            nth i ll 0 =
              if nth i y false then nth i (vcall f x) 0
              else ln (1 - exp (nth i (vcall f x) 0))).
  { intros y t Ht Hy Hlp. cbn [log_prob].
    rewrite (bernoulli_log_prob_mask f x t (map negb y))
      by (try apply zero_mask_bits; try rewrite length_map; assumption).
    eexists; split; [reflexivity|]. split.
    - rewrite length_zip_with; rewrite length_map; congruence.
    - intros i Hi.
      rewrite (nth_zip_with _ _ _ _ true 0) by (try rewrite length_map; lia).
      rewrite (nth_map_in _ _ _ false) by lia.
      destruct (nth i y false); reflexivity. }
  split; [|split].
  - intros t Ht. cbn [log_prob]. unfold bernoulli_log_prob.
    destruct t as [[a|v|m]|[a|v|m]]; cbn in *; try reflexivity; congruence.
  - exact Hgen.
  - intros y t Ht Hy Hlp Hz.
    destruct (Hgen y t Ht Hy Hlp) as (ll & Hll & Hlen & Hnth).
    exists ll; split; [exact Hll|]; split; [exact Hlen|].
    intros i Hi. rewrite (Hnth i Hi). destruct (Hz i Hi) as (-> & ->).
    rewrite exp_ln by lra. f_equal; lra.
Qed.

(** ** Masked reads and writes, entry by entry *)

Lemma count_true_cons (b : bool) (m : list bool) :
  count_true (b :: m) = ((if b then 1 else 0) + count_true m)%nat.
Proof. unfold count_true; simpl; destruct b; reflexivity. Qed.

Lemma rank_in_lt (m : list bool) (i : nat) :
  nth i m false = true -> (rank_in m i < count_true m)%nat.
Proof.
  unfold rank_in. revert i; induction m as [|b m IH]; intros [|i]; simpl;
    intros H; try discriminate.
  - subst b. rewrite count_true_cons. unfold count_true; simpl. lia.
  - rewrite !count_true_cons. specialize (IH i H). lia.
Qed.

Lemma nth_mask_select {A} (m : list bool) (l : list A) (i : nat) (d : A) :
  length m = length l -> nth i m false = true ->
  nth (rank_in m i) (mask_select m l) d = nth i l d.
Proof.
  unfold rank_in. revert l i; induction m as [|b m IH]; intros [|a l] [|i];
    simpl; intros Hl Hi; try discriminate.
  - subst b. reflexivity.
  - rewrite count_true_cons. destruct b; simpl; apply IH; auto.
Qed.

Lemma nth_mask_assign {A} (m : list bool) (l vals : list A) (i : nat) (d : A) :
  length m = length l -> length vals = count_true m -> (i < length m)%nat ->
  nth i (mask_assign m l vals) d
  = if nth i m false then nth (rank_in m i) vals d else nth i l d.
Proof.
  unfold rank_in. revert l vals i; induction m as [|b m IH];
    intros [|a l] vals [|i]; simpl; intros Hl Hv Hi; try discriminate; try lia.
  - rewrite count_true_cons in Hv. destruct b; [destruct vals|]; simpl in *;
      try discriminate; reflexivity.
  - rewrite count_true_cons in Hv. rewrite count_true_cons.
    destruct b; [destruct vals as [|v vals]|]; simpl in *; try discriminate.
    + apply IH; lia.
    + apply IH; lia.
Qed.

Lemma any_truthy_mask (m : list bool) :
  any_truthy (map (fun a => PTensor (BT (T0 a))) m) = Ok (existsb (fun b => b) m).
Proof.
  induction m as [|b m IH]; simpl; auto.
  unfold nzB. destruct b; simpl; auto.
Qed.

Lemma py_any_mask (m : list bool) :
  py_any (PTensor (BT (T1 m))) = Ok (existsb (fun b => b) m).
Proof. unfold py_any; cbn [py_iter bind]. apply any_truthy_mask. Qed.

Lemma existsb_count_true (m : list bool) :
  existsb (fun b => b) m = negb (count_true m =? 0)%nat.
Proof.
  induction m as [|b m IH]; simpl; auto.
  rewrite count_true_cons. destruct b; simpl; auto.
Qed.

(** C6. For a spike and slab distribution and a compact sample
    (n_smps, support, nz_vls) over the n rows of x, with k active rows:
    log_prob is the spike's log probability of the whole support pattern,
    and at each of the k active rows the slab's log probability of that
    row's values, computed on exactly the active rows of x, is added; with
    k = 0 it is the spike term alone. *)
Theorem spike_slab_log_prob_additive :
  forall (d : nat) (spike_d slab_d : Dist) (x : mat R) (n_smps nz_vls : pyval)
         (support : list bool) (ls : list R),
    length support = nrows x ->
    log_prob spike_d x (PTensor (BT (T1 support))) = Ok ls ->
    length ls = nrows x ->
    (count_true support = 0%nat ->
     log_prob (CondSpikeSlabDistribution d spike_d slab_d) x
       (PList [n_smps; PTensor (BT (T1 support)); nz_vls]) = Ok ls)
    /\
    (forall sl,
        (0 < count_true support)%nat ->
        log_prob slab_d (Mat (ncols x) (mask_select support (mrows x))) nz_vls
        = Ok sl ->
        length sl = count_true support ->
        exists ll,
          log_prob (CondSpikeSlabDistribution d spike_d slab_d) x
            (PList [n_smps; PTensor (BT (T1 support)); nz_vls]) = Ok ll /\
          length ll = nrows x /\
          forall i, (i < nrows x)%nat ->
            nth i ll 0 =
              if nth i support false
              then nth i ls 0 + nth (rank_in support i) sl 0
              else nth i ls 0).
Proof.
  intros d spike_d slab_d x n_smps nz_vls support ls Hsup Hls Hlen.
  split.
  - intros Hk. cbn [log_prob unpack3 py_iter bind]. rewrite Hls; cbn [bind].
    rewrite py_any_mask, existsb_count_true, Hk; reflexivity.
  - intros sl Hk Hsl Hlsl.
    cbn [log_prob unpack3 py_iter bind]. rewrite Hls; cbn [bind].
    rewrite py_any_mask, existsb_count_true.
    destruct (count_true support =? 0)%nat eqn:E;
      [apply Nat.eqb_eq in E; lia|]. cbn [negb bind as_index].
    rewrite getitem_mask_ok by congruence. cbn [bind].
    unfold index_rows; cbn [as_index bind]. rewrite Hsup, Nat.eqb_refl.
    cbn [bind]. rewrite Hsl; cbn [bind].
    assert (Hcur : length (mask_select support ls) = count_true support)
      by (apply length_mask_select; congruence).
    unfold inplace1. rewrite Hlsl, Hcur, Nat.eqb_refl. cbn [bind].
    rewrite setitem_mask_ok
      by (try rewrite length_zip_with; congruence).
    eexists; split; [reflexivity|]. split.
    + rewrite length_mask_assign; assumption.
    + intros i Hi.
      rewrite nth_mask_assign
        by (try rewrite length_zip_with; congruence || lia).
      destruct (nth i support false) eqn:Ei; [|reflexivity].
      pose proof (rank_in_lt support i Ei) as Hr.
      rewrite (nth_zip_with _ _ _ _ 0 0) by lia.
      rewrite nth_mask_select by congruence. reflexivity.
Qed.

(** ** The matrix product log probability *)

Lemma sum_two_columns (l1 l2 : list R) (n : nat) :
  length l1 = n -> length l2 = n ->
  map tsum (zip_with (@app R) (map (fun a => [a]) l1)
             (zip_with (@app R) (map (fun a => [a]) l2) (repeat [] n)))
  = zip_with Rplus l1 l2.
Proof.
  revert l2 n; induction l1 as [|a l1 IH]; intros [|b l2] [|n]; simpl;
    intros H1 H2; try discriminate; auto.
  f_equal; [lra | apply IH; lia].
Qed.

Lemma matrix_product_log_prob_two (D1 D2 : Dist) x y1 y2 l1 l2 :
  log_prob D1 x y1 = Ok l1 ->
  log_prob D2 x y2 = Ok l2 ->
  length l1 = nrows x ->
  length l2 = nrows x ->
  log_prob (CondMatrixProductDistribution [D1; D2]) x (PList [y1; y2])
  = Ok (zip_with Rplus l1 l2).
Proof.
  intros H1 H2 L1 L2. cbn [log_prob py_iter bind zipM].
  rewrite H1; cbn [bind]. unfold view_col at 1. rewrite L1, Nat.eqb_refl.
  cbn [bind]. rewrite H2; cbn [bind]. unfold view_col. rewrite L2, Nat.eqb_refl.
  cbn [bind]. unfold cat_mats, nrows. cbn [forallb mrows].
  rewrite !length_map, L1, L2, Nat.eqb_refl. cbn [andb bind mrows cat_rows].
  rewrite sum_two_columns by assumption. reflexivity.
Qed.

(** C7. For a matrix product distribution with a Gaussian first column and a
    Bernoulli second column, the log probability of the compact sample
    [y1, y2] is, row by row, the sum of the two columns' log
    probabilities. *)
Theorem matrix_product_log_prob_additive :
  forall (mn_f std_f : MatModule) (log_prob_fcn : VecModule) (x : mat R)
         (y1 y2 : pyval) (l1 l2 : list R),
    let D1 := CondGaussianDistribution mn_f std_f in
    let D2 := CondBernoulliDistribution log_prob_fcn in
    log_prob D1 x y1 = Ok l1 ->
    log_prob D2 x y2 = Ok l2 ->
    length l1 = nrows x ->
    length l2 = nrows x ->
    exists ll,
      log_prob (CondMatrixProductDistribution [D1; D2]) x (PList [y1; y2])
      = Ok ll /\
      length ll = nrows x /\
      forall i, (i < nrows x)%nat -> nth i ll 0 = nth i l1 0 + nth i l2 0.
Proof.
  intros mn_f std_f f x y1 y2 l1 l2 D1 D2 H1 H2 L1 L2.
  exists (zip_with Rplus l1 l2). split; [|split].
  - apply matrix_product_log_prob_two; assumption.
  - rewrite length_zip_with; congruence.
  - intros i Hi. apply nth_zip_with; lia.
Qed.

(** ** The degenerate support of the spike and slab distribution *)

Lemma zeros2_shape (n d : nat) : has_shape (zeros2 n d) n d.
Proof.
  repeat split; simpl.
  - apply repeat_length.
  - apply Forall_forall. intros r Hr. apply repeat_spec in Hr. subst r.
    apply repeat_length.
Qed.

Lemma zeros2_entry (n d i j : nat) : entry (zeros2 n d) i j = 0.
Proof.
  unfold entry, zeros2; cbn [mrows].
  destruct (Nat.lt_ge_cases i n) as [Hi|Hi].
  - rewrite nth_repeat_lt by assumption.
    destruct (Nat.lt_ge_cases j d) as [Hj|Hj].
    + apply nth_repeat_lt; assumption.
    + apply nth_overflow. rewrite repeat_length; assumption.
  - rewrite (nth_overflow (repeat (repeat 0 d) n))
      by (rewrite repeat_length; assumption).
    destruct j; reflexivity.
Qed.

(** C10. When the support drawn from the spike has no active row, sample
    returns [n, support, None] whatever the slab distribution is, leaving
    the random number generator where the spike left it: the slab is not
    sampled. form_standard_sample of a compact sample whose nz_vls is None
    is the all-zero tensor of shape [n, d]. *)
Theorem spike_slab_degenerate_support :
  forall (d : nat) (spike_d slab_d : Dist),
    (forall (x : mat R) (g g1 : rng) (s : pyval) (support : list bool),
        sample spike_d x g = Ok (s, g1) ->
        form_standard_sample spike_d s = Ok (PTensor (BT (T1 support))) ->
        count_true support = 0%nat ->
        sample (CondSpikeSlabDistribution d spike_d slab_d) x g
        = Ok (PList [PInt (nrows x); PTensor (BT (T1 support)); PNone], g1))
    /\
    (forall (n : nat) (support : pyval),
        form_standard_sample (CondSpikeSlabDistribution d spike_d slab_d)
          (PList [PInt n; support; PNone])
        = Ok (PTensor (FT (T2 (zeros2 n d)))) /\
        has_shape (zeros2 n d) n d /\
        forall i j, entry (zeros2 n d) i j = 0).
Proof.
  intros d spike_d slab_d. split.
  - intros x g g1 s support Hs Hf Hk.
    cbn [sample]. rewrite Hs; cbn [bind]. rewrite Hf; cbn [bind].
    rewrite py_any_mask, existsb_count_true, Hk. reflexivity.
  - intros n support. split; [reflexivity|]. split.
    + apply zeros2_shape.
    + intros i j; apply zeros2_entry.
Qed.

(** ** The Kullback-Leibler divergence *)

Lemma bcast1_same (f : R -> R -> R) (a b : list R) :
  length a = length b -> bcast1 f a b = Ok (zip_with f a b).
Proof.
  intros H; unfold bcast1. rewrite H, bdim_same.
  rewrite !expand_same by congruence. reflexivity.
Qed.

Lemma has_shape_msq (m : mat R) n d : has_shape m n d -> has_shape (msq m) n d.
Proof.
  intros (H1 & H2 & H3); repeat split; simpl; auto.
  - rewrite length_map; assumption.
  - apply Forall_forall. intros r Hr. apply in_map_iff in Hr.
    destruct Hr as (r' & <- & Hr'). rewrite length_map.
    rewrite Forall_forall in H3; auto.
Qed.

Lemma entry_msq (m : mat R) n d i j :
  has_shape m n d -> (i < n)%nat -> (j < d)%nat ->
  entry (msq m) i j = entry m i j ^ 2.
Proof.
  intros H Hi Hj. unfold entry, msq; cbn [mrows].
  rewrite (nth_map_in _ _ _ []) by (destruct H as (_ & ? & _); lia).
  rewrite (nth_map_in _ _ _ 0) by (rewrite (row_length m n d i H Hi); lia).
  reflexivity.
Qed.

Lemma Sigma_plus d f g :
  Sigma d (fun j => f j + g j) = Sigma d f + Sigma d g.
Proof.
  unfold Sigma. induction (seq 0 d) as [|j l IH]; simpl; [lra|].
  rewrite IH; lra.
Qed.

Lemma Sigma_scale d c f : Sigma d (fun j => c * f j) = c * Sigma d f.
Proof.
  unfold Sigma. induction (seq 0 d) as [|j l IH]; simpl; [lra|].
  rewrite IH; lra.
Qed.

Lemma ln_sq_ratio (a b : R) :
  0 < a -> 0 < b -> ln (b ^ 2 / a ^ 2) = 2 * ln b + (-2) * ln a.
Proof.
  intros Ha Hb. unfold Rdiv.
  rewrite ln_mult by (try apply Rinv_0_lt_compat; apply pow_lt; assumption).
  rewrite ln_Rinv by (apply pow_lt; assumption).
  rewrite !ln_pow by assumption. simpl INR. lra.
Qed.

(** Row [i] of an element-wise operation on two tensors of one shape. *)
Lemma entry_zip (f : R -> R -> R) (a b : mat R) n d i j :
  has_shape a n d -> has_shape b n d -> (i < n)%nat -> (j < d)%nat ->
  entry (Mat d (zip_with (zip_with f) (mrows a) (mrows b))) i j
  = f (entry a i j) (entry b i j).
Proof.
  intros Ha Hb Hi Hj. unfold entry; cbn [mrows].
  rewrite (nth_zip_with _ _ _ _ [] [])
    by (destruct Ha as (_ & ? & _), Hb as (_ & ? & _); lia).
  apply nth_zip_with.
  - rewrite (row_length a n d i Ha Hi); assumption.
  - rewrite (row_length b n d i Hb Hi); assumption.
Qed.

Lemma row_sum_Sigma (m : mat R) n d i :
  has_shape m n d -> (i < n)%nat ->
  nth i (map tsum (mrows m)) 0 = Sigma d (fun j => entry m i j).
Proof.
  intros H Hi.
  rewrite (nth_map_in _ _ _ []) by (destruct H as (_ & ? & _); lia).
  rewrite tsum_Sigma, (row_length m n d i H Hi). reflexivity.
Qed.

Lemma log_det_row (std : mat R) n d i :
  has_shape std n d -> (i < n)%nat ->
  nth i (map (fun r => 2 * tsum (map ln r)) (mrows std)) 0
  = 2 * Sigma d (fun j => ln (entry std i j)).
Proof.
  intros H Hi.
  rewrite (nth_map_in _ _ _ []) by (destruct H as (_ & ? & _); lia).
  rewrite (tsum_map_Sigma ln _ d) by (apply (row_length std n d i H Hi)).
  reflexivity.
Qed.

(** Lengths of the lists the tensor operations build. *)
Ltac len :=
  unfold msq; cbn [mrows ncols];
  repeat (rewrite ?length_map;
          match goal with
          | |- context [length (zip_with ?f ?a ?b)] =>
              rewrite (length_zip_with f a b) by len
          end);
  rewrite ?length_map; first [congruence | lia].

Lemma other_kl_rows mn_f1 std_f1 mn_f2 std_f2 x smp n d :
  has_shape (mcall mn_f1 x) n d -> has_shape (mcall std_f1 x) n d ->
  has_shape (mcall mn_f2 x) n d -> has_shape (mcall std_f2 x) n d ->
  positive (mcall std_f1 x) -> positive (mcall std_f2 x) ->
  exists v,
    other_kl (CondGaussianDistribution mn_f1 std_f1)
             (CondGaussianDistribution mn_f2 std_f2) x smp = Ok (squeeze1 v) /\
    length v = n /\
    forall i, (i < n)%nat ->
      nth i v 0 = analytic_kl (mcall mn_f1 x) (mcall std_f1 x)
                              (mcall mn_f2 x) (mcall std_f2 x) d i.
Proof.
  intros Hm1 Hs1 Hm2 Hs2 P1 P2.
  assert (Ln1 : length (mrows (mcall std_f1 x)) = n) by apply Hs1.
  assert (Ln2 : length (mrows (mcall std_f2 x)) = n) by apply Hs2.
  assert (Lm1 : length (mrows (mcall mn_f1 x)) = n) by apply Hm1.
  assert (Lm2 : length (mrows (mcall mn_f2 x)) = n) by apply Hm2.
  pose proof (has_shape_msq _ _ _ Hs1) as Hq1.
  pose proof (has_shape_msq _ _ _ Hs2) as Hq2.
  pose proof (has_shape_zip Rdiv _ _ _ _ Hq1 Hq2) as Hratio.
  pose proof (has_shape_zip Rminus _ _ _ _ Hm2 Hm1) as Ht.
  pose proof (has_shape_zip Rdiv _ _ _ _ Ht Hs2) as Ht2.
  pose proof (has_shape_msq _ _ _ Ht2) as Ht3.
  unfold other_kl.
  rewrite bcast1_same by len. cbn [bind].
  rewrite (bcast2_same _ _ _ _ _ Hq1 Hq2). cbn [bind].
  rewrite (bcast2_same _ _ _ _ _ Hm2 Hm1). cbn [bind].
  rewrite (bcast2_same _ _ _ _ _ Ht Hs2). cbn [bind].
  rewrite bcast1_same by len. cbn [bind].
  rewrite bcast1_same by len. cbn [bind].
  eexists; split; [reflexivity|]. split.
  - len.
  - intros i Hi.
    rewrite (nth_map_in _ _ _ 0) by len.
    rewrite (nth_zip_with _ _ _ _ 0 0) by len.
    rewrite (nth_zip_with _ _ _ _ 0 0) by len.
    rewrite (nth_map_in _ _ _ 0) by len.
    rewrite (nth_zip_with _ _ _ _ 0 0) by len.
    rewrite (log_det_row _ n d i Hs1 Hi), (log_det_row _ n d i Hs2 Hi).
    rewrite (row_sum_Sigma _ n d i Hratio Hi), (row_sum_Sigma _ n d i Ht3 Hi).
    replace (ncols (mcall mn_f1 x)) with d by (symmetry; apply Hm1).
    unfold analytic_kl.
    rewrite (Sigma_ext d
      (fun j => ln (entry (mcall std_f2 x) i j ^ 2 / entry (mcall std_f1 x) i j ^ 2))
      (fun j => 2 * ln (entry (mcall std_f2 x) i j)
                + (-2) * ln (entry (mcall std_f1 x) i j))).
    2:{ intros j Hj. apply ln_sq_ratio.
        - apply P1; unfold nrows; destruct Hs1 as (? & ? & _); lia.
        - apply P2; unfold nrows; destruct Hs2 as (? & ? & _); lia. }
    rewrite Sigma_plus, !Sigma_scale.
    rewrite (Sigma_ext d
      (fun j => entry (Mat d (zip_with (zip_with Rdiv)
                  (mrows (msq (mcall std_f1 x))) (mrows (msq (mcall std_f2 x))))) i j)
      (fun j => entry (mcall std_f1 x) i j ^ 2 / entry (mcall std_f2 x) i j ^ 2)).
    2:{ intros j Hj. rewrite (entry_zip _ _ _ n d) by assumption.
        rewrite (entry_msq _ n d), (entry_msq _ n d) by assumption.
        reflexivity. }
    rewrite (Sigma_ext d
      (fun j => entry (msq (Mat d (zip_with (zip_with Rdiv)
                  (mrows (Mat d (zip_with (zip_with Rminus)
                     (mrows (mcall mn_f2 x)) (mrows (mcall mn_f1 x)))))
                  (mrows (mcall std_f2 x))))) i j)
      (fun j => ((entry (mcall mn_f2 x) i j - entry (mcall mn_f1 x) i j)
                 / entry (mcall std_f2 x) i j) ^ 2)).
    2:{ intros j Hj. rewrite (entry_msq _ n d) by assumption.
        rewrite (entry_zip _ _ _ n d) by assumption.
        rewrite (entry_zip _ _ _ n d) by assumption.
        reflexivity. }
    lra.
Qed.



(** ** Evaluation on concrete inputs *)

Ltac run :=
  cbv - [Rplus Rminus Rmult Rdiv Rinv Ropp IZR ln exp PI pow INR
         nzR Rleb Rltb log_2_pi].






Lemma x1_shape (r : list R) :
  has_shape (Mat (length r) [r]) 1 (length r).
Proof. repeat split. constructor; [reflexivity | constructor]. Qed.

Lemma positive_ones : positive (mcall (const_mat [] [1]) x1).
Proof.
  intros i j Hi Hj. cbn in Hi, Hj.
  assert (i = 0%nat) by lia. assert (j = 0%nat) by lia. subst.
  run. lra.
Qed.


(** ** The inherited estimator and its errors *)

Lemma log_prob_none (self : Dist) (x : mat R) :
  exists e, log_prob self x PNone = Raise e.
Proof. destruct self; cbn; eauto. Qed.

(** C2 (amended). The default kl never draws a sample: it evaluates both
    log probabilities at the sample the caller supplies and returns their
    difference per row; when the sample is omitted (None) the call raises
    and returns no value. *)
Theorem kl_uses_supplied_sample :
  forall (self d_2 : Dist) (x : mat R),
    (forall (smp : pyval) (a b : list R),
        same_type d_2 self = true ->
        log_prob self x smp = Ok a ->
        log_prob d_2 x smp = Ok b ->
        length a = length b ->
        kl self d_2 x smp = Ok (squeeze1 (zip_with Rminus a b)))
    /\
    (exists e, kl self d_2 x PNone = Raise e).
Proof.
  intros self d_2 x. split.
  - intros smp a b Ht Ha Hb Hl. unfold kl. rewrite Ht, Ha, Hb; cbn [negb bind].
    rewrite bcast1_same by assumption. reflexivity.
  - unfold kl. destruct (same_type d_2 self); cbn [negb]; [|eauto].
    destruct (log_prob_none self x) as (e & ->). cbn [bind]; eauto.
Qed.

(** C2, as stated, fails: with the sample omitted the call raises. *)
Lemma kl_without_sample_raises : kl coin coin x1 PNone = Raise AttributeError.
Proof. reflexivity. Qed.

Lemma no_mismatch_bind {A B} (r : result A) (k : A -> result B) :
  no_mismatch r -> (forall a, no_mismatch (k a)) -> no_mismatch (bind r k).
Proof.
  unfold no_mismatch. intros Hr Hk.
  destruct r; cbn; [apply Hk | | discriminate].
  intros H; apply Hr; injection H as ->; reflexivity.
Qed.

Ltac no_mismatch_tac :=
  repeat first
    [ apply no_mismatch_bind; [|intros ?]
    | match goal with
      | |- no_mismatch (Ok _) => discriminate
      | |- no_mismatch Unmodelled => discriminate
      | |- no_mismatch (Raise _) => unfold no_mismatch; discriminate
      | |- no_mismatch (if ?b then _ else _) => destruct b
      | |- no_mismatch (match ?v with _ => _ end) => destruct v
      end ].

Lemma no_mismatch_py_iter v : no_mismatch (py_iter v).
Proof. unfold py_iter. no_mismatch_tac. Qed.

Lemma no_mismatch_unpack3 v : no_mismatch (unpack3 v).
Proof.
  unfold unpack3. apply no_mismatch_bind; [apply no_mismatch_py_iter|].
  intros l. no_mismatch_tac.
Qed.

Lemma no_mismatch_truthy v : no_mismatch (truthy v).
Proof. unfold truthy, numel_truth. no_mismatch_tac. Qed.

Lemma no_mismatch_py_any v : no_mismatch (py_any v).
Proof.
  unfold py_any. apply no_mismatch_bind; [apply no_mismatch_py_iter|].
  intros l. induction l as [|a l IH]; cbn; [discriminate|].
  apply no_mismatch_bind; [apply no_mismatch_truthy|].
  intros [|]; [discriminate | exact IH].
Qed.

Lemma no_mismatch_as_index v : no_mismatch (as_index v).
Proof. unfold as_index. no_mismatch_tac. Qed.

Lemma no_mismatch_index_rows x v : no_mismatch (index_rows x v).
Proof.
  unfold index_rows. apply no_mismatch_bind; [apply no_mismatch_as_index|].
  intros m. no_mismatch_tac.
Qed.

Lemma no_mismatch_bernoulli f x y : no_mismatch (bernoulli_log_prob f x y).
Proof.
  unfold bernoulli_log_prob, getitem_mask, setitem_mask. no_mismatch_tac.
Qed.

Lemma no_mismatch_gaussian m s x y : no_mismatch (gaussian_log_prob m s x y).
Proof.
  unfold gaussian_log_prob, promote, bcast2, inplace1. no_mismatch_tac.
Qed.

Lemma no_mismatch_zipM {A B C} (f : A -> B -> result C) la lb :
  Forall (fun a => forall b, no_mismatch (f a b)) la ->
  no_mismatch (zipM f la lb).
Proof.
  intros H; revert lb; induction H as [|a la Ha _ IH]; intros [|b lb]; cbn;
    try discriminate.
  apply no_mismatch_bind; [apply Ha|]. intros c.
  apply no_mismatch_bind; [apply IH|]. intros cs. discriminate.
Qed.

Lemma log_prob_no_mismatch (self : Dist) :
  forall x y, no_mismatch (log_prob self x y).
Proof.
  induction self using Dist_nested_ind; intros x y; cbn [log_prob].
  - apply no_mismatch_bernoulli.
  - apply no_mismatch_gaussian.
  - apply no_mismatch_bind; [apply no_mismatch_unpack3|].
    intros [[n_smps support] nz_vls].
    apply no_mismatch_bind; [apply IHself1|]. intros ll.
    apply no_mismatch_bind; [apply no_mismatch_py_any|]. intros [|];
      [|discriminate].
    apply no_mismatch_bind; [apply no_mismatch_as_index|]. intros m.
    apply no_mismatch_bind; [unfold getitem_mask; no_mismatch_tac|]. intros cur.
    apply no_mismatch_bind; [apply no_mismatch_index_rows|]. intros xs.
    apply no_mismatch_bind; [apply IHself2|]. intros sl.
    apply no_mismatch_bind; [unfold inplace1; no_mismatch_tac|]. intros new.
    unfold setitem_mask; no_mismatch_tac.
  - apply no_mismatch_bind; [apply no_mismatch_py_iter|]. intros l.
    apply no_mismatch_bind.
    + apply no_mismatch_zipM. eapply Forall_impl; [|exact H].
      intros d Hd c_s. apply no_mismatch_bind; [apply Hd|].
      intros ll. unfold view_col; no_mismatch_tac.
    + intros cols. apply no_mismatch_bind; [|intros; discriminate].
      unfold cat_mats; no_mismatch_tac.
Qed.

(** C5 (amended). kl raises the family mismatch ValueError exactly when the
    two distributions are not of the same variant, and then nothing else is
    evaluated. Between distributions of one variant a ValueError can still
    come from log_prob itself. *)
Theorem kl_family_mismatch :
  forall (d1 d2 : Dist) (x : mat R) (smp : pyval),
    kl d1 d2 x smp = Raise (ValueError msg_kl) <-> same_type d2 d1 = false.
Proof.
  intros d1 d2 x smp. unfold kl. split.
  - destruct (same_type d2 d1); [|reflexivity]. cbn [negb]. intros H.
    exfalso. revert H.
    apply no_mismatch_bind; [apply log_prob_no_mismatch|]. intros a.
    apply no_mismatch_bind; [apply log_prob_no_mismatch|]. intros b.
    apply no_mismatch_bind; [unfold bcast1; no_mismatch_tac|].
    intros; discriminate.
  - intros ->. reflexivity.
Qed.

(** C5, as stated, fails: two Bernoulli distributions and a rank 2 sample
    give a ValueError although the variants agree. *)
Lemma kl_value_error_same_family :
  same_type coin coin = true /\
  kl coin coin x1 at_zero = Raise (ValueError msg_1d).
Proof. split; reflexivity. Qed.

(** ** Parameter lists of a matrix product *)

(** C3. The code lists every parameter of a matrix product as
    reparameterizable and none as score-function: the parameter of a
    Bernoulli column is in r_params and not in s_params, while the column
    itself lists it in s_params only. *)
Theorem matrix_product_params_of_bernoulli_column :
  (forall dists,
      r_params (CondMatrixProductDistribution dists)
      = parameters (CondMatrixProductDistribution dists) /\
      s_params (CondMatrixProductDistribution dists) = []) /\
  r_params (CondBernoulliDistribution gate_fcn) = [] /\
  s_params (CondBernoulliDistribution gate_fcn) = [7%nat] /\
  r_params (CondMatrixProductDistribution [CondBernoulliDistribution gate_fcn])
  = [7%nat] /\
  s_params (CondMatrixProductDistribution [CondBernoulliDistribution gate_fcn]) = [].
Proof. repeat split. Qed.

(** ** Round trips between the standard and the compact form *)

Lemma nzR_false (a : R) : a = 0 -> nzR a = false.
Proof. intros ->; apply nzR_0. Qed.

Lemma nzR_true (a : R) : a <> 0 -> nzR a = true.
Proof. intros H; unfold nzR. destruct (Req_dec_T a 0); [contradiction|reflexivity]. Qed.

Lemma count_true_zero_row (r : list R) :
  Forall (fun a => a = 0) r -> count_true (map nzR r) = 0%nat /\ r = repeat 0 (length r).
Proof.
  induction 1 as [|a r Ha _ [IH1 IH2]]; [split; reflexivity|].
  cbn [map length repeat]. rewrite count_true_cons, (nzR_false a Ha), IH1.
  split; [reflexivity|]. subst a. f_equal. exact IH2.
Qed.

Lemma count_true_nonzero_row (r : list R) :
  Forall (fun a => a <> 0) r -> count_true (map nzR r) = length r.
Proof.
  induction 1 as [|a r Ha _ IH]; [reflexivity|].
  cbn [map length]. rewrite count_true_cons, (nzR_true a Ha), IH. reflexivity.
Qed.

Lemma active_cases (d : nat) (r : list R) :
  (0 < d)%nat -> length r = d -> uniform_row r ->
  (active d r = true) \/ (active d r = false /\ r = repeat 0 d).
Proof.
  intros Hd Hl [Hz | Hnz]; unfold active.
  - right. destruct (count_true_zero_row r Hz) as (-> & Hr).
    split; [apply Nat.eqb_neq; lia | congruence].
  - left. rewrite (count_true_nonzero_row r Hnz), Hl. apply Nat.eqb_refl.
Qed.

Lemma mask_assign_restore (d : nat) (rows : list (list R)) :
  (0 < d)%nat ->
  Forall (fun r => length r = d) rows -> Forall uniform_row rows ->
  mask_assign (map (active d) rows) (repeat (repeat 0 d) (length rows))
              (mask_select (map (active d) rows) rows) = rows.
Proof.
  intros Hd Hl Hu. induction rows as [|r rows IH]; [reflexivity|].
  inversion Hl as [|? ? Hr Hl']; subst. inversion Hu as [|? ? Hur Hu']; subst.
  cbn [map length repeat mask_select mask_assign].
  destruct (active_cases _ r Hd eq_refl Hur) as [-> | (-> & Hz)].
  - f_equal. apply IH; assumption.
  - f_equal; [symmetry; exact Hz | apply IH; assumption].
Qed.

Lemma all_inactive_zero (d : nat) (rows : list (list R)) :
  (0 < d)%nat ->
  Forall (fun r => length r = d) rows -> Forall uniform_row rows ->
  count_true (map (active d) rows) = 0%nat ->
  rows = repeat (repeat 0 d) (length rows).
Proof.
  intros Hd Hl Hu. induction rows as [|r rows IH]; [reflexivity|].
  inversion Hl as [|? ? Hr Hl']; subst. inversion Hu as [|? ? Hur Hu']; subst.
  cbn [map length repeat]. rewrite count_true_cons.
  destruct (active_cases _ r Hd eq_refl Hur) as [-> | (-> & Hz)]; [lia|].
  intros Hc. f_equal; [exact Hz | apply IH; assumption].
Qed.

Lemma spike_slab_round_trip (d : nat) (spike_d slab_d : Dist) n rows :
  (1 < d)%nat -> has_shape (Mat d rows) n d -> Forall uniform_row rows ->
  round_trip (CondSpikeSlabDistribution d spike_d slab_d)
             (PTensor (FT (T2 (Mat d rows))))
  = Ok (PTensor (FT (T2 (Mat d rows)))).
Proof.
  intros Hd (_ & Hn & Hl) Hu. cbn [mrows] in Hn, Hl. subst n.
  unfold round_trip. cbn [form_compact_sample].
  unfold spike_slab_form_compact_sample. cbn [shape0 bind nz_mask nz_shaped].
  assert (E : (1 <? d)%nat = true) by (apply Nat.ltb_lt; assumption).
  rewrite E. cbn [bind mrows]. rewrite map_map. fold (active d).
  change (fun x : list R => (count_true (map nzR x) =? d)%nat) with (active d).
  rewrite py_any_mask, existsb_count_true. cbn [bind nrows mrows].
  assert (Lm : length (map (active d) rows) = length rows) by apply length_map.
  destruct (count_true (map (active d) rows) =? 0)%nat eqn:E0; cbn [negb].
  - apply Nat.eqb_eq in E0. cbn [form_standard_sample].
    unfold spike_slab_form_standard_sample. cbn [unpack3 py_iter bind as_count].
    unfold zeros2, nrows. cbn [mrows].
    rewrite <- all_inactive_zero by (assumption || lia).
    reflexivity.
  - cbn [getitem_rows bind]. unfold select_rows. cbn [nrows mrows ncols].
    rewrite Lm, Nat.eqb_refl. cbn [bind form_standard_sample].
    unfold spike_slab_form_standard_sample.
    cbn [unpack3 py_iter bind as_count trank rank Nat.ltb Nat.leb as_index].
    rewrite Lm, Nat.eqb_refl.
    unfold broadcast_to, nrows. cbn [mrows ncols].
    rewrite length_mask_select by assumption.
    rewrite !Nat.eqb_refl. cbn [orb andb bind].
    rewrite (expand_same (count_true (map (active d) rows)))
      by (apply length_mask_select; assumption).
    replace (map (expand d) (mask_select (map (active d) rows) rows))
      with (mask_select (map (active d) rows) rows).
    + unfold zeros2; cbn [mrows].
      rewrite mask_assign_restore by (assumption || lia). reflexivity.
    + clear - Hl. induction Hl as [|r rows Hr _ IH]; [reflexivity|].
      cbn [map mask_select]. destruct (active d r); cbn [map];
        rewrite <- ?IH, ?(expand_same _ _ Hr); reflexivity.
Qed.

Lemma zipM_leaf (dists : list Dist) (l : list pyval) :
  forallb is_leaf dists = true -> length l = length dists ->
  zipM (fun d s => form_standard_sample d s) dists l = Ok l.
Proof.
  revert l; induction dists as [|D dists IH]; intros [|s l]; cbn [forallb length];
    intros Hf Hl; try discriminate; [reflexivity|].
  apply andb_prop in Hf. destruct Hf as (HD & Hf).
  cbn [zipM]. rewrite IH by (auto; lia).
  destruct D; try discriminate; reflexivity.
Qed.

Lemma cat1_floats (cs : list (mat R)) :
  cs <> [] ->
  cat1 (map (fun c => PTensor (FT (T2 c))) cs)
  = (m <- cat_mats cs ;; Ok (PTensor (FT (T2 m)))).
Proof.
  intros Hne. unfold cat1.
  assert (Ht : all_tensors (map (fun c => PTensor (FT (T2 c))) cs)
               = Ok (map (fun c => FT (T2 c)) cs)).
  { induction cs as [|c cs IH]; [reflexivity|]. cbn [map all_tensors].
    destruct cs as [|c' cs]; [reflexivity|]. rewrite IH by discriminate.
    reflexivity. }
  rewrite Ht. cbn [bind].
  assert (He : existsb is_empty_vec (map (fun c => FT (T2 c)) cs) = false)
    by (clear; induction cs; cbn; auto).
  assert (H0 : existsb (fun t => (trank t =? 0)%nat)
                 (map (fun c => FT (T2 c)) cs) = false)
    by (clear; induction cs; cbn; auto).
  assert (H2 : forallb (fun t => (trank t =? 2)%nat)
                 (map (fun c => FT (T2 c)) cs) = true)
    by (clear; induction cs; cbn; auto).
  assert (Hf : floats2 (map (fun c => FT (T2 c)) cs) = Some cs).
  { clear. induction cs as [|c cs IH]; [reflexivity|].
    cbn [map floats2]. rewrite IH. reflexivity. }
  rewrite He, H0. destruct cs as [|c cs]; [contradiction|].
  cbn [map] in *. cbn [trank rank Nat.eqb]. rewrite H2, Hf. reflexivity.
Qed.

Lemma zip_with_map {A B C D} (f : B -> C -> D) (g : A -> B) (h : A -> C) l :
  zip_with f (map g l) (map h l) = map (fun a => f (g a) (h a)) l.
Proof. induction l as [|a l IH]; cbn; [|rewrite IH]; reflexivity. Qed.

Lemma skipn_nth_cons {A} (k : nat) (r : list A) (dflt : A) :
  (k < length r)%nat -> skipn k r = nth k r dflt :: skipn (S k) r.
Proof.
  revert r; induction k as [|k IH]; intros [|a r] H; cbn in *; try lia; auto.
  apply IH; lia.
Qed.

(** Splitting a matrix into its columns and joining them again. *)
Lemma cat_rows_columns (rows : list (list R)) (d k c : nat) :
  Forall (fun r => length r = d) rows -> (k + c <= d)%nat ->
  cat_rows (length rows)
    (map (fun c_i => Mat 1 (map (fun r => [nth c_i r 0]) rows)) (seq k c))
  = map (fun r => firstn c (skipn k r)) rows.
Proof.
  intros Hl. revert k; induction c as [|c IH]; intros k Hk.
  - cbn [seq map cat_rows firstn]. clear. induction rows; cbn; congruence.
  - cbn [seq map cat_rows mrows]. rewrite IH by lia.
    rewrite zip_with_map. apply map_ext_in. intros r Hr.
    rewrite Forall_forall in Hl. specialize (Hl r Hr).
    rewrite (skipn_nth_cons k r 0) by lia. reflexivity.
Qed.

Lemma matrix_product_round_trip (dists : list Dist) (m : mat R) (n : nat) :
  dists <> [] -> forallb is_leaf dists = true ->
  has_shape m n (length dists) ->
  round_trip (CondMatrixProductDistribution dists) (PTensor (FT (T2 m)))
  = Ok (PTensor (FT (T2 m))).
Proof.
  intros Hne Hleaf (Hc & Hn & Hl). destruct m as [c rows].
  cbn [ncols mrows] in *. subst c n.
  unfold round_trip. cbn [form_compact_sample].
  assert (Lc : length (col_smps 0 (Mat (length dists) rows)) = length dists)
    by (unfold col_smps; rewrite length_map, length_seq; reflexivity).
  rewrite zipM_leaf by (try rewrite length_map; assumption).
  cbn [bind form_standard_sample py_iter].
  rewrite zipM_leaf by (try rewrite length_map; assumption).
  cbn [bind]. rewrite cat1_floats
    by (intros E; apply Hne; apply length_zero_iff_nil;
        rewrite <- Lc, E; reflexivity).
  unfold cat_mats, col_smps. cbn [ncols mrows].
  destruct dists as [|D dists]; [contradiction|]. cbn [length seq map].
  set (cols := map (fun c_i => Mat 1 (map (fun r => [nth c_i r 0]) rows))
                   (seq 1 (length dists))).
  assert (Hrows : forallb
            (fun m' => Nat.eqb (nrows m')
                         (nrows (Mat 1 (map (fun r => [nth 0 r 0]) rows))))
            (Mat 1 (map (fun r => [nth 0 r 0]) rows) :: cols) = true).
  { apply forallb_forall. intros m' [<- | Hin]; [apply Nat.eqb_refl|].
    unfold cols in Hin. apply in_map_iff in Hin. destruct Hin as (c_i & <- & _).
    unfold nrows; cbn [mrows]. rewrite !length_map. apply Nat.eqb_refl. }
  rewrite Hrows. cbn [bind]. do 4 apply f_equal. f_equal.
  - assert (G : forall l : list nat,
               list_sum (map (fun _ => 1%nat) l) = length l)
      by (unfold list_sum; induction l; cbn; congruence).
    unfold cols. cbn [map ncols]. rewrite map_map. cbn [ncols].
    change (S (list_sum (map (fun _ : nat => 1%nat) (seq 1 (length dists))))
            = S (length dists)).
    rewrite G, length_seq. reflexivity.
  - unfold nrows; cbn [mrows]. rewrite length_map.
    change (Mat 1 (map (fun r => [nth 0 r 0]) rows) :: cols)
      with (map (fun c_i => Mat 1 (map (fun r => [nth c_i r 0]) rows))
                (seq 0 (S (length dists)))).
    rewrite (cat_rows_columns rows (S (length dists))) by (assumption || lia).
    transitivity (map (fun r : list R => r) rows); [|apply map_id].
    apply map_ext_in. intros r Hr. cbn [skipn].
    rewrite Forall_forall in Hl. specialize (Hl r Hr). cbn [length] in Hl.
    rewrite <- Hl. apply firstn_all.
Qed.

(** C4 (amended). For Bernoulli and Gaussian distributions the two
    conversions are the identity, so every sample round trips. For a spike
    and slab distribution over d > 1 variables a standard sample of shape
    [n, d] round trips when each of its rows is entirely zero or has no zero
    entry. For a matrix product whose columns are Bernoulli or Gaussian, a
    standard sample with one column per distribution round trips. *)
Theorem sample_round_trip :
  (forall (D : Dist) (s : pyval),
      is_leaf D = true ->
      form_compact_sample D s = Ok s /\ form_standard_sample D s = Ok s /\
      round_trip D s = Ok s)
  /\
  (forall (d : nat) (spike_d slab_d : Dist) (n : nat) (rows : list (list R)),
      (1 < d)%nat ->
      has_shape (Mat d rows) n d ->
      Forall uniform_row rows ->
      round_trip (CondSpikeSlabDistribution d spike_d slab_d)
                 (PTensor (FT (T2 (Mat d rows))))
      = Ok (PTensor (FT (T2 (Mat d rows)))))
  /\
  (forall (dists : list Dist) (m : mat R) (n : nat),
      dists <> [] ->
      forallb is_leaf dists = true ->
      has_shape m n (length dists) ->
      round_trip (CondMatrixProductDistribution dists) (PTensor (FT (T2 m)))
      = Ok (PTensor (FT (T2 m)))).
Proof.
  split; [|split].
  - intros D s HD. destruct D; try discriminate; repeat split.
  - apply spike_slab_round_trip.
  - apply matrix_product_round_trip.
Qed.

Lemma Rleb_exp0 : Rleb (exp 0) 1 = true.
Proof. rewrite exp_0. unfold Rleb. destruct (Rle_dec 1 1); [reflexivity|lra]. Qed.

Lemma Rltb_0_exp0 : Rltb 0 (exp 0) = true.
Proof. rewrite exp_0. unfold Rltb. destruct (Rlt_dec 0 1); [reflexivity|lra]. Qed.

Lemma spike_slab2_sample :
  (r <- sample spike_slab2 x1 quiet ;; form_standard_sample spike_slab2 (fst r))
  = Ok one_zero.
Proof.
  run. rewrite Rleb_exp0. run. rewrite Rltb_0_exp0. run.
  unfold one_zero.
  replace (1 + 0 * 1) with 1 by lra. replace (0 + 0 * 1) with 0 by lra.
  reflexivity.
Qed.

Lemma spike_slab2_round_trip :
  round_trip spike_slab2 one_zero = Ok (PTensor (FT (T2 (Mat 2 [[0; 0]])))).
Proof. run. rewrite nzR_1, nzR_0. reflexivity. Qed.

(** C4, as stated, fails: the standard form [[1, 0]] of a sample drawn from
    a spike and slab distribution over two variables comes back from the
    compact form as [[0, 0]]. *)
Lemma spike_slab_round_trip_fails :
  (r <- sample spike_slab2 x1 quiet ;; form_standard_sample spike_slab2 (fst r))
  = Ok one_zero
  /\ round_trip spike_slab2 one_zero <> Ok one_zero.
Proof.
  split; [exact spike_slab2_sample|].
  rewrite spike_slab2_round_trip. unfold one_zero. intros H.
  injection H as H. lra.
Qed.

(** ** Instances on concrete inputs *)

Lemma gaussian_log_prob_density_witness :
  (exists ll,
      log_prob std_normal x1 at_one = Ok ll /\ length ll = 1%nat /\
      forall i, (i < 1)%nat ->
        nth i ll 0 = gaussian_density (Mat 1 [[1]]) (mcall (const_mat [] [0]) x1)
                                      (mcall (const_mat [] [1]) x1) 1 i)
  /\
  (exists ll,
      log_prob std_normal x1 (PTensor (FT (T1 [0]))) = Ok ll /\
      length ll = 1%nat /\
      forall i, (i < 1)%nat -> nth i ll 0 = - (1/2) * ln (2 * PI)).
Proof.
  destruct (gaussian_log_prob_density (const_mat [] [0]) (const_mat [] [1]) x1 1)
    as (H1 & _ & H3).
  split.
  - apply (H1 (Mat 1 [[1]]) 1%nat).
    + exact (x1_shape [1]).
    + exact (x1_shape [0]).
    + exact (x1_shape [1]).
  - apply (H3 [0]).
    + reflexivity.
    + exact (x1_shape [0]).
    + exact (x1_shape [1]).
    + intros i Hi. assert (i = 0%nat) as -> by lia. repeat split; reflexivity.
Defined.

Lemma bernoulli_log_prob_cases_witness :
  log_prob coin x1 at_zero = Raise (ValueError msg_1d)
  /\
  (exists ll,
      log_prob coin x2 (PTensor (bits_mask [true; false])) = Ok ll /\
      length ll = nrows x2 /\
      forall i, (i < nrows x2)%nat ->
        nth i ll 0 =
          if nth i [true; false] false
          then nth i (vcall (const_vec [] (ln (1/2))) x2) 0
          else ln (1 - exp (nth i (vcall (const_vec [] (ln (1/2))) x2) 0)))
  /\
  (exists ll,
      log_prob coin x2 (PTensor (bits_float [false; false])) = Ok ll /\
      length ll = nrows x2 /\
      forall i, (i < nrows x2)%nat -> nth i ll 0 = ln (1/2)).
Proof.
  split; [|split].
  - apply (proj1 (bernoulli_log_prob_cases (const_vec [] (ln (1/2))) x1)).
    cbn. lia.
  - apply (proj1 (proj2 (bernoulli_log_prob_cases (const_vec [] (ln (1/2))) x2))
             [true; false]).
    + left; reflexivity.
    + reflexivity.
    + reflexivity.
  - apply (proj2 (proj2 (bernoulli_log_prob_cases (const_vec [] (ln (1/2))) x2))
             [false; false]).
    + right; reflexivity.
    + reflexivity.
    + reflexivity.
    + intros i Hi. cbn in Hi.
      destruct i as [|[|i]]; [split; reflexivity | split; reflexivity | lia].
Defined.

Lemma coin_log_prob (m : list bool) :
  length m = 2%nat ->
  log_prob coin x2 (PTensor (BT (T1 m)))
  = Ok (zip_with (fun (b : bool) a => if b then ln (1 - exp a) else a)
                 (map negb m) [ln (1/2); ln (1/2)]).
Proof.
  intros Hm. cbn [log_prob coin].
  apply bernoulli_log_prob_mask; [reflexivity | |reflexivity].
  rewrite length_map; exact Hm.
Qed.

Lemma spike_slab_log_prob_additive_witness :
  log_prob (CondSpikeSlabDistribution 1 coin std_normal) x2
    (PList [PInt 2; PTensor (BT (T1 [false; false])); PNone])
  = Ok [ln (1 - exp (ln (1/2))); ln (1 - exp (ln (1/2)))]
  /\
  (exists ll,
      log_prob (CondSpikeSlabDistribution 1 coin std_normal) x2
        (PList [PInt 2; PTensor (BT (T1 [true; false])); at_zero]) = Ok ll /\
      length ll = nrows x2 /\
      forall i, (i < nrows x2)%nat ->
        nth i ll 0 =
          if nth i [true; false] false
          then nth i [ln (1/2); ln (1 - exp (ln (1/2)))] 0
               + nth (rank_in [true; false] i)
                     [- (1/2) * (((0 - 0) / 1) ^ 2 + 0) - (ln 1 + 0)
                      - 1/2 * INR 1 * log_2_pi] 0
          else nth i [ln (1/2); ln (1 - exp (ln (1/2)))] 0).
Proof.
  split.
  - apply (proj1 (spike_slab_log_prob_additive 1 coin std_normal x2 (PInt 2) PNone
                    [false; false] [ln (1 - exp (ln (1/2))); ln (1 - exp (ln (1/2)))]
                    eq_refl (coin_log_prob [false; false] eq_refl) eq_refl)).
    reflexivity.
  - apply (proj2 (spike_slab_log_prob_additive 1 coin std_normal x2 (PInt 2) at_zero
                    [true; false] [ln (1/2); ln (1 - exp (ln (1/2)))]
                    eq_refl (coin_log_prob [true; false] eq_refl) eq_refl)).
    + cbv; lia.
    + run. reflexivity.
    + reflexivity.
Defined.

Lemma matrix_product_log_prob_additive_witness :
  exists ll,
    log_prob (CondMatrixProductDistribution [std_normal; coin]) x2
      (PList [PTensor (FT (T1 [0; 0])); PTensor (BT (T1 [true; false]))]) = Ok ll /\
    length ll = nrows x2 /\
    forall i, (i < nrows x2)%nat ->
      nth i ll 0
      = nth i [- (1/2) * (((0 - 0) / 1) ^ 2 + 0) - (ln 1 + 0)
               - 1/2 * INR 1 * log_2_pi;
               - (1/2) * (((0 - 0) / 1) ^ 2 + 0) - (ln 1 + 0)
               - 1/2 * INR 1 * log_2_pi] 0
        + nth i [ln (1/2); ln (1 - exp (ln (1/2)))] 0.
Proof.
  apply (matrix_product_log_prob_additive
           (const_mat [] [0]) (const_mat [] [1]) (const_vec [] (ln (1/2))) x2).
  - run. reflexivity.
  - exact (coin_log_prob [true; false] eq_refl).
  - reflexivity.
  - reflexivity.
Defined.

Lemma exp_ln_half : exp (ln (1/2)) = 1/2.
Proof. apply exp_ln; lra. Qed.

Lemma Rleb_half_1 : Rleb (1/2) 1 = true.
Proof. unfold Rleb. destruct (Rle_dec (1/2) 1); [reflexivity|lra]. Qed.

Lemma Rltb_high_half : Rltb (3/4) (1/2) = false.
Proof. unfold Rltb. destruct (Rlt_dec (3/4) (1/2)); [lra|reflexivity]. Qed.

Lemma coin_sample_high :
  sample coin x2 high
  = Ok (PTensor (BT (T1 [false; false])), Rng (fun _ => 3/4) 2).
Proof.
  run. rewrite exp_ln_half, Rleb_half_1. run.
  rewrite Rltb_high_half. reflexivity.
Qed.

Lemma spike_slab_degenerate_support_witness :
  sample (CondSpikeSlabDistribution 3 coin std_normal) x2 high
  = Ok (PList [PInt (nrows x2); PTensor (BT (T1 [false; false])); PNone],
        Rng (fun _ => 3/4) 2)
  /\
  form_standard_sample (CondSpikeSlabDistribution 3 coin std_normal)
    (PList [PInt 2; PTensor (BT (T1 [false; false])); PNone])
  = Ok (PTensor (FT (T2 (zeros2 2 3)))).
Proof.
  destruct (spike_slab_degenerate_support 3 coin std_normal) as (H1 & H2).
  split.
  - apply (H1 x2 high (Rng (fun _ => 3/4) 2) (PTensor (BT (T1 [false; false])))
              [false; false]).
    + exact coin_sample_high.
    + reflexivity.
    + reflexivity.
  - apply (H2 2%nat (PTensor (BT (T1 [false; false])))).
Defined.

Lemma kl_uses_supplied_sample_witness :
  kl coin coin x2 (PTensor (BT (T1 [true; false])))
  = Ok (squeeze1 (zip_with Rminus [ln (1/2); ln (1 - exp (ln (1/2)))]
                                  [ln (1/2); ln (1 - exp (ln (1/2)))])).
Proof.
  apply (proj1 (kl_uses_supplied_sample coin coin x2)).
  - reflexivity.
  - exact (coin_log_prob [true; false] eq_refl).
  - exact (coin_log_prob [true; false] eq_refl).
  - reflexivity.
Defined.

Lemma uniform_row_12 : uniform_row [1; 2].
Proof. right. repeat constructor; lra. Qed.

Lemma uniform_row_00 : uniform_row [0; 0].
Proof. left. repeat constructor. Qed.

Lemma sample_round_trip_witness :
  round_trip coin at_zero = Ok at_zero
  /\
  round_trip spike_slab2 (PTensor (FT (T2 (Mat 2 [[1; 2]; [0; 0]]))))
  = Ok (PTensor (FT (T2 (Mat 2 [[1; 2]; [0; 0]]))))
  /\
  round_trip (CondMatrixProductDistribution [std_normal; coin])
             (PTensor (FT (T2 (Mat 2 [[1; 0]]))))
  = Ok (PTensor (FT (T2 (Mat 2 [[1; 0]])))).
Proof.
  destruct sample_round_trip as (H1 & H2 & H3).
  split; [|split].
  - apply (H1 coin at_zero). reflexivity.
  - apply (H2 2%nat (CondBernoulliDistribution sure) slab2 2%nat
              [[1; 2]; [0; 0]]).
    + lia.
    + repeat split. repeat constructor.
    + constructor; [exact uniform_row_12|].
      constructor; [exact uniform_row_00 | constructor].
  - apply (H3 [std_normal; coin] (Mat 2 [[1; 0]]) 1%nat).
    + discriminate.
    + reflexivity.
    + repeat split. repeat constructor.
Defined.


(** * Further properties of the distributions *)

(** ** Divergence of a distribution from itself *)





Lemma tsum_const {A} (l : list A) (c : R) :
  tsum (map (fun _ => c) l) = INR (length l) * c.
Proof.
  induction l as [|j l IH]; [cbn; lra|].
  change (tsum (map (fun _ : A => c) (j :: l)))
    with (c + tsum (map (fun _ : A => c) l)).
  change (length (j :: l)) with (S (length l)).
  rewrite S_INR, IH. lra.
Qed.

Lemma Sigma_const (d : nat) (c : R) : Sigma d (fun _ => c) = INR d * c.
Proof. unfold Sigma. rewrite tsum_const, length_seq. reflexivity. Qed.

Lemma analytic_kl_self (mn std : mat R) (n d i : nat) :
  has_shape std n d -> positive std -> (i < n)%nat ->
  analytic_kl mn std mn std d i = 0.
Proof.
  intros Hs Hp Hi. unfold analytic_kl.
  assert (Hpos : forall j, (j < d)%nat -> 0 < entry std i j).
  { intros j Hj. apply Hp; unfold nrows; destruct Hs as (? & ? & _); lia. }
  rewrite (Sigma_ext d _ (fun _ => 0)).
  2:{ intros j Hj. specialize (Hpos j Hj).
      replace (entry std i j ^ 2 / entry std i j ^ 2) with 1
        by (field; lra). apply ln_1. }
  rewrite (Sigma_ext d (fun j => entry std i j ^ 2 / entry std i j ^ 2)
             (fun _ => 1)).
  2:{ intros j Hj. specialize (Hpos j Hj). field; lra. }
  rewrite (Sigma_ext d
             (fun j => ((entry mn i j - entry mn i j) / entry std i j) ^ 2)
             (fun _ => 0)).
  2:{ intros j Hj. specialize (Hpos j Hj). field; lra. }
  rewrite !Sigma_const. lra.
Qed.

(** X2. The analytic divergence other_kl of a Gaussian distribution from
    itself is zero at every row, for mean and scale tensors of shape [n, d]
    with positive scales. *)
Theorem other_kl_self_zero :
  forall (mn_f std_f : MatModule) (x : mat R) (smp : pyval) (n d : nat),
    has_shape (mcall mn_f x) n d -> has_shape (mcall std_f x) n d ->
    positive (mcall std_f x) ->
    exists v,
      other_kl (CondGaussianDistribution mn_f std_f)
               (CondGaussianDistribution mn_f std_f) x smp = Ok (squeeze1 v) /\
      length v = n /\
      forall i, (i < n)%nat -> nth i v 0 = 0.
Proof.
  intros mn_f std_f x smp n d Hm Hs Hp.
  destruct (other_kl_rows mn_f std_f mn_f std_f x smp n d Hm Hs Hm Hs Hp Hp)
    as (v & Hv & Hl & Hn).
  exists v. split; [exact Hv|]. split; [exact Hl|].
  intros i Hi. rewrite (Hn i Hi). apply (analytic_kl_self _ _ n); assumption.
Qed.

Lemma other_kl_self_zero_witness :
  exists v,
    other_kl std_normal std_normal x1 PNone = Ok (squeeze1 v) /\
    length v = 1%nat /\
    forall i, (i < 1)%nat -> nth i v 0 = 0.
Proof.
  apply (other_kl_self_zero (const_mat [] [0]) (const_mat [] [1]) x1 PNone 1 1).
  - exact (x1_shape [0]).
  - exact (x1_shape [1]).
  - exact positive_ones.
Defined.

(** ** The Bernoulli distribution: mean, log probability and sample *)

Lemma zip_with_repeat {A B C} (f : A -> B -> C) (z : A) (l : list B) :
  zip_with f (repeat z (length l)) l = map (f z) l.
Proof. induction l as [|b l IH]; cbn; [|rewrite IH]; reflexivity. Qed.

Lemma bernoulli_log_prob_const log_prob_fcn x (c : R) :
  length (vcall log_prob_fcn x) = nrows x ->
  log_prob (CondBernoulliDistribution log_prob_fcn) x
    (PTensor (FT (T1 (repeat c (nrows x)))))
  = Ok (map (fun a => if nzR c then a else ln (1 - exp a))
            (vcall log_prob_fcn x)).
Proof.
  intros Hlp. cbn [log_prob].
  rewrite (bernoulli_log_prob_mask log_prob_fcn x _ (repeat (negb (nzR c)) (nrows x))).
  - rewrite <- Hlp, zip_with_repeat. f_equal. apply map_ext.
    intros a. destruct (nzR c); reflexivity.
  - cbn [zero_mask]. rewrite map_repeat. reflexivity.
  - apply repeat_length.
  - exact Hlp.
Qed.

(** X3. The mean of a Bernoulli distribution is the exponential of its log
    probability at y = 1, and, when the gate function returns negative log
    probabilities, the probabilities log_prob assigns to y = 1 and to y = 0
    sum to one at every row. *)
Theorem bernoulli_probabilities_sum_to_one :
  forall (log_prob_fcn : VecModule) (x : mat R),
    length (vcall log_prob_fcn x) = nrows x ->
    Forall (fun v => v < 0) (vcall log_prob_fcn x) ->
    exists l1 l0,
      log_prob (CondBernoulliDistribution log_prob_fcn) x
        (PTensor (FT (T1 (repeat 1 (nrows x))))) = Ok l1 /\
      log_prob (CondBernoulliDistribution log_prob_fcn) x
        (PTensor (FT (T1 (repeat 0 (nrows x))))) = Ok l0 /\
      forward (CondBernoulliDistribution log_prob_fcn) x
      = Ok (FT (T1 (map exp l1))) /\
      length l1 = nrows x /\ length l0 = nrows x /\
      forall i, (i < nrows x)%nat -> exp (nth i l1 0) + exp (nth i l0 0) = 1.
Proof.
  intros f x Hlp Hneg.
  exists (vcall f x), (map (fun a => ln (1 - exp a)) (vcall f x)).
  split; [|split; [|split; [|split; [|split]]]].
  - rewrite (bernoulli_log_prob_const f x 1 Hlp), nzR_1. apply f_equal, map_id.
  - rewrite (bernoulli_log_prob_const f x 0 Hlp), nzR_0. reflexivity.
  - reflexivity.
  - exact Hlp.
  - rewrite length_map; exact Hlp.
  - intros i Hi. rewrite (nth_map_in _ _ _ 0) by lia.
    assert (Hv : nth i (vcall f x) 0 < 0).
    { rewrite Forall_forall in Hneg. apply Hneg, nth_In. lia. }
    assert (He : exp (nth i (vcall f x) 0) < 1)
      by (rewrite <- exp_0; apply exp_increasing; exact Hv).
    rewrite exp_ln by lra. lra.
Qed.

Lemma ln_half_neg : ln (1/2) < 0.
Proof. rewrite <- ln_1. apply ln_increasing; lra. Qed.

Lemma bernoulli_probabilities_sum_to_one_witness :
  exists l1 l0,
    log_prob coin x2 (PTensor (FT (T1 (repeat 1 (nrows x2))))) = Ok l1 /\
    log_prob coin x2 (PTensor (FT (T1 (repeat 0 (nrows x2))))) = Ok l0 /\
    forward coin x2 = Ok (FT (T1 (map exp l1))) /\
    length l1 = nrows x2 /\ length l0 = nrows x2 /\
    forall i, (i < nrows x2)%nat -> exp (nth i l1 0) + exp (nth i l0 0) = 1.
Proof.
  apply (bernoulli_probabilities_sum_to_one (const_vec [] (ln (1/2))) x2).
  - reflexivity.
  - repeat constructor; exact ln_half_neg.
Defined.

Lemma Rleb_true (a b : R) : a <= b -> Rleb a b = true.
Proof. intros H; unfold Rleb. destruct (Rle_dec a b); [reflexivity|contradiction]. Qed.

Lemma exp_le_1 (v : R) : v <= 0 -> exp v <= 1.
Proof.
  intros [H | ->]; [|rewrite exp_0; lra].
  left. rewrite <- exp_0. apply exp_increasing; exact H.
Qed.

Lemma nth_draw (g : rng) (k i : nat) :
  (i < k)%nat -> nth i (fst (draw g k)) 0 = noise g (pos g + i).
Proof.
  intros Hi. cbn [draw fst].
  rewrite (nth_map_in _ _ _ 0%nat) by (rewrite length_seq; exact Hi).
  rewrite seq_nth by exact Hi. reflexivity.
Qed.

Lemma bernoulli_sample_mask log_prob_fcn x g :
  Forall (fun v => v <= 0) (vcall log_prob_fcn x) ->
  sample (CondBernoulliDistribution log_prob_fcn) x g
  = Ok (PTensor (BT (T1 (zip_with Rltb (fst (draw g (length (vcall log_prob_fcn x))))
                                   (map exp (vcall log_prob_fcn x))))),
        Rng (noise g) (pos g + length (vcall log_prob_fcn x))).
Proof.
  intros Hle. cbn [sample]. unfold bernoulli_sample.
  assert (E : forallb (fun p => Rleb p 1) (map exp (vcall log_prob_fcn x)) = true).
  { apply forallb_forall. intros p Hp. apply in_map_iff in Hp.
    destruct Hp as (v & <- & Hv). rewrite Forall_forall in Hle.
    apply Rleb_true, exp_le_1, Hle, Hv. }
  rewrite E, length_map. reflexivity.
Qed.

(** X4. For a gate function returning n log probabilities, none positive,
    the Bernoulli sample is a mask of length n whose entry i says whether
    draw i of the generator is below the probability exp(log_prob_fcn(x)[i]);
    it advances the generator by n draws, and log_prob accepts it. *)
Theorem bernoulli_sample_accepted :
  forall (log_prob_fcn : VecModule) (x : mat R) (g : rng),
    length (vcall log_prob_fcn x) = nrows x ->
    Forall (fun v => v <= 0) (vcall log_prob_fcn x) ->
    exists m ll,
      sample (CondBernoulliDistribution log_prob_fcn) x g
      = Ok (PTensor (BT (T1 m)), Rng (noise g) (pos g + nrows x)) /\
      length m = nrows x /\
      (forall i, (i < nrows x)%nat ->
         nth i m false
         = Rltb (noise g (pos g + i)) (exp (nth i (vcall log_prob_fcn x) 0))) /\
      log_prob (CondBernoulliDistribution log_prob_fcn) x (PTensor (BT (T1 m)))
      = Ok ll /\
      length ll = nrows x.
Proof.
  intros f x g Hlp Hle.
  set (m := zip_with Rltb (fst (draw g (nrows x))) (map exp (vcall f x))).
  assert (Lm : length m = nrows x).
  { unfold m. rewrite length_zip_with; cbn [draw fst];
      rewrite ?length_map, ?length_seq; congruence. }
  exists m. eexists. split; [|split; [|split; [|split]]].
  - rewrite (bernoulli_sample_mask f x g Hle), Hlp. reflexivity.
  - exact Lm.
  - intros i Hi. unfold m.
    rewrite (nth_zip_with _ _ _ _ 0 0)
      by (cbn [draw fst]; rewrite ?length_map, ?length_seq; lia).
    rewrite nth_draw by lia. rewrite (nth_map_in _ _ _ 0) by lia. reflexivity.
  - cbn [log_prob]. apply (bernoulli_log_prob_mask f x _ (map negb m)).
    + reflexivity.
    + rewrite length_map; exact Lm.
    + exact Hlp.
  - rewrite length_zip_with; rewrite length_map; congruence.
Qed.

Lemma bernoulli_sample_accepted_witness :
  exists m ll,
    sample coin x2 high = Ok (PTensor (BT (T1 m)), Rng (noise high) (pos high + nrows x2)) /\
    length m = nrows x2 /\
    (forall i, (i < nrows x2)%nat ->
       nth i m false
       = Rltb (noise high (pos high + i))
              (exp (nth i (vcall (const_vec [] (ln (1/2))) x2) 0))) /\
    log_prob coin x2 (PTensor (BT (T1 m))) = Ok ll /\
    length ll = nrows x2.
Proof.
  apply (bernoulli_sample_accepted (const_vec [] (ln (1/2))) x2 high).
  - reflexivity.
  - constructor; [left; exact ln_half_neg|].
    constructor; [left; exact ln_half_neg | constructor].
Defined.

(** ** The Gaussian distribution: sample and log probability of a sample *)

Lemma randn_rows_draws (d : nat) (rows : list (list R)) (g : rng) :
  Forall (fun r => length r = d) rows ->
  randn_rows rows g
  = (map (fun i => map (noise g) (seq (pos g + i * d) d)) (seq 0 (length rows)),
     Rng (noise g) (pos g + length rows * d)).
Proof.
  intros H. revert g. induction H as [|r rows Hr _ IH]; intros g.
  - cbn. rewrite Nat.add_0_r. destruct g; reflexivity.
  - cbn [randn_rows draw]. rewrite IH. cbn [noise pos length seq map].
    rewrite Hr. f_equal.
    + f_equal; [f_equal; f_equal; lia|].
      rewrite <- seq_shift, map_map. apply map_ext. intros i.
      f_equal. f_equal. lia.
    + f_equal. lia.
Qed.

Lemma draws_shape (g : rng) (n d : nat) :
  has_shape (Mat d (map (fun i => map (noise g) (seq (pos g + i * d) d)) (seq 0 n)))
            n d.
Proof.
  repeat split; cbn [mrows].
  - rewrite length_map, length_seq; reflexivity.
  - apply Forall_forall. intros r Hr. apply in_map_iff in Hr.
    destruct Hr as (i & <- & _). rewrite length_map, length_seq; reflexivity.
Qed.

Lemma draws_entry (g : rng) (n d i j : nat) :
  (i < n)%nat -> (j < d)%nat ->
  entry (Mat d (map (fun i => map (noise g) (seq (pos g + i * d) d)) (seq 0 n))) i j
  = normal_draw g d i j.
Proof.
  intros Hi Hj. unfold entry, normal_draw; cbn [mrows].
  rewrite (nth_map_in _ _ _ 0%nat) by (rewrite length_seq; exact Hi).
  rewrite seq_nth by exact Hi.
  rewrite (nth_map_in _ _ _ 0%nat) by (rewrite length_seq; exact Hj).
  rewrite seq_nth by exact Hj. reflexivity.
Qed.

Lemma gaussian_sample_rows mn_f std_f x g n d :
  has_shape (mcall mn_f x) n d -> has_shape (mcall std_f x) n d ->
  exists y,
    sample (CondGaussianDistribution mn_f std_f) x g
    = Ok (PTensor (FT (T2 y)), Rng (noise g) (pos g + n * d)) /\
    has_shape y n d /\
    forall i j, (i < n)%nat -> (j < d)%nat ->
      entry y i j
      = entry (mcall mn_f x) i j + normal_draw g d i j * entry (mcall std_f x) i j.
Proof.
  intros Hm Hs.
  assert (Hsn : length (mrows (mcall std_f x)) = n) by apply Hs.
  assert (Hsc : ncols (mcall std_f x) = d) by apply Hs.
  assert (Hsf : Forall (fun r => length r = d) (mrows (mcall std_f x))) by apply Hs.
  pose proof (draws_shape g n d) as Hz.
  pose proof (has_shape_zip Rmult _ _ n d Hz Hs) as Hzs.
  pose proof Hzs as Hzs'. cbn [mrows] in Hzs'.
  cbn [sample]. unfold gaussian_sample.
  rewrite (randn_rows_draws d _ g Hsf), Hsn, Hsc.
  rewrite (bcast2_same Rplus _ _ n d Hm Hzs'). cbn [bind].
  eexists. split; [reflexivity|]. split.
  - exact (has_shape_zip Rplus _ _ n d Hm Hzs).
  - intros i j Hi Hj.
    etransitivity; [exact (entry_zip Rplus _ _ n d i j Hm Hzs Hi Hj)|].
    f_equal.
    etransitivity; [exact (entry_zip Rmult _ _ n d i j Hz Hs Hi Hj)|].
    rewrite draws_entry by assumption. reflexivity.
Qed.

(** X5. For mean and scale tensors of shape [n, d], the Gaussian sample is
    the tensor of shape [n, d] with entries mn + z * std, where z are the
    n * d next draws of the generator in row-major order; the generator
    advances by n * d draws. *)
Theorem gaussian_sample_reparameterized :
  forall (mn_f std_f : MatModule) (x : mat R) (g : rng) (n d : nat),
    has_shape (mcall mn_f x) n d -> has_shape (mcall std_f x) n d ->
    exists y,
      sample (CondGaussianDistribution mn_f std_f) x g
      = Ok (PTensor (FT (T2 y)), Rng (noise g) (pos g + n * d)) /\
      has_shape y n d /\
      forall i j, (i < n)%nat -> (j < d)%nat ->
        entry y i j
        = entry (mcall mn_f x) i j
          + normal_draw g d i j * entry (mcall std_f x) i j.
Proof. intros. apply gaussian_sample_rows; assumption. Qed.

Lemma gaussian_sample_reparameterized_witness :
  exists y,
    sample slab2 x1 quiet = Ok (PTensor (FT (T2 y)), Rng (noise quiet) (pos quiet + 1 * 2)) /\
    has_shape y 1 2 /\
    forall i j, (i < 1)%nat -> (j < 2)%nat ->
      entry y i j
      = entry (mcall (const_mat [] [1; 0]) x1) i j
        + normal_draw quiet 2 i j * entry (mcall (const_mat [] [1; 1]) x1) i j.
Proof.
  apply (gaussian_sample_reparameterized
           (const_mat [] [1; 0]) (const_mat [] [1; 1]) x1 quiet 1 2).
  - exact (x1_shape [1; 0]).
  - exact (x1_shape [1; 1]).
Defined.

(** X6. The log probability a Gaussian distribution assigns to its own
    sample depends on the draws and the scales only: with scale entries
    different from zero, row i is
    -1/2 sum_j z_ij^2 - sum_j log(std_ij) - d/2 log(2 pi). *)
Theorem gaussian_log_prob_of_sample :
  forall (mn_f std_f : MatModule) (x : mat R) (g : rng) (n d : nat),
    has_shape (mcall mn_f x) n d -> has_shape (mcall std_f x) n d ->
    (forall i j, (i < n)%nat -> (j < d)%nat -> entry (mcall std_f x) i j <> 0) ->
    exists y g' ll,
      sample (CondGaussianDistribution mn_f std_f) x g = Ok (y, g') /\
      log_prob (CondGaussianDistribution mn_f std_f) x y = Ok ll /\
      length ll = n /\
      forall i, (i < n)%nat ->
        nth i ll 0
        = - (1/2) * Sigma d (fun j => normal_draw g d i j ^ 2)
          - Sigma d (fun j => ln (entry (mcall std_f x) i j))
          - INR d / 2 * ln (2 * PI).
Proof.
  intros mn_f std_f x g n d Hm Hs Hnz.
  destruct (gaussian_sample_rows mn_f std_f x g n d Hm Hs) as (y & Hy & Hsh & He).
  destruct (gaussian_log_prob_rows mn_f std_f x y n d Hsh Hm Hs)
    as (ll & Hll & Hlen & Hn).
  exists (PTensor (FT (T2 y))), (Rng (noise g) (pos g + n * d)), ll.
  split; [exact Hy|]. split; [exact Hll|]. split; [exact Hlen|].
  intros i Hi. rewrite (Hn i Hi). unfold gaussian_density.
  rewrite (Sigma_ext d _ (fun j => normal_draw g d i j ^ 2)); [reflexivity|].
  intros j Hj. rewrite (He i j Hi Hj). f_equal. field. apply Hnz; assumption.
Qed.

Lemma gaussian_log_prob_of_sample_witness :
  exists y g' ll,
    sample slab2 x1 quiet = Ok (y, g') /\
    log_prob slab2 x1 y = Ok ll /\
    length ll = 1%nat /\
    forall i, (i < 1)%nat ->
      nth i ll 0
      = - (1/2) * Sigma 2 (fun j => normal_draw quiet 2 i j ^ 2)
        - Sigma 2 (fun j => ln (entry (mcall (const_mat [] [1; 1]) x1) i j))
        - INR 2 / 2 * ln (2 * PI).
Proof.
  apply (gaussian_log_prob_of_sample
           (const_mat [] [1; 0]) (const_mat [] [1; 1]) x1 quiet 1 2).
  - exact (x1_shape [1; 0]).
  - exact (x1_shape [1; 1]).
  - intros i j Hi Hj. assert (i = 0%nat) as -> by lia.
    destruct j as [|[|j]]; [| |lia]; cbv [entry mcall const_mat mrows map x1 nth];
      lra.
Defined.

(** ** The spike and slab distribution *)

Lemma bdim_1_l (d : nat) : bdim 1 d = Some d.
Proof. unfold bdim. destruct d as [|[|d]]; reflexivity. Qed.

Lemma expand_singleton {A} (d : nat) (e : A) : expand d [e] = repeat e d.
Proof. unfold expand. destruct d as [|[|d]]; reflexivity. Qed.

Lemma nth_scale_row (e : R) (r : list R) (j : nat) :
  (j < length r)%nat ->
  nth j (zip_with Rmult (repeat e (length r)) r) 0 = e * nth j r 0.
Proof.
  intros Hj. rewrite zip_with_repeat. apply nth_map_in; exact Hj.
Qed.

(** X7. The mean of a spike and slab distribution with a Bernoulli spike
    and a Gaussian slab is, entry by entry, the probability of an active
    support times the slab mean: forward(x)[i, j] = exp(log_prob_fcn(x)[i]) *
    mn_f(x)[i, j]. *)
Theorem spike_slab_forward_mean :
  forall (d' : nat) (log_prob_fcn : VecModule) (mn_f std_f : MatModule)
         (x : mat R) (d : nat),
    length (vcall log_prob_fcn x) = nrows x ->
    has_shape (mcall mn_f x) (nrows x) d ->
    exists m,
      forward (CondSpikeSlabDistribution d'
                 (CondBernoulliDistribution log_prob_fcn)
                 (CondGaussianDistribution mn_f std_f)) x = Ok (FT (T2 m)) /\
      has_shape m (nrows x) d /\
      forall i j, (i < nrows x)%nat -> (j < d)%nat ->
        entry m i j
        = exp (nth i (vcall log_prob_fcn x) 0) * entry (mcall mn_f x) i j.
Proof.
  intros d' f mn_f std_f x d Hlp Hm.
  assert (Hn : length (mrows (mcall mn_f x)) = nrows x) by apply Hm.
  assert (Hc : ncols (mcall mn_f x) = d) by apply Hm.
  assert (Hf : Forall (fun r => length r = d) (mrows (mcall mn_f x))) by apply Hm.
  cbn [forward].
  rewrite (bernoulli_log_prob_const f x 1 Hlp), nzR_1. cbn [bind].
  rewrite map_id. cbn [mul_column]. unfold bcast2, nrows at 1 2. cbn [mrows ncols].
  rewrite length_map, Hlp, Hn, Hc, bdim_same, bdim_1_l. cbn [bind].
  rewrite !expand_same by (rewrite ?length_map; congruence).
  set (rows := zip_with _ _ _).
  assert (Hrow : forall i, (i < nrows x)%nat ->
            nth i rows [] = map (Rmult (exp (nth i (vcall f x) 0)))
                                (nth i (mrows (mcall mn_f x)) [])).
  { intros i Hi. unfold rows.
    rewrite (nth_zip_with _ _ _ _ [] []) by (rewrite ?length_map; lia).
    rewrite (nth_map_in _ _ _ 0) by lia.
    rewrite expand_singleton, expand_same by (apply (row_length _ _ _ i Hm Hi)).
    rewrite <- (row_length _ _ _ i Hm Hi) at 1. apply zip_with_repeat. }
  assert (Lrows : length rows = nrows x)
    by (unfold rows; rewrite length_zip_with; rewrite ?length_map; congruence).
  exists (Mat d rows). split; [reflexivity|]. split.
  - repeat split; cbn [mrows]; [exact Lrows|].
    apply Forall_forall. intros r Hr.
    destruct (In_nth _ _ [] Hr) as (i & Hi & <-). rewrite Lrows in Hi.
    rewrite (Hrow i Hi), length_map. apply (row_length _ _ _ i Hm Hi).
  - intros i j Hi Hj. unfold entry; cbn [mrows]. rewrite (Hrow i Hi).
    apply nth_map_in. rewrite (row_length _ _ _ i Hm Hi); exact Hj.
Qed.

Lemma spike_slab_forward_mean_witness :
  exists m,
    forward (CondSpikeSlabDistribution 2 coin slab2) x1 = Ok (FT (T2 m)) /\
    has_shape m (nrows x1) 2 /\
    forall i j, (i < nrows x1)%nat -> (j < 2)%nat ->
      entry m i j
      = exp (nth i (vcall (const_vec [] (ln (1/2))) x1) 0)
        * entry (mcall (const_mat [] [1; 0]) x1) i j.
Proof.
  apply (spike_slab_forward_mean 2 (const_vec [] (ln (1/2)))
           (const_mat [] [1; 0]) (const_mat [] [1; 1]) x1 2).
  - reflexivity.
  - exact (x1_shape [1; 0]).
Defined.




Lemma const_mat_contract (row : list R) :
  forall x', has_shape (mcall (const_mat [] row) x') (nrows x') (length row).
Proof.
  intros x'. cbn [mcall const_mat]. repeat split; cbn [mrows].
  - apply length_map.
  - apply Forall_forall. intros r Hr. apply in_map_iff in Hr.
    destruct Hr as (r' & <- & _). reflexivity.
Qed.


Lemma mask_select_assign {A} (m : list bool) (base vals : list A) :
  length m = length base -> length vals = count_true m ->
  mask_select m (mask_assign m base vals) = vals.
Proof.
  revert base vals; induction m as [|b m IH]; intros [|a base] vals Hl Hv;
    try discriminate.
  - destruct vals; [reflexivity | discriminate].
  - rewrite count_true_cons in Hv. injection Hl as Hl.
    destruct b; [destruct vals as [|v vals]; [discriminate|]|];
      cbn [mask_assign mask_select].
    + f_equal. apply IH; [exact Hl | cbn in Hv; lia].
    + apply IH; [exact Hl | cbn in Hv; lia].
Qed.

Lemma active_zero_row (d : nat) : (0 < d)%nat -> active d (repeat 0 d) = false.
Proof.
  intros Hd. unfold active.
  assert (Hz : Forall (fun a => a = 0) (repeat 0 d))
    by (apply Forall_forall; intros a Ha; apply repeat_spec in Ha; exact Ha).
  destruct (count_true_zero_row _ Hz) as (-> & _). apply Nat.eqb_neq. lia.
Qed.

Lemma active_nonzero_row (d : nat) (r : list R) : nonzero_row d r -> active d r = true.
Proof.
  intros (Hl & Hnz). unfold active.
  rewrite (count_true_nonzero_row r Hnz), Hl. apply Nat.eqb_refl.
Qed.

Lemma active_assign (d : nat) (m : list bool) (vals : list (list R)) :
  (0 < d)%nat -> length vals = count_true m -> Forall (nonzero_row d) vals ->
  map (active d) (mask_assign m (repeat (repeat 0 d) (length m)) vals) = m.
Proof.
  intros Hd. revert vals; induction m as [|b m IH]; intros vals Hv Hnz;
    [reflexivity|].
  rewrite count_true_cons in Hv. cbn [length repeat mask_assign].
  destruct b.
  - destruct vals as [|v vals]; [discriminate|].
    inversion Hnz as [|? ? Hv0 Hnz']; subst. cbn [map].
    rewrite (active_nonzero_row d v Hv0), IH by (assumption || (cbn in Hv; lia)).
    reflexivity.
  - cbn [map]. rewrite (active_zero_row d Hd), IH by (assumption || (cbn in Hv; lia)).
    reflexivity.
Qed.

Lemma nonzero_rows_shape (d : nat) (vals : list (list R)) :
  Forall (nonzero_row d) vals -> Forall (fun r => length r = d) vals.
Proof. apply Forall_impl. intros r Hr; apply Hr. Qed.

Lemma expand_rows (d : nat) (vals : list (list R)) :
  Forall (fun r => length r = d) vals -> map (expand d) vals = vals.
Proof.
  induction 1 as [|r vals Hr _ IH]; [reflexivity|].
  cbn [map]. rewrite IH, (expand_same _ _ Hr). reflexivity.
Qed.

Lemma spike_slab_standard_of_compact (d : nat) (m : list bool) (vals : list (list R)) :
  length vals = count_true m -> Forall (fun r => length r = d) vals ->
  spike_slab_form_standard_sample d
    (PList [PInt (length m); PTensor (BT (T1 m)); PTensor (FT (T2 (Mat d vals)))])
  = Ok (PTensor (FT (T2 (Mat d (mask_assign m (repeat (repeat 0 d) (length m)) vals))))).
Proof.
  intros Hv Hl. unfold spike_slab_form_standard_sample.
  cbn [unpack3 py_iter bind as_count trank rank Nat.ltb Nat.leb as_index].
  rewrite Nat.eqb_refl. unfold broadcast_to, nrows. cbn [mrows ncols].
  rewrite Hv, !Nat.eqb_refl. cbn [orb andb bind].
  rewrite (expand_same _ _ Hv), (expand_rows d vals Hl). reflexivity.
Qed.

(** X9. The standard form of a spike and slab compact sample has one row of
    d entries per sample: the row of the next active sample where the
    support is set, and zeros elsewhere. When the support mask has not the
    length n_smps, form_standard_sample raises IndexError. *)
Theorem spike_slab_standard_rows :
  forall (d : nat) (spike_d slab_d : Dist) (m : list bool) (vals : list (list R)),
    has_shape (Mat d vals) (count_true m) d ->
    (exists S,
        form_standard_sample (CondSpikeSlabDistribution d spike_d slab_d)
          (PList [PInt (length m); PTensor (BT (T1 m));
                  PTensor (FT (T2 (Mat d vals)))])
        = Ok (PTensor (FT (T2 S))) /\
        has_shape S (length m) d /\
        forall i, (i < length m)%nat ->
          nth i (mrows S) []
          = if nth i m false then nth (rank_in m i) vals [] else repeat 0 d)
    /\
    (forall n, n <> length m ->
        form_standard_sample (CondSpikeSlabDistribution d spike_d slab_d)
          (PList [PInt n; PTensor (BT (T1 m)); PTensor (FT (T2 (Mat d vals)))])
        = Raise IndexError).
Proof.
  intros d spike_d slab_d m vals (_ & Hv & Hl). cbn [mrows] in Hv, Hl. split.
  - exists (Mat d (mask_assign m (repeat (repeat 0 d) (length m)) vals)).
    split; [apply spike_slab_standard_of_compact; assumption|].
    assert (Hnth : forall i, (i < length m)%nat ->
              nth i (mask_assign m (repeat (repeat 0 d) (length m)) vals) []
              = if nth i m false then nth (rank_in m i) vals [] else repeat 0 d).
    { intros i Hi. rewrite nth_mask_assign
        by (rewrite ?repeat_length; congruence || lia).
      destruct (nth i m false); [reflexivity|].
      apply nth_repeat_lt; exact Hi. }
    split.
    + repeat split; cbn [mrows].
      * rewrite length_mask_assign, repeat_length; reflexivity.
      * apply Forall_forall. intros r Hr.
        destruct (In_nth _ _ [] Hr) as (i & Hi & <-).
        rewrite length_mask_assign, repeat_length in Hi. rewrite (Hnth i Hi).
        destruct (nth i m false) eqn:Ei; [|apply repeat_length].
        rewrite Forall_forall in Hl. apply Hl, nth_In.
        rewrite Hv. apply rank_in_lt; exact Ei.
    + exact Hnth.
  - intros n Hn. cbn [form_standard_sample].
    unfold spike_slab_form_standard_sample.
    cbn [unpack3 py_iter bind as_count trank rank Nat.ltb Nat.leb as_index].
    destruct (length m =? n)%nat eqn:E; [apply Nat.eqb_eq in E; congruence|].
    reflexivity.
Qed.

Lemma spike_slab_standard_rows_witness :
  (exists S,
      form_standard_sample spike_slab2
        (PList [PInt (length [true; false]); PTensor (BT (T1 [true; false]));
                PTensor (FT (T2 (Mat 2 [[1; 2]])))])
      = Ok (PTensor (FT (T2 S))) /\
      has_shape S (length [true; false]) 2 /\
      forall i, (i < length [true; false])%nat ->
        nth i (mrows S) []
        = if nth i [true; false] false
          then nth (rank_in [true; false] i) [[1; 2]] [] else repeat 0 2)
  /\
  (forall n, n <> length [true; false] ->
      form_standard_sample spike_slab2
        (PList [PInt n; PTensor (BT (T1 [true; false]));
                PTensor (FT (T2 (Mat 2 [[1; 2]])))])
      = Raise IndexError).
Proof.
  apply (spike_slab_standard_rows 2 (CondBernoulliDistribution sure) slab2
           [true; false] [[1; 2]]).
  repeat split. repeat constructor.
Defined.

Lemma no_active_mask (m : list bool) :
  count_true m = 0%nat -> m = repeat false (length m).
Proof.
  induction m as [|b m IH]; [reflexivity|]. rewrite count_true_cons.
  destruct b; [lia|]. cbn. intros H. f_equal. apply IH; exact H.
Qed.

(** X10. For a spike and slab distribution over d > 1 variables, a compact
    sample (n, support, nz_vls) in the form sample returns it, with no
    zero among the active values, is recovered from its standard form:
    form_compact_sample(form_standard_sample(c)) = c. *)
Theorem spike_slab_compact_round_trip :
  forall (d : nat) (spike_d slab_d : Dist) (m : list bool) (vals : list (list R)),
    (1 < d)%nat ->
    length vals = count_true m ->
    Forall (nonzero_row d) vals ->
    (s <- form_standard_sample (CondSpikeSlabDistribution d spike_d slab_d)
            (compact_of m d vals) ;;
     form_compact_sample (CondSpikeSlabDistribution d spike_d slab_d) s)
    = Ok (compact_of m d vals).
Proof.
  intros d spike_d slab_d m vals Hd Hv Hnz. unfold compact_of.
  assert (E1 : (1 <? d)%nat = true) by (apply Nat.ltb_lt; exact Hd).
  cbn [form_standard_sample form_compact_sample].
  destruct (count_true m =? 0)%nat eqn:E.
  - apply Nat.eqb_eq in E.
    unfold spike_slab_form_standard_sample.
    cbn [unpack3 py_iter bind as_count].
    unfold spike_slab_form_compact_sample, zeros2.
    cbn [shape0 bind nz_mask nz_shaped mrows]. rewrite E1. cbn [bind].
    unfold nrows; cbn [mrows]. rewrite repeat_length, map_map.
    change (fun x : list R => (count_true (map nzR x) =? d)%nat) with (active d).
    rewrite map_repeat, (active_zero_row d) by lia.
    rewrite <- (no_active_mask m E).
    rewrite py_any_mask, existsb_count_true, E. reflexivity.
  - rewrite spike_slab_standard_of_compact
      by (try apply nonzero_rows_shape; assumption).
    cbn [bind]. unfold spike_slab_form_compact_sample.
    cbn [shape0 bind nz_mask nz_shaped mrows]. rewrite E1. cbn [bind].
    unfold nrows; cbn [mrows]. rewrite map_map.
    change (fun x : list R => (count_true (map nzR x) =? d)%nat) with (active d).
    rewrite active_assign by (assumption || lia).
    rewrite py_any_mask, existsb_count_true, E. cbn [negb getitem_rows].
    unfold select_rows, nrows. cbn [mrows ncols].
    rewrite !length_mask_assign, repeat_length, Nat.eqb_refl. cbn [bind].
    rewrite mask_select_assign by (rewrite ?repeat_length; congruence).
    reflexivity.
Qed.

Lemma spike_slab_compact_round_trip_witness :
  (s <- form_standard_sample spike_slab2 (compact_of [true; false] 2 [[1; 2]]) ;;
   form_compact_sample spike_slab2 s)
  = Ok (compact_of [true; false] 2 [[1; 2]]).
Proof.
  apply (spike_slab_compact_round_trip 2 (CondBernoulliDistribution sure) slab2
           [true; false] [[1; 2]]).
  - lia.
  - reflexivity.
  - constructor; [|constructor]. split; [reflexivity|].
    repeat constructor; lra.
Defined.

(** ** The matrix product distribution *)

Lemma length_cat_rows {A} (n : nat) (ms : list (mat A)) :
  Forall (fun m => nrows m = n) ms -> length (cat_rows n ms) = n.
Proof.
  induction 1 as [|m ms Hm _ IH]; cbn [cat_rows]; [apply repeat_length|].
  rewrite length_zip_with; [exact Hm | rewrite IH; symmetry; exact Hm].
Qed.

Lemma nth_cat_rows {A} (n i : nat) (ms : list (mat A)) :
  Forall (fun m => nrows m = n) ms -> (i < n)%nat ->
  nth i (cat_rows n ms) [] = concat (map (fun m => nth i (mrows m) []) ms).
Proof.
  intros H Hi. induction H as [|m ms Hm Hms IH]; cbn [cat_rows map concat].
  - apply nth_repeat_lt; exact Hi.
  - rewrite (nth_zip_with _ _ _ _ [] [])
      by (rewrite ?length_cat_rows by assumption; unfold nrows in Hm; lia).
    rewrite IH. reflexivity.
Qed.

Lemma cat_mats_ok {A} (n : nat) (ms : list (mat A)) :
  ms <> [] -> Forall (fun m => nrows m = n) ms ->
  cat_mats ms = Ok (Mat (list_sum (map (@ncols A) ms)) (cat_rows n ms)).
Proof.
  intros Hne H. destruct ms as [|m ms]; [contradiction|]. unfold cat_mats.
  assert (Hm : nrows m = n) by (inversion H; assumption).
  assert (E : forallb (fun m' => (nrows m' =? nrows m)%nat) (m :: ms) = true).
  { apply forallb_forall. intros m' Hin. rewrite Forall_forall in H.
    rewrite (H m' Hin), Hm. apply Nat.eqb_refl. }
  rewrite E, Hm. reflexivity.
Qed.

Lemma zipM_log_prob_cols (x : mat R) (cols : list (Dist * pyval * list R)) :
  Forall (fun c => log_prob (fst (fst c)) x (snd (fst c)) = Ok (snd c) /\
                   length (snd c) = nrows x) cols ->
  zipM (fun d c_s => ll <- log_prob d x c_s ;; view_col (nrows x) ll)
       (map (fun c => fst (fst c)) cols) (map (fun c => snd (fst c)) cols)
  = Ok (map (fun c => Mat 1 (map (fun a => [a]) (snd c))) cols).
Proof.
  induction 1 as [|c cols (Hc & Lc) _ IH]; [reflexivity|].
  cbn [map zipM]. rewrite Hc. cbn [bind]. unfold view_col at 1.
  rewrite Lc, Nat.eqb_refl. cbn [bind]. rewrite IH. reflexivity.
Qed.

Lemma matrix_product_log_prob_cols (x : mat R) (cols : list (Dist * pyval * list R)) :
  cols <> [] ->
  Forall (fun c => log_prob (fst (fst c)) x (snd (fst c)) = Ok (snd c) /\
                   length (snd c) = nrows x) cols ->
  exists ll,
    log_prob (CondMatrixProductDistribution (map (fun c => fst (fst c)) cols)) x
      (PList (map (fun c => snd (fst c)) cols)) = Ok ll /\
    length ll = nrows x /\
    forall i, (i < nrows x)%nat ->
      nth i ll 0 = tsum (map (fun c => nth i (snd c) 0) cols).
Proof.
  intros Hne H. cbn [log_prob py_iter bind].
  rewrite (zipM_log_prob_cols x cols H). cbn [bind].
  set (ms := map (fun c => Mat 1 (map (fun a => [a]) (snd c))) cols).
  assert (Hms : Forall (fun m => nrows m = nrows x) ms).
  { apply Forall_forall. intros m Hm. apply in_map_iff in Hm.
    destruct Hm as (c & <- & Hc). rewrite Forall_forall in H.
    unfold nrows at 1; cbn [mrows]. rewrite length_map. apply (H c Hc). }
  rewrite (cat_mats_ok (nrows x) ms)
    by (first [assumption | unfold ms; destruct cols; [contradiction|discriminate]]).
  cbn [bind mrows]. eexists. split; [reflexivity|]. split.
  - rewrite length_map. apply length_cat_rows; exact Hms.
  - intros i Hi.
    rewrite (nth_map_in _ _ _ []) by (rewrite length_cat_rows by exact Hms; exact Hi).
    rewrite (nth_cat_rows _ _ _ Hms Hi). unfold ms. rewrite map_map. cbn [mrows].
    f_equal. clear ms Hms Hne. induction H as [|c cols (_ & Lc) _ IH]; [reflexivity|].
    cbn [map concat]. rewrite IH.
    rewrite (nth_map_in _ _ _ 0) by lia. reflexivity.
Qed.

(** X11. For a matrix product with any positive number of columns, when
    each column's log_prob returns one entry per row of x, log_prob of the
    matrix product is, row by row, the sum over the columns of the
    columns' log probabilities. *)
Theorem matrix_product_log_prob_sum :
  forall (x : mat R) (cols : list (Dist * pyval * list R)),
    cols <> [] ->
    Forall (fun c => log_prob (fst (fst c)) x (snd (fst c)) = Ok (snd c) /\
                     length (snd c) = nrows x) cols ->
    exists ll,
      log_prob (CondMatrixProductDistribution (map (fun c => fst (fst c)) cols)) x
        (PList (map (fun c => snd (fst c)) cols)) = Ok ll /\
      length ll = nrows x /\
      forall i, (i < nrows x)%nat ->
        nth i ll 0 = tsum (map (fun c => nth i (snd c) 0) cols).
Proof. intros. apply matrix_product_log_prob_cols; assumption. Qed.

Lemma matrix_product_log_prob_sum_witness :
  exists ll,
    log_prob (CondMatrixProductDistribution [coin; coin; coin]) x2
      (PList [PTensor (BT (T1 [true; false])); PTensor (BT (T1 [true; false]));
              PTensor (BT (T1 [true; false]))]) = Ok ll /\
    length ll = nrows x2 /\
    forall i, (i < nrows x2)%nat ->
      nth i ll 0
      = tsum (map (fun c : Dist * pyval * list R => nth i (snd c) 0)
                [(coin, PTensor (BT (T1 [true; false])),
                  [ln (1/2); ln (1 - exp (ln (1/2)))]);
                 (coin, PTensor (BT (T1 [true; false])),
                  [ln (1/2); ln (1 - exp (ln (1/2)))]);
                 (coin, PTensor (BT (T1 [true; false])),
                  [ln (1/2); ln (1 - exp (ln (1/2)))])]).
Proof.
  apply (matrix_product_log_prob_sum x2
           [(coin, PTensor (BT (T1 [true; false])), [ln (1/2); ln (1 - exp (ln (1/2)))]);
            (coin, PTensor (BT (T1 [true; false])), [ln (1/2); ln (1 - exp (ln (1/2)))]);
            (coin, PTensor (BT (T1 [true; false])), [ln (1/2); ln (1 - exp (ln (1/2)))])]).
  - discriminate.
  - repeat constructor; exact (coin_log_prob [true; false] eq_refl).
Defined.

Lemma zipM_surplus_left {A B C} (f : A -> B -> result C) la more lb :
  length lb = length la -> zipM f (la ++ more) lb = zipM f la lb.
Proof.
  revert lb; induction la as [|a la IH]; intros [|b lb] H; try discriminate.
  - destruct more; reflexivity.
  - cbn [app zipM]. injection H as H. rewrite (IH lb H). reflexivity.
Qed.

Lemma zipM_surplus_right {A B C} (f : A -> B -> result C) la lb more :
  length lb = length la -> zipM f la (lb ++ more) = zipM f la lb.
Proof.
  revert lb; induction la as [|a la IH]; intros [|b lb] H; try discriminate.
  - reflexivity.
  - cbn [app zipM]. injection H as H. rewrite (IH lb H). reflexivity.
Qed.

(** X12. A matrix product pairs its columns with the per-column samples and
    stops at the shorter list without an error: columns beyond the samples
    given, and samples beyond the columns, do not change log_prob or
    form_standard_sample. *)
Theorem matrix_product_ignores_surplus :
  forall (dists more : list Dist) (ys more_ys : list pyval) (x : mat R),
    length ys = length dists ->
    log_prob (CondMatrixProductDistribution (dists ++ more)) x (PList ys)
    = log_prob (CondMatrixProductDistribution dists) x (PList ys) /\
    log_prob (CondMatrixProductDistribution dists) x (PList (ys ++ more_ys))
    = log_prob (CondMatrixProductDistribution dists) x (PList ys) /\
    form_standard_sample (CondMatrixProductDistribution (dists ++ more)) (PList ys)
    = form_standard_sample (CondMatrixProductDistribution dists) (PList ys) /\
    form_standard_sample (CondMatrixProductDistribution dists) (PList (ys ++ more_ys))
    = form_standard_sample (CondMatrixProductDistribution dists) (PList ys).
Proof.
  intros dists more ys more_ys x H. repeat split;
    cbn [log_prob form_standard_sample py_iter bind];
    rewrite ?zipM_surplus_left, ?zipM_surplus_right by exact H; reflexivity.
Qed.

Lemma matrix_product_ignores_surplus_witness :
  log_prob (CondMatrixProductDistribution ([coin] ++ [std_normal])) x2
    (PList [PTensor (BT (T1 [true; false]))])
  = log_prob (CondMatrixProductDistribution [coin]) x2
      (PList [PTensor (BT (T1 [true; false]))]) /\
  log_prob (CondMatrixProductDistribution [coin]) x2
    (PList ([PTensor (BT (T1 [true; false]))] ++ [PNone]))
  = log_prob (CondMatrixProductDistribution [coin]) x2
      (PList [PTensor (BT (T1 [true; false]))]) /\
  form_standard_sample (CondMatrixProductDistribution ([coin] ++ [std_normal]))
    (PList [PTensor (BT (T1 [true; false]))])
  = form_standard_sample (CondMatrixProductDistribution [coin])
      (PList [PTensor (BT (T1 [true; false]))]) /\
  form_standard_sample (CondMatrixProductDistribution [coin])
    (PList ([PTensor (BT (T1 [true; false]))] ++ [PNone]))
  = form_standard_sample (CondMatrixProductDistribution [coin])
      (PList [PTensor (BT (T1 [true; false]))]).
Proof.
  apply (matrix_product_ignores_surplus [coin] [std_normal]
           [PTensor (BT (T1 [true; false]))] [PNone] x2).
  reflexivity.
Defined.

Lemma mapM_forward_gaussian (x : mat R) (cols : list (MatModule * MatModule)) :
  mapM (fun d => forward d x) (gaussian_columns cols)
  = Ok (map (fun c => FT (T2 (mcall (fst c) x))) cols).
Proof.
  unfold gaussian_columns. induction cols as [|c cols IH]; [reflexivity|].
  cbn [map mapM]. rewrite IH. reflexivity.
Qed.

Lemma mapM_forward_bernoulli (x : mat R) (fs : list VecModule) :
  mapM (fun d => forward d x) (map CondBernoulliDistribution fs)
  = Ok (map (fun f => FT (T1 (map exp (vcall f x)))) fs).
Proof.
  induction fs as [|f fs IH]; [reflexivity|].
  cbn [map mapM]. rewrite IH. reflexivity.
Qed.

Lemma forward_matrix_product (dists : list Dist) (x : mat R) :
  forward (CondMatrixProductDistribution dists) x
  = (l <- mapM (fun d => forward d x) dists ;; cat1_tensors l).
Proof. reflexivity. Qed.

(** X13. The mean of a matrix product of Gaussian columns whose mean
    tensors all have n rows is their concatenation along the columns: row
    i is the concatenation of row i of every column's mean. The means of
    Bernoulli columns are rank 1 tensors, which cannot be concatenated
    along dimension 1: the mean of a matrix product of Bernoulli columns
    raises IndexError. *)
Theorem matrix_product_forward :
  forall (x : mat R),
    (forall (cols : list (MatModule * MatModule)) (n : nat),
        cols <> [] ->
        Forall (fun c => nrows (mcall (fst c) x) = n) cols ->
        exists M,
          forward (CondMatrixProductDistribution (gaussian_columns cols)) x
          = Ok (FT (T2 M)) /\
          ncols M = list_sum (map (fun c => ncols (mcall (fst c) x)) cols) /\
          nrows M = n /\
          forall i, (i < n)%nat ->
            nth i (mrows M) []
            = concat (map (fun c => nth i (mrows (mcall (fst c) x)) []) cols))
    /\
    (forall (fs : list VecModule),
        fs <> [] ->
        Forall (fun f => vcall f x <> []) fs ->
        forward (CondMatrixProductDistribution (map CondBernoulliDistribution fs)) x
        = Raise IndexError).
Proof.
  intros x. split.
  - intros cols n Hne Hn. rewrite forward_matrix_product.
    rewrite mapM_forward_gaussian. cbn [bind]. unfold cat1_tensors.
    set (ms := map (fun c => mcall (fst c) x) cols).
    replace (map PTensor (map (fun c => FT (T2 (mcall (fst c) x))) cols))
      with (map (fun m => PTensor (FT (T2 m))) ms)
      by (unfold ms; rewrite !map_map; reflexivity).
    assert (Hms : Forall (fun m => nrows m = n) ms).
    { apply Forall_forall. intros m Hm. apply in_map_iff in Hm.
      destruct Hm as (c & <- & Hc). rewrite Forall_forall in Hn. apply (Hn c Hc). }
    assert (Hne' : ms <> [])
      by (unfold ms; destruct cols; [contradiction|discriminate]).
    rewrite (cat1_floats ms Hne'), (cat_mats_ok n ms Hne' Hms). cbn [bind].
    eexists. split; [reflexivity|]. cbn [ncols mrows]. split; [|split].
    + unfold ms. rewrite map_map. reflexivity.
    + unfold nrows; cbn [mrows]. apply length_cat_rows; exact Hms.
    + intros i Hi. rewrite (nth_cat_rows _ _ _ Hms Hi). unfold ms.
      rewrite map_map. reflexivity.
  - intros fs Hne Hnz. rewrite forward_matrix_product.
    rewrite mapM_forward_bernoulli. cbn [bind]. unfold cat1_tensors, cat1.
    rewrite map_map.
    assert (Ht : all_tensors (map (fun f => PTensor (FT (T1 (map exp (vcall f x))))) fs)
                 = Ok (map (fun f => FT (T1 (map exp (vcall f x)))) fs)).
    { clear. induction fs as [|f fs IH]; [reflexivity|].
      cbn [map all_tensors]. rewrite IH. reflexivity. }
    rewrite Ht. cbn [bind].
    assert (He : existsb is_empty_vec
                   (map (fun f => FT (T1 (map exp (vcall f x)))) fs) = false).
    { clear Ht Hne. induction Hnz as [|f fs Hf _ IH]; [reflexivity|].
      cbn [map existsb]. rewrite IH. destruct (vcall f x); [contradiction|reflexivity]. }
    assert (H0 : existsb (fun t => (trank t =? 0)%nat)
                   (map (fun f => FT (T1 (map exp (vcall f x)))) fs) = false)
      by (clear; induction fs; cbn; auto).
    rewrite He, H0. destruct fs as [|f fs]; [contradiction|]. reflexivity.
Qed.

Lemma matrix_product_forward_witness :
  (exists M,
      forward (CondMatrixProductDistribution
                 (gaussian_columns [(const_mat [] [1; 0], const_mat [] [1; 1]);
                                    (const_mat [] [0], const_mat [] [1])])) x1
      = Ok (FT (T2 M)) /\
      ncols M = list_sum (map (fun c : MatModule * MatModule => ncols (mcall (fst c) x1))
                            [(const_mat [] [1; 0], const_mat [] [1; 1]);
                             (const_mat [] [0], const_mat [] [1])]) /\
      nrows M = 1%nat /\
      forall i, (i < 1)%nat ->
        nth i (mrows M) []
        = concat (map (fun c : MatModule * MatModule =>
                         nth i (mrows (mcall (fst c) x1)) [])
                    [(const_mat [] [1; 0], const_mat [] [1; 1]);
                     (const_mat [] [0], const_mat [] [1])]))
  /\
  forward (CondMatrixProductDistribution
             (map CondBernoulliDistribution [const_vec [] (ln (1/2)); sure])) x1
  = Raise IndexError.
Proof.
  destruct (matrix_product_forward x1) as (H1 & H2). split.
  - apply (H1 [(const_mat [] [1; 0], const_mat [] [1; 1]);
               (const_mat [] [0], const_mat [] [1])] 1%nat).
    + discriminate.
    + repeat constructor.
  - apply (H2 [const_vec [] (ln (1/2)); sure]).
    + discriminate.
    + repeat constructor; discriminate.
Defined.

Lemma sample_matrix_product (dists : list Dist) (x : mat R) (g : rng) :
  sample (CondMatrixProductDistribution dists) x g
  = ('(l, g) <- mapM_st (fun d g => sample d x g) dists g ;; Ok (PList l, g)).
Proof. reflexivity. Qed.

Lemma mapM_st_gaussian_columns (x : mat R) (cols : list (MatModule * MatModule)) :
  Forall (well_shaped x) cols ->
  forall g, exists (tr : list (Dist * pyval * list R)) (g' : rng),
    mapM_st (fun d g => sample d x g) (gaussian_columns cols) g
    = Ok (map (fun c => snd (fst c)) tr, g') /\
    map (fun c => fst (fst c)) tr = gaussian_columns cols /\
    Forall (fun c => log_prob (fst (fst c)) x (snd (fst c)) = Ok (snd c) /\
                     length (snd c) = nrows x) tr /\
    noise g' = noise g /\
    pos g' = (pos g + nrows x * list_sum (map (fun c => ncols (mcall (fst c) x)) cols))%nat.
Proof.
  unfold gaussian_columns.
  induction 1 as [|c cols (Hm & Hs) _ IH]; intros g.
  - exists [], g. cbn. repeat split; [constructor | lia].
  - destruct (gaussian_sample_rows (fst c) (snd c) x g _ _ Hm Hs)
      as (y & Hy & Hsh & _).
    destruct (gaussian_log_prob_rows (fst c) (snd c) x y _ _ Hsh Hm Hs)
      as (ll & Hll & Hlen & _).
    destruct (IH (Rng (noise g) (pos g + nrows x * ncols (mcall (fst c) x))))
      as (tr & g' & Htr & Hd & Hf & Hn & Hp).
    exists ((CondGaussianDistribution (fst c) (snd c), PTensor (FT (T2 y)), ll) :: tr), g'.
    cbn [map mapM_st]. rewrite Hy. cbn [bind]. rewrite Htr. cbn [bind fst snd].
    split; [reflexivity|]. split; [rewrite Hd; reflexivity|].
    split; [constructor; [split; [exact Hll | exact Hlen] | exact Hf]|].
    split; [exact Hn|]. rewrite Hp. cbn [pos list_sum fold_right]. unfold list_sum. lia.
Qed.

(** X14. A matrix product of Gaussian columns whose mean and scale tensors
    have the rows of x samples its columns one after the other from
    consecutive draws: sample returns one compact sample per column and
    advances the generator by n times the total number of variables, and
    log_prob accepts the result, giving one entry per row of x. *)
Theorem matrix_product_sample_accepted :
  forall (x : mat R) (cols : list (MatModule * MatModule)) (g : rng),
    Forall (well_shaped x) cols ->
    exists ys g',
      sample (CondMatrixProductDistribution (gaussian_columns cols)) x g
      = Ok (PList ys, g') /\
      length ys = length cols /\
      noise g' = noise g /\
      pos g' = (pos g + nrows x * list_sum (map (fun c => ncols (mcall (fst c) x)) cols))%nat /\
      (cols <> [] ->
       exists ll,
         log_prob (CondMatrixProductDistribution (gaussian_columns cols)) x (PList ys)
         = Ok ll /\
         length ll = nrows x).
Proof.
  intros x cols g H.
  destruct (mapM_st_gaussian_columns x cols H g) as (tr & g' & Htr & Hd & Hf & Hn & Hp).
  exists (map (fun c => snd (fst c)) tr), g'.
  rewrite sample_matrix_product, Htr. cbn [bind].
  split; [reflexivity|]. split.
  - rewrite length_map, <- (length_map (fun c => fst (fst c)) tr), Hd.
    unfold gaussian_columns. apply length_map.
  - split; [exact Hn|]. split; [exact Hp|]. intros Hne.
    assert (Htrne : tr <> []).
    { intros ->. cbn in Hd. destruct cols; [contradiction|discriminate]. }
    destruct (matrix_product_log_prob_cols x tr Htrne Hf) as (ll & Hll & Hlen & _).
    exists ll. rewrite <- Hd. split; assumption.
Qed.

Lemma matrix_product_sample_accepted_witness :
  exists ys g',
    sample (CondMatrixProductDistribution (gaussian_columns normal_columns)) x2 quiet
    = Ok (PList ys, g') /\
    length ys = length normal_columns /\
    noise g' = noise quiet /\
    pos g' = (pos quiet + nrows x2 *
              list_sum (map (fun c : MatModule * MatModule => ncols (mcall (fst c) x2))
                          normal_columns))%nat /\
    (normal_columns <> [] ->
     exists ll,
       log_prob (CondMatrixProductDistribution (gaussian_columns normal_columns)) x2
         (PList ys) = Ok ll /\
       length ll = nrows x2).
Proof.
  apply (matrix_product_sample_accepted x2 normal_columns quiet).
  constructor; [|constructor; [|constructor]].
  - split; [exact (const_mat_contract [1; 0] x2) | exact (const_mat_contract [1; 1] x2)].
  - split; [exact (const_mat_contract [0] x2) | exact (const_mat_contract [1] x2)].
Defined.

(** ** Trainable parameters *)

Lemma In_dedup (p : param) (l : list param) : In p (dedup l) <-> In p l.
Proof.
  induction l as [|q l IH]; [reflexivity|]. cbn [dedup]. split.
  - intros [-> | H]; [left; reflexivity|].
    apply filter_In in H. right. apply IH, H.
  - intros [-> | H]; [left; reflexivity|].
    destruct (Nat.eq_dec p q) as [-> | Hne]; [left; reflexivity|].
    right. apply filter_In. split; [apply IH, H|].
    apply negb_true_iff, Nat.eqb_neq. exact Hne.
Qed.

Lemma NoDup_dedup (l : list param) : NoDup (dedup l).
Proof.
  induction l as [|q l IH]; [constructor|]. cbn [dedup]. constructor.
  - intros H. apply filter_In in H. destruct H as (_ & H).
    rewrite Nat.eqb_refl in H. discriminate.
  - apply NoDup_filter. exact IH.
Qed.

Lemma NoDup_parameters (D : Dist) : NoDup (parameters D).
Proof. destruct D; cbn [parameters]; apply NoDup_dedup. Qed.

(** X15. list(parameters()) has no repetition; r_params and s_params only
    return parameters of the distribution; and for Bernoulli and Gaussian
    distributions and spike and slab distributions with a Bernoulli spike
    and a Gaussian slab, every parameter is in r_params or in s_params. *)
Theorem params_within_parameters :
  forall (D : Dist),
    NoDup (parameters D) /\
    (forall p, In p (r_params D) -> In p (parameters D)) /\
    (forall p, In p (s_params D) -> In p (parameters D)) /\
    (is_standard D = true ->
     forall p, In p (parameters D) -> In p (r_params D) \/ In p (s_params D)).
Proof.
  intros D. split; [apply NoDup_parameters|].
  induction D as [f | mn_f std_f | d spike IHs slab IHl | dists].
  - repeat split; cbn [r_params s_params]; auto; contradiction.
  - repeat split; cbn [r_params s_params]; auto; contradiction.
  - destruct IHs as (_ & IHs & _), IHl as (IHl & _ & _). split; [|split].
    + intros p Hp. cbn [r_params] in Hp. cbn [parameters].
      apply In_dedup, in_or_app. right. apply IHl, Hp.
    + intros p Hp. cbn [s_params] in Hp. cbn [parameters].
      apply In_dedup, in_or_app. left. apply IHs, Hp.
    + intros Hstd p Hp. destruct spike; try discriminate.
      destruct slab; try discriminate.
      cbn [parameters] in Hp. apply In_dedup, in_app_or in Hp.
      cbn [r_params s_params]. destruct Hp as [Hp | Hp]; [right | left]; exact Hp.
  - split; [|split].
    + intros p Hp. exact Hp.
    + intros p Hp. contradiction.
    + intros H. discriminate.
Qed.

Lemma params_within_parameters_witness :
  is_standard (CondSpikeSlabDistribution 1 (CondBernoulliDistribution gate_fcn)
                 std_normal) = true /\
  forall p,
    In p (parameters (CondSpikeSlabDistribution 1 (CondBernoulliDistribution gate_fcn)
                        std_normal)) ->
    In p (r_params (CondSpikeSlabDistribution 1 (CondBernoulliDistribution gate_fcn)
                      std_normal)) \/
    In p (s_params (CondSpikeSlabDistribution 1 (CondBernoulliDistribution gate_fcn)
                      std_normal)).
Proof.
  split; [reflexivity|].
  apply (proj2 (proj2 (proj2 (params_within_parameters
           (CondSpikeSlabDistribution 1 (CondBernoulliDistribution gate_fcn)
              std_normal))))).
  reflexivity.
Defined.

(** ** The modules of [extra_torch_modules.py] *)

Lemma tanh_exp (x : R) : tanh x = (exp x - exp (- x)) / (exp x + exp (- x)).
Proof.
  unfold tanh, sinh, cosh.
  pose proof (exp_pos x). pose proof (exp_pos (- x)).
  field. lra.
Qed.


Lemma tanh_half_ln (u : R) :
  -1 < u < 1 -> tanh (/ 2 * ln ((1 + u) / (1 - u))) = u.
Proof.
  intros Hu. rewrite tanh_exp.
  set (a := / 2 * ln ((1 + u) / (1 - u))).
  assert (Ht : 0 < (1 + u) / (1 - u)).
  { apply Rdiv_lt_0_compat; lra. }
  assert (Hsq : exp a * exp a = (1 + u) / (1 - u)).
  { rewrite <- exp_plus. unfold a.
    replace (/ 2 * ln ((1 + u) / (1 - u)) + / 2 * ln ((1 + u) / (1 - u)))
      with (ln ((1 + u) / (1 - u))) by lra.
    apply exp_ln. exact Ht. }
  pose proof (exp_pos a) as Ha.
  rewrite exp_Ropp.
  assert (He : (1 - u) * (exp a * exp a) = 1 + u).
  { rewrite Hsq. field. lra. }
  assert (Hd : exp a + / exp a <> 0).
  { pose proof (Rinv_0_lt_compat _ Ha). lra. }
  apply Rmult_eq_reg_r with (exp a + / exp a); [|exact Hd].
  unfold Rdiv. rewrite Rmult_assoc, Rinv_l by exact Hd. rewrite Rmult_1_r.
  apply Rmult_eq_reg_r with (exp a); [|lra].
  replace ((exp a - / exp a) * exp a) with (exp a * exp a - 1) by (field; lra).
  replace (u * (exp a + / exp a) * exp a) with (u * (exp a * exp a) + u) by (field; lra).
  nra.
Qed.

Lemma unsqueeze_expand_ok (n d : nat) (vl : list R) :
  length vl = d -> unsqueeze_expand n d vl = Ok (Mat d (repeat vl n)).
Proof.
  intros H. unfold unsqueeze_expand, broadcast_to, nrows.
  cbn [ncols mrows length]. rewrite H, !Nat.eqb_refl, orb_true_r. cbn [andb orb bind].
  rewrite expand_singleton, map_repeat, (expand_same _ _ H). reflexivity.
Qed.

Lemma has_shape_repeat (n d : nat) (vl : list R) :
  length vl = d -> has_shape (Mat d (repeat vl n)) n d.
Proof.
  intros H. split; [reflexivity|]. split; [apply repeat_length|].
  cbn [mrows]. apply Forall_forall. intros r Hr.
  apply repeat_spec in Hr. subst r. exact H.
Qed.

Lemma entry_repeat (n d i j : nat) (vl : list R) :
  (i < n)%nat -> entry (Mat d (repeat vl n)) i j = nth j vl 0.
Proof.
  intros Hi. unfold entry. cbn [mrows]. rewrite nth_repeat_lt by exact Hi. reflexivity.
Qed.

Lemma constant_bounded_forward_rows (self : ConstantBoundedFcn.t) (x : tensor) (n : nat) :
  shape0 x = Ok n ->
  length (ConstantBoundedFcn.lower_bound self) = ConstantBoundedFcn.n_dims self ->
  length (ConstantBoundedFcn.upper_bound self) = ConstantBoundedFcn.n_dims self ->
  length (ConstantBoundedFcn.v self) = ConstantBoundedFcn.n_dims self ->
  ConstantBoundedFcn.forward self x
  = Ok (Mat (ConstantBoundedFcn.n_dims self)
          (repeat (zip_with Rplus
                     (zip_with Rmult
                        (map (fun a => 0.5 * tanh a + 0.5) (ConstantBoundedFcn.v self))
                        (zip_with Rminus (ConstantBoundedFcn.upper_bound self)
                                         (ConstantBoundedFcn.lower_bound self)))
                     (ConstantBoundedFcn.lower_bound self)) n)).
Proof.
  intros Hx Hl Hu Hv. unfold ConstantBoundedFcn.forward.
  rewrite Hx. cbn [bind].
  set (lb := ConstantBoundedFcn.lower_bound self) in *.
  set (ub := ConstantBoundedFcn.upper_bound self) in *.
  set (v := ConstantBoundedFcn.v self) in *.
  assert (Hd : length (zip_with Rminus ub lb) = ConstantBoundedFcn.n_dims self).
  { rewrite length_zip_with; congruence. }
  assert (Ht : length (map (fun a => 0.5 * tanh a + 0.5) v)
               = ConstantBoundedFcn.n_dims self).
  { rewrite length_map. exact Hv. }
  assert (Hs : length (zip_with Rmult (map (fun a => 0.5 * tanh a + 0.5) v)
                         (zip_with Rminus ub lb)) = ConstantBoundedFcn.n_dims self).
  { rewrite length_zip_with; congruence. }
  rewrite (bcast1_same Rminus ub lb) by congruence. cbn [bind].
  rewrite bcast1_same by congruence. cbn [bind].
  rewrite bcast1_same by congruence. cbn [bind].
  apply unsqueeze_expand_ok.
  rewrite length_zip_with; congruence.
Qed.





Lemma mapM_arctanh (l : list R) :
  Forall (fun u => -1 < u < 1) l ->
  mapM arctanh l = Ok (map (fun u => / 2 * ln ((1 + u) / (1 - u))) l).
Proof.
  induction 1 as [|u l [Hu1 Hu2] _ IH]; [reflexivity|].
  cbn [mapM map]. unfold arctanh at 1. unfold Rltb.
  destruct (Rlt_dec (-1) u); [|contradiction].
  destruct (Rlt_dec u 1); [|contradiction].
  cbn [andb bind]. rewrite IH. reflexivity.
Qed.

Lemma np_bcast1_same (f : R -> R -> R) (a b : list R) :
  length a = length b -> np_bcast1 f a b = Ok (zip_with f a b).
Proof.
  intros H. unfold np_bcast1. rewrite H, bdim_same, !expand_same by congruence.
  reflexivity.
Qed.

Lemma constant_bounded_lists (lb : list R) :
  forall ub iv,
    length ub = length lb -> length iv = length lb ->
    (forall j, (j < length lb)%nat -> nth j lb 0 < nth j iv 0 < nth j ub 0) ->
    forallb nzR (zip_with Rminus ub lb) = true /\
    Forall (fun u => -1 < u < 1)
      (map (fun a => a - 1)
         (zip_with Rdiv (map (fun a => 2 * a) (zip_with Rminus iv lb))
                        (zip_with Rminus ub lb))) /\
    zip_with Rplus
      (zip_with Rmult
         (map (fun a => 0.5 * tanh a + 0.5)
            (map (fun u => / 2 * ln ((1 + u) / (1 - u)))
               (map (fun a => a - 1)
                  (zip_with Rdiv (map (fun a => 2 * a) (zip_with Rminus iv lb))
                                 (zip_with Rminus ub lb)))))
         (zip_with Rminus ub lb))
      lb = iv.
Proof.
  induction lb as [|l lb IH]; intros [|u ub] [|i iv] Hu Hi H; try discriminate.
  - repeat split. constructor.
  - destruct (IH ub iv) as (H1 & H2 & H3).
    + cbn in Hu. lia.
    + cbn in Hi. lia.
    + intros j Hj. apply (H (S j)). cbn. lia.
    + pose proof (H 0%nat ltac:(cbn; lia)) as H0. cbn [nth] in H0.
      assert (Hq : -1 < 2 * (i - l) / (u - l) - 1 < 1).
      { assert (Hr : 0 < (i - l) / (u - l) < 1).
        { split.
          - apply Rdiv_lt_0_compat; lra.
          - apply Rmult_lt_reg_r with (u - l); [lra|].
            unfold Rdiv. rewrite Rmult_assoc, Rinv_l by lra. lra. }
        replace (2 * (i - l) / (u - l)) with (2 * ((i - l) / (u - l)))
          by (unfold Rdiv; ring).
        lra. }
      cbn [zip_with map forallb]. split; [|split].
      * rewrite nzR_true by lra. exact H1.
      * constructor; [exact Hq | exact H2].
      * rewrite H3. f_equal.
        rewrite (tanh_half_ln _ Hq). replace 0.5 with (/ 2) by lra. field. lra.
Qed.

Lemma map_zip_with {A B C D} (g : C -> D) (f : A -> B -> C) la lb :
  map g (zip_with f la lb) = zip_with (fun a b => g (f a b)) la lb.
Proof.
  revert lb. induction la as [|a la IH]; intros [|b lb]; cbn; [| | |rewrite IH];
    reflexivity.
Qed.

Lemma constant_bounded_init_default (lb ub : list R) (iv : option (list R)) :
  length ub = length lb ->
  ConstantBoundedFcn.init lb ub iv
  = ConstantBoundedFcn.init lb ub (Some (initial_value lb ub iv)).
Proof.
  intros Hu. destruct iv as [i|]; [reflexivity|].
  unfold ConstantBoundedFcn.init, initial_value.
  rewrite (np_bcast1_same Rplus lb ub) by congruence. cbn [bind].
  rewrite map_zip_with. reflexivity.
Qed.

Lemma constant_bounded_init_some (lb ub iv : list R) :
  length ub = length lb -> length iv = length lb ->
  (forall j, (j < length lb)%nat -> nth j lb 0 < nth j iv 0 < nth j ub 0) ->
  ConstantBoundedFcn.init lb ub (Some iv)
  = Ok {| ConstantBoundedFcn.n_dims := length lb;
          ConstantBoundedFcn.lower_bound := lb;
          ConstantBoundedFcn.upper_bound := ub;
          ConstantBoundedFcn.v :=
            map (fun u => / 2 * ln ((1 + u) / (1 - u)))
              (map (fun a => a - 1)
                 (zip_with Rdiv (map (fun a => 2 * a) (zip_with Rminus iv lb))
                                (zip_with Rminus ub lb))) |}.
Proof.
  intros Hu Hi H.
  destruct (constant_bounded_lists lb ub iv Hu Hi H) as (H1 & H2 & _).
  unfold ConstantBoundedFcn.init. cbn [bind].
  rewrite (np_bcast1_same Rminus iv lb) by congruence. cbn [bind].
  rewrite (np_bcast1_same Rminus ub lb) by congruence. cbn [bind].
  unfold np_div. rewrite H1.
  rewrite np_bcast1_same
    by (rewrite length_map, !length_zip_with; congruence).
  cbn [bind]. rewrite (mapM_arctanh _ H2). reflexivity.
Qed.

Lemma constant_bounded_round_trip (lb ub i : list R) (x : tensor) (n : nat) :
  shape0 x = Ok n ->
  length ub = length lb -> length i = length lb ->
  (forall j, (j < length lb)%nat -> nth j lb 0 < nth j i 0 < nth j ub 0) ->
  exists self,
    ConstantBoundedFcn.init lb ub (Some i) = Ok self /\
    ConstantBoundedFcn.n_dims self = length lb /\
    ConstantBoundedFcn.forward self x = Ok (Mat (length lb) (repeat i n)).
Proof.
  intros Hx Hu Hi H.
  eexists. split; [exact (constant_bounded_init_some lb ub i Hu Hi H)|].
  split; [reflexivity|].
  destruct (constant_bounded_lists lb ub i Hu Hi H) as (_ & _ & H3).
  rewrite (constant_bounded_forward_rows _ x n Hx);
    cbn [ConstantBoundedFcn.n_dims ConstantBoundedFcn.lower_bound
         ConstantBoundedFcn.upper_bound ConstantBoundedFcn.v].
  - rewrite H3. reflexivity.
  - reflexivity.
  - exact Hu.
  - rewrite !length_map, length_zip_with;
      [|rewrite length_map, length_zip_with; [|congruence]];
      [rewrite length_map, length_zip_with; congruence|].
    rewrite length_zip_with; congruence.
Qed.

(** X17. Constructing a bounded constant function and calling it returns
    the value it was initialized with: when the bounds have the same length
    and the initial value (init_value, or the midpoint of the bounds when
    init_value is None) lies strictly between them, the constructor succeeds
    and forward returns n_smps rows, each equal to the initial value. *)
Theorem constant_bounded_init_forward :
  forall (lb ub : list R) (iv : option (list R)) (x : tensor) (n_smps : nat),
    shape0 x = Ok n_smps ->
    length ub = length lb ->
    length (initial_value lb ub iv) = length lb ->
    (forall j, (j < length lb)%nat ->
               nth j lb 0 < nth j (initial_value lb ub iv) 0 < nth j ub 0) ->
    exists self,
      ConstantBoundedFcn.init lb ub iv = Ok self /\
      ConstantBoundedFcn.n_dims self = length lb /\
      ConstantBoundedFcn.forward self x
      = Ok (Mat (length lb) (repeat (initial_value lb ub iv) n_smps)).
Proof.
  intros lb ub iv x n Hx Hu Hi H.
  rewrite (constant_bounded_init_default lb ub iv Hu).
  exact (constant_bounded_round_trip lb ub _ x n Hx Hu Hi H).
Qed.

Lemma constant_bounded_init_forward_witness :
  exists self,
    ConstantBoundedFcn.init [0; -1] [1; 1] None = Ok self /\
    ConstantBoundedFcn.n_dims self = length [0; -1] /\
    ConstantBoundedFcn.forward self (FT (T2 x2))
    = Ok (Mat (length [0; -1]) (repeat (initial_value [0; -1] [1; 1] None) 2)).
Proof.
  apply (constant_bounded_init_forward [0; -1] [1; 1] None (FT (T2 x2)) 2);
    try reflexivity.
  intros [|[|j]] Hj; cbn [nth initial_value zip_with length] in *; [lra | lra | lia].
Defined.

Lemma transpose_row (r : list R) :
  transpose (Mat (length r) (repeat r 1)) = Mat 1 (map (fun a => [a]) r).
Proof.
  unfold transpose, nrows. cbn [repeat mrows ncols length map].
  f_equal. rewrite (list_as_nth r 0) at 2. rewrite map_map. reflexivity.
Qed.

Lemma scaled_ones (a : R) (n : nat) :
  map (fun o => a * o) (repeat 1 n) = repeat a n.
Proof. rewrite map_repeat, Rmult_1_r. reflexivity. Qed.

(** X18. A per-sample bounded constant function assigns its initial value
    to every sample and refuses an input with another number of samples:
    when the initial value lies strictly between the bounds (arguments left
    out taking the defaults -1.0, 1.0 and .05) the constructor succeeds, and
    forward returns the [n, 1] tensor filled with the initial value when x
    has n rows and raises ValueError otherwise. *)
Theorem ind_smp_constant_bounded_forward :
  forall (n : nat) (lb ub iv : option R) (x : tensor) (n_x : nat),
    shape0 x = Ok n_x ->
    or_default lb (-1) < or_default iv 0.05 < or_default ub 1 ->
    exists self,
      IndSmpConstantBoundedFcn.init n lb ub iv = Ok self /\
      IndSmpConstantBoundedFcn.forward self x
      = if (n =? n_x)%nat then Ok (Mat 1 (repeat [or_default iv 0.05] n))
        else Raise (ValueError IndSmpConstantBoundedFcn.msg).
Proof.
  intros n lb ub iv x n_x Hx H.
  unfold IndSmpConstantBoundedFcn.init. rewrite !scaled_ones.
  destruct (constant_bounded_round_trip
              (repeat (or_default lb (-1)) n) (repeat (or_default ub 1) n)
              (repeat (or_default iv 0.05) n) place_holder_input 1)
    as (f & Hf & Hd & Hy).
  - reflexivity.
  - rewrite !repeat_length. reflexivity.
  - rewrite !repeat_length. reflexivity.
  - intros j Hj. rewrite repeat_length in Hj. rewrite !nth_repeat_lt by exact Hj.
    exact H.
  - rewrite Hf. cbn [bind]. eexists. split; [reflexivity|].
    unfold IndSmpConstantBoundedFcn.forward.
    cbn [IndSmpConstantBoundedFcn.n IndSmpConstantBoundedFcn.f].
    rewrite Hx. cbn [bind].
    destruct (n =? n_x)%nat; cbn [negb]; [|reflexivity].
    rewrite Hy. cbn [bind]. rewrite repeat_length.
    rewrite <- (repeat_length (or_default iv 0.05) n) at 1.
    rewrite transpose_row, map_repeat. reflexivity.
Qed.

Lemma ind_smp_constant_bounded_forward_witness :
  exists self,
    IndSmpConstantBoundedFcn.init 2 None None None = Ok self /\
    IndSmpConstantBoundedFcn.forward self (FT (T2 x2))
    = if (2 =? 2)%nat then Ok (Mat 1 (repeat [or_default None 0.05] 2))
      else Raise (ValueError IndSmpConstantBoundedFcn.msg).
Proof.
  apply (ind_smp_constant_bounded_forward 2 None None None (FT (T2 x2)) 2).
  - reflexivity.
  - cbn [or_default]. lra.
Defined.

(** X19. A per-sample real constant function does not use its init_value
    argument: whatever init_value is, forward returns the [n, 1] tensor
    filled with .01 when x has n rows, and raises ValueError otherwise. *)
Theorem ind_smp_constant_real_forward :
  forall (n : nat) (iv : option R) (x : tensor) (n_x : nat),
    shape0 x = Ok n_x ->
    IndSmpConstantRealFcn.forward (IndSmpConstantRealFcn.init n iv) x
    = if (n =? n_x)%nat then Ok (Mat 1 (repeat [0.01] n))
      else Raise (ValueError IndSmpConstantRealFcn.msg).
Proof.
  intros n iv x n_x Hx.
  unfold IndSmpConstantRealFcn.forward, IndSmpConstantRealFcn.init.
  cbn [IndSmpConstantRealFcn.n IndSmpConstantRealFcn.f].
  rewrite Hx. cbn [bind].
  destruct (n =? n_x)%nat; cbn [negb]; [|reflexivity].
  rewrite scaled_ones.
  unfold ConstantRealFcn.forward, ConstantRealFcn.init.
  cbn [ConstantRealFcn.n_dims ConstantRealFcn.vl shape0 place_holder_input length bind].
  rewrite unsqueeze_expand_ok by reflexivity. cbn [bind].
  rewrite repeat_length.
  rewrite <- (repeat_length 0.01 n) at 1.
  rewrite transpose_row, map_repeat. reflexivity.
Qed.

Lemma ind_smp_constant_real_forward_witness :
  IndSmpConstantRealFcn.forward (IndSmpConstantRealFcn.init 2 (Some 7)) (FT (T2 x2))
  = if (2 =? 2)%nat then Ok (Mat 1 (repeat [0.01] 2))
    else Raise (ValueError IndSmpConstantRealFcn.msg).
Proof.
  apply (ind_smp_constant_real_forward 2 (Some 7) (FT (T2 x2)) 2).
  reflexivity.
Defined.

Lemma bdim_1_r (n : nat) : bdim n 1 = Some n.
Proof. unfold bdim. destruct n as [|[|n]]; reflexivity. Qed.

Lemma zip_with_row {A B C} (f : A -> B -> C) (rows : list A) (r : B) :
  zip_with f rows (repeat r (length rows)) = map (fun a => f a r) rows.
Proof. induction rows as [|a rows IH]; cbn; [|rewrite IH]; reflexivity. Qed.

(** A rank 2 tensor combined with a rank 1 tensor of the length of its rows. *)
Lemma bcast2_row (f : R -> R -> R) (x : mat R) (r : list R) (n d : nat) :
  has_shape x n d -> length r = d ->
  bcast2 f x (Mat (length r) [r])
  = Ok (Mat d (map (fun xr => zip_with f xr r) (mrows x))).
Proof.
  intros (Hc & Hn & Hr) Hl. subst n. unfold bcast2, nrows.
  cbn [mrows ncols length]. rewrite bdim_1_r, Hc, Hl, bdim_same.
  rewrite (expand_same _ _ eq_refl), expand_singleton, zip_with_row.
  f_equal. f_equal. apply map_ext_in. intros xr Hxr.
  rewrite Forall_forall in Hr.
  rewrite (expand_same _ _ (Hr xr Hxr)), (expand_same _ _ Hl). reflexivity.
Qed.

Lemma has_shape_map_rows (g : list R -> list R) (x : mat R) (n d : nat) :
  has_shape x n d -> (forall r, length r = d -> length (g r) = d) ->
  has_shape (Mat d (map g (mrows x))) n d.
Proof.
  intros (Hc & Hn & Hr) Hg. split; [reflexivity|]. cbn [mrows]. split.
  - rewrite length_map. exact Hn.
  - apply Forall_map. eapply Forall_impl; [|exact Hr]. exact Hg.
Qed.

Lemma entry_map_rows (g : list R -> list R) (x : mat R) (n d i j : nat) :
  has_shape x n d -> (i < n)%nat ->
  entry (Mat d (map g (mrows x))) i j = nth j (g (nth i (mrows x) [])) 0.
Proof.
  intros (_ & Hn & _) Hi. unfold entry. cbn [mrows].
  rewrite (nth_map_in g (mrows x) i [] []) by lia. reflexivity.
Qed.

(** X20. The rectified linear unit y = o + relu(x + s) never goes below its
    offset: for x of the shape [n, d] and parameters of length d, forward
    returns a tensor of the same shape with entries
    max(x[i,j] + s[j], 0) + o[j], each at least o[j]. *)
Theorem relu_forward_above_offset :
  forall (self : Relu.t) (x : mat R) (n d : nat),
    has_shape x n d ->
    length (Relu.s self) = d ->
    length (Relu.o self) = d ->
    exists y,
      Relu.forward self x = Ok y /\
      has_shape y n d /\
      forall i j, (i < n)%nat -> (j < d)%nat ->
                  entry y i j
                  = Rmax (entry x i j + nth j (Relu.s self) 0) 0 + nth j (Relu.o self) 0 /\
                  nth j (Relu.o self) 0 <= entry y i j.
Proof.
  intros self x n d Hx Hs Ho.
  unfold Relu.forward.
  rewrite (bcast2_row Rplus x (Relu.s self) n d Hx Hs). cbn [bind ncols mrows].
  set (z := Mat d (map (map Relu.relu)
                     (map (fun xr => zip_with Rplus xr (Relu.s self)) (mrows x)))).
  assert (Hz : has_shape z n d).
  { unfold z. rewrite map_map. apply has_shape_map_rows; [exact Hx|].
    intros r Hr. rewrite length_map, length_zip_with; congruence. }
  rewrite (bcast2_row Rplus z (Relu.o self) n d Hz Ho).
  eexists. split; [reflexivity|]. split.
  - apply has_shape_map_rows; [exact Hz|].
    intros r Hr. rewrite length_zip_with; congruence.
  - intros i j Hi Hj.
    assert (He : entry (Mat d (map (fun xr => zip_with Rplus xr (Relu.o self)) (mrows z)))
                   i j
                 = Rmax (entry x i j + nth j (Relu.s self) 0) 0
                   + nth j (Relu.o self) 0).
    { rewrite (entry_map_rows _ z n d i j Hz Hi).
      pose proof (row_length z n d i Hz Hi) as Hrz.
      rewrite (nth_zip_with Rplus _ _ j 0 0 0) by lia.
      f_equal. unfold z at 1. cbn [mrows]. rewrite map_map.
      destruct Hx as (Hc & Hn & Hr).
      rewrite (nth_map_in _ (mrows x) i [] []) by lia.
      assert (Hrx : length (nth i (mrows x) []) = d).
      { rewrite Forall_forall in Hr. apply Hr. apply nth_In. lia. }
      rewrite (nth_map_in Relu.relu _ j 0 0)
        by (rewrite length_zip_with; congruence).
      rewrite (nth_zip_with Rplus _ _ j 0 0 0) by lia.
      reflexivity. }
    split; [exact He|]. rewrite He.
    pose proof (Rmax_r (entry x i j + nth j (Relu.s self) 0) 0). lra.
Qed.

Lemma relu_forward_above_offset_witness :
  exists y,
    Relu.forward {| Relu.o := [2]; Relu.s := [-1] |} x2 = Ok y /\
    has_shape y 2 1 /\
    forall i j, (i < 2)%nat -> (j < 1)%nat ->
                entry y i j = Rmax (entry x2 i j + nth j [-1] 0) 0 + nth j [2] 0 /\
                nth j [2] 0 <= entry y i j.
Proof.
  apply (relu_forward_above_offset {| Relu.o := [2]; Relu.s := [-1] |} x2 2 1).
  - repeat split. repeat constructor.
  - reflexivity.
  - reflexivity.
Defined.








Lemma linear_forward_shape (l : Linear.t) (x : mat R) (n : nat) :
  has_shape x n (Linear.in_features l) ->
  exists y, Linear.forward l x = Ok y /\ has_shape y n (Linear.out_features l).
Proof.
  intros (Hc & Hn & Hr). unfold Linear.forward. rewrite Hc, Nat.eqb_refl.
  eexists. split; [reflexivity|]. split; [reflexivity|]. cbn [mrows]. split.
  - rewrite length_map. exact Hn.
  - apply Forall_map, Forall_forall. intros r _.
    rewrite length_map, length_seq. reflexivity.
Qed.

Lemma dense_layer_forward (l : DenseLayer.t) (x z : mat R) (n d g : nat) :
  has_shape x n d -> DenseLayer.m l x = Ok z -> has_shape z n g ->
  exists y,
    DenseLayer.forward l x = Ok y /\
    has_shape y n (d + g) /\
    forall i, (i < n)%nat ->
              nth i (mrows y) [] = nth i (mrows x) [] ++ nth i (mrows z) [].
Proof.
  intros Hx Hm Hz. unfold DenseLayer.forward. rewrite Hm. cbn [bind].
  assert (Hrows : Forall (fun m : mat R => nrows m = n) [x; z]).
  { constructor; [apply Hx|]. constructor; [apply Hz|]. constructor. }
  rewrite (cat_mats_ok n [x; z]) by (first [discriminate | exact Hrows]).
  eexists. split; [reflexivity|].
  assert (Hnth : forall i, (i < n)%nat ->
                   nth i (cat_rows n [x; z]) []
                   = nth i (mrows x) [] ++ nth i (mrows z) []).
  { intros i Hi. rewrite (nth_cat_rows n i [x; z] Hrows Hi).
    cbn [map concat]. rewrite app_nil_r. reflexivity. }
  split; [|exact Hnth].
  split.
  - cbn [ncols map list_sum fold_right]. destruct Hx as (-> & _), Hz as (-> & _).
    unfold list_sum. cbn. lia.
  - cbn [mrows]. split; [exact (length_cat_rows n [x; z] Hrows)|].
    apply Forall_forall. intros r Hr.
    destruct (In_nth _ _ [] Hr) as (i & Hi & <-).
    rewrite (length_cat_rows n [x; z] Hrows) in Hi.
    rewrite (Hnth i Hi), length_app.
    rewrite (row_length x n d i Hx Hi), (row_length z n g i Hz Hi). reflexivity.
Qed.

Lemma dense_lnl_layers (nl_class : nat -> mat R -> result (mat R))
    (d_in growth_rate : nat) (bias : bool)
    (w : nat -> nat -> nat -> R) (b : nat -> nat -> R) :
  (forall i, keeps_shape (nl_class i)) ->
  forall (m k : nat) (x : mat R) (n : nat),
    has_shape x n (d_in + k * growth_rate) ->
    exists y,
      fold_left (fun x module => x <- x ;; DenseLayer.forward module x)
        (map (fun i =>
                {| DenseLayer.m := fun x =>
                     y <- Linear.forward
                            {| Linear.in_features := d_in + i * growth_rate;
                               Linear.out_features := growth_rate;
                               Linear.weight := w i;
                               Linear.bias := if bias then Some (b i) else None |} x ;;
                     nl_class i y |})
           (seq k m)) (Ok x) = Ok y /\
      has_shape y n (d_in + (k + m) * growth_rate) /\
      forall i, (i < n)%nat ->
                firstn d_in (nth i (mrows y) []) = firstn d_in (nth i (mrows x) []).
Proof.
  intros Hnl. induction m as [|m IH]; intros k x n Hx.
  - exists x. split; [reflexivity|]. rewrite Nat.add_0_r. split; [exact Hx|]. reflexivity.
  - cbn [seq map fold_left bind].
    set (lin := {| Linear.in_features := d_in + k * growth_rate;
                   Linear.out_features := growth_rate;
                   Linear.weight := w k;
                   Linear.bias := if bias then Some (b k) else None |}).
    destruct (linear_forward_shape lin x n Hx) as (y1 & Hy1 & Hs1).
    destruct (Hnl k y1 n growth_rate Hs1) as (z & Hz & Hsz).
    set (layer := {| DenseLayer.m := fun x => y <- Linear.forward lin x ;; nl_class k y |}).
    destruct (dense_layer_forward layer x z n _ growth_rate Hx) as (x1 & Hx1 & Hs & Hrow).
    + unfold layer. cbn [DenseLayer.m]. rewrite Hy1. exact Hz.
    + exact Hsz.
    + rewrite Hx1.
      replace (d_in + k * growth_rate + growth_rate)%nat
        with (d_in + S k * growth_rate)%nat in Hs by lia.
      destruct (IH (S k) x1 n Hs) as (y & Hy & Hsy & Hfirst).
      exists y. split; [exact Hy|]. split.
      * replace (k + S m)%nat with (S k + m)%nat by lia. exact Hsy.
      * intros i Hi. rewrite (Hfirst i Hi), (Hrow i Hi).
        rewrite firstn_app, (row_length x n _ i Hx Hi).
        replace (d_in - (d_in + k * growth_rate))%nat with 0%nat by lia.
        cbn [firstn]. apply app_nil_r.
Qed.

(** X22. A densely connected network keeps its input and appends the
    features of each layer: for activation functions that keep the shape of
    their input and an input of the shape [n, d_in], forward of a network
    with n_layers layers returns a tensor of the shape
    [n, d_in + n_layers * growth_rate] whose rows start with the rows of
    the input, whatever the weights and biases. *)
Theorem dense_lnl_net_forward :
  forall (nl_class : nat -> mat R -> result (mat R))
         (d_in n_layers growth_rate : nat) (bias : bool)
         (w : nat -> nat -> nat -> R) (b : nat -> nat -> R) (x : mat R) (n : nat),
    (forall i, keeps_shape (nl_class i)) ->
    has_shape x n d_in ->
    exists y,
      DenseLNLNet.forward
        (DenseLNLNet.init nl_class d_in n_layers growth_rate bias w b) x = Ok y /\
      has_shape y n (d_in + n_layers * growth_rate) /\
      forall i, (i < n)%nat -> firstn d_in (nth i (mrows y) []) = nth i (mrows x) [].
Proof.
  intros nl_class d_in n_layers growth_rate bias w b x n Hnl Hx.
  assert (Hx0 : has_shape x n (d_in + 0 * growth_rate)).
  { rewrite Nat.mul_0_l, Nat.add_0_r. exact Hx. }
  destruct (dense_lnl_layers nl_class d_in growth_rate bias w b Hnl n_layers 0 x n Hx0)
    as (y & Hy & Hs & Hfirst).
  exists y. split; [exact Hy|]. split; [exact Hs|].
  intros i Hi. rewrite (Hfirst i Hi).
  apply firstn_all2. rewrite (row_length x n d_in i Hx Hi). lia.
Qed.

Lemma relu_keeps_shape : keeps_shape (fun y => Ok (Mat (ncols y) (map (map Relu.relu) (mrows y)))).
Proof.
  intros y n d (Hc & Hn & Hr). eexists. split; [reflexivity|].
  split; [exact Hc|]. cbn [mrows]. split.
  - rewrite length_map. exact Hn.
  - apply Forall_map. eapply Forall_impl; [|exact Hr].
    intros r Hl. cbn. rewrite length_map. exact Hl.
Qed.

Lemma dense_lnl_net_forward_witness :
  exists y,
    DenseLNLNet.forward
      (DenseLNLNet.init
         (fun _ y => Ok (Mat (ncols y) (map (map Relu.relu) (mrows y))))
         1 2 3 true (fun _ _ _ => 1) (fun _ _ => 0)) x2 = Ok y /\
    has_shape y 2 (1 + 2 * 3) /\
    forall i, (i < 2)%nat -> firstn 1 (nth i (mrows y) []) = nth i (mrows x2) [].
Proof.
  apply (dense_lnl_net_forward
           (fun _ y => Ok (Mat (ncols y) (map (map Relu.relu) (mrows y))))
           1 2 3 true (fun _ _ _ => 1) (fun _ _ => 0) x2 2).
  - intros _. exact relu_keeps_shape.
  - repeat split. repeat constructor.
Defined.

Lemma module_of_call (ps : list param) (f : tensor -> result (mat R)) (x y : mat R) :
  f (FT (T2 x)) = Ok y -> mcall (module_of ps f) x = y.
Proof. intros H. cbn [module_of mcall]. rewrite H. reflexivity. Qed.

(** X23. A Gaussian distribution built from the constant modules has the
    same density on every row: with a real constant mean mn and a bounded
    constant scale initialized to iv, every scale positive and strictly
    between its bounds, log_prob of a sample y of the shape [n, d] succeeds
    for every input x with n rows, and entry i is
    -1/2 sum_j ((y[i,j] - mn[j]) / iv[j])^2 - sum_j log(iv[j]) - d/2 log(2 pi). *)
Theorem gaussian_constant_modules_log_prob :
  forall (mn lb ub iv : list R) (ps1 ps2 : list param) (x y : mat R),
    length lb = length mn ->
    length ub = length mn ->
    length iv = length mn ->
    (forall j, (j < length mn)%nat ->
               nth j lb 0 < nth j iv 0 < nth j ub 0 /\ 0 < nth j iv 0) ->
    has_shape y (nrows x) (length mn) ->
    exists std_f ll,
      ConstantBoundedFcn.init lb ub (Some iv) = Ok std_f /\
      log_prob (CondGaussianDistribution
                  (module_of ps1 (ConstantRealFcn.forward (ConstantRealFcn.init mn)))
                  (module_of ps2 (ConstantBoundedFcn.forward std_f)))
               x (PTensor (FT (T2 y))) = Ok ll /\
      length ll = nrows x /\
      forall i, (i < nrows x)%nat ->
        nth i ll 0
        = - (1/2) * Sigma (length mn)
                      (fun j => ((entry y i j - nth j mn 0) / nth j iv 0) ^ 2)
          - Sigma (length mn) (fun j => ln (nth j iv 0))
          - INR (length mn) / 2 * ln (2 * PI).
Proof.
  intros mn lb ub iv ps1 ps2 x y Hl Hu Hi H Hy.
  destruct (constant_bounded_round_trip lb ub iv (FT (T2 x)) (nrows x))
    as (std_f & Hf & Hd & Hs).
  - reflexivity.
  - congruence.
  - congruence.
  - intros j Hj. rewrite Hl in Hj. apply (H j Hj).
  - rewrite Hl in Hs.
    set (mn_f := module_of ps1 (ConstantRealFcn.forward (ConstantRealFcn.init mn))).
    set (sd_f := module_of ps2 (ConstantBoundedFcn.forward std_f)).
    assert (Hmn : mcall mn_f x = Mat (length mn) (repeat mn (nrows x))).
    { apply module_of_call. unfold ConstantRealFcn.forward, ConstantRealFcn.init.
      cbn [shape0 bind ConstantRealFcn.n_dims ConstantRealFcn.vl].
      apply unsqueeze_expand_ok. reflexivity. }
    assert (Hsd : mcall sd_f x = Mat (length mn) (repeat iv (nrows x))).
    { apply module_of_call. exact Hs. }
    assert (Hmn_s : has_shape (mcall mn_f x) (nrows x) (length mn)).
    { rewrite Hmn. apply has_shape_repeat. reflexivity. }
    assert (Hsd_s : has_shape (mcall sd_f x) (nrows x) (length mn)).
    { rewrite Hsd. apply has_shape_repeat. exact Hi. }
    destruct (gaussian_log_prob_rows mn_f sd_f x y _ _ Hy Hmn_s Hsd_s)
      as (ll & Hll & Hlen & Hnth).
    exists std_f, ll. split; [exact Hf|]. split; [exact Hll|]. split; [exact Hlen|].
    intros i Hi'. rewrite (Hnth i Hi'). unfold gaussian_density.
    rewrite Hmn, Hsd.
    rewrite (Sigma_ext (length mn) _
               (fun j => ((entry y i j - nth j mn 0) / nth j iv 0) ^ 2))
      by (intros j Hj; rewrite !entry_repeat by exact Hi'; reflexivity).
    rewrite (Sigma_ext (length mn)
               (fun j => ln (entry (Mat (length mn) (repeat iv (nrows x))) i j))
               (fun j => ln (nth j iv 0)))
      by (intros j Hj; rewrite !entry_repeat by exact Hi'; reflexivity).
    reflexivity.
Qed.

Lemma gaussian_constant_modules_log_prob_witness :
  exists std_f ll,
    ConstantBoundedFcn.init [0] [2] (Some [1]) = Ok std_f /\
    log_prob (CondGaussianDistribution
                (module_of [] (ConstantRealFcn.forward (ConstantRealFcn.init [0])))
                (module_of [] (ConstantBoundedFcn.forward std_f)))
             x2 (PTensor (FT (T2 x2))) = Ok ll /\
    length ll = nrows x2 /\
    forall i, (i < nrows x2)%nat ->
      nth i ll 0
      = - (1/2) * Sigma (length [0])
                    (fun j => ((entry x2 i j - nth j [0] 0) / nth j [1] 0) ^ 2)
        - Sigma (length [0]) (fun j => ln (nth j [1] 0))
        - INR (length [0]) / 2 * ln (2 * PI).
Proof.
  apply (gaussian_constant_modules_log_prob [0] [0] [2] [1] [] [] x2 x2);
    try reflexivity.
  - intros [|j] Hj; cbn [nth length] in *; [lra | lia].
  - repeat split. repeat constructor.
Defined.
